(** * truefont: fixed-point geometry and the raster Path encoding

    A shallow embedding of [freetype/geom/geom.go] (fixed-point scalars and
    points), of the Path container of [freetype/raster] (the flat
    record stream, its builders, its diagnostic decoder and the backward
    replay [addPathReversed]) and of the outline feeder [contour] of the
    demonstration program, followed by the properties checked on them.
    [grow] and [AddPath] are embedded a second time over a heap of
    arrays, for the properties that depend on slices sharing one.

    Conventions of the embedding.
    - Go's [int32] and [int64] are integers of [Z] together with the
      two's-complement wrap-around of every arithmetic result, written out
      with [wrap].
    - Go's [int] as a slice length or index is bounded by the size of the
      allocation, so lengths are plain [nat] and indices plain [Z] (the
      backward walk can drive an index below zero). Where the
      demonstration program computes coordinates in [int], it is taken to
      be 64 bits wide.
    - A run-time panic is the [Panic] outcome of the [Result] monad. *)

From Stdlib Require Import ZArith List Lia String Ascii.
From stdpp Require Import base list strings pretty.

Local Open Scope Z_scope.

(** ** Machine integers *)

Module mach.

(** Two's-complement reduction of [z] to [w] bits. *)
Definition wrap (w : Z) (z : Z) : Z :=
  (z + 2 ^ (w - 1)) mod 2 ^ w - 2 ^ (w - 1).

Definition int32 (z : Z) : Z := wrap 32 z.
Definition int64 (z : Z) : Z := wrap 64 z.

Definition min_int32 : Z := - 2 ^ 31.
Definition max_int32 : Z := 2 ^ 31 - 1.

(** The values an [int32] variable can hold. *)
Definition is_int32 (z : Z) : Prop := min_int32 <= z <= max_int32.

Definition is_int32b (z : Z) : bool :=
  (min_int32 <=? z) && (z <=? max_int32).

Definition min_int64 : Z := - 2 ^ 63.
Definition max_int64 : Z := 2 ^ 63 - 1.

(** The values an [int64] variable can hold. *)
Definition is_int64 (z : Z) : Prop := min_int64 <= z <= max_int64.

End mach.

(** ** Package geom *)

Module geom.
Import mach.

(** [type Fix32 int32]: a 24.8 fixed point number, an integer that every
    operation below reduces to 32 bits. *)
Abbreviation Fix32 := Z (only parsing).

(** [type Fix64 int64]: a 48.16 fixed point number. *)
Abbreviation Fix64 := Z (only parsing).

(** Arithmetic of [Fix32]: Go's operators on [int32], which wrap. *)
Definition neg32 (a : Fix32) : Fix32 := int32 (- a).
Definition add32 (a b : Fix32) : Fix32 := int32 (a + b).
Definition sub32 (a b : Fix32) : Fix32 := int32 (a - b).
Definition mul32 (a b : Fix32) : Fix32 := int32 (a * b).
(** Go's [/] truncates toward zero. *)
Definition quo32 (a b : Fix32) : Fix32 := int32 (Z.quot a b).
Definition rem32 (a b : Fix32) : Fix32 := int32 (Z.rem a b).

(** Arithmetic of [int64]. *)
Definition add64 (a b : Z) : Z := int64 (a + b).
Definition sub64 (a b : Z) : Z := int64 (a - b).
Definition mul64 (a b : Z) : Z := int64 (a * b).
Definition quo64 (a b : Z) : Z := int64 (Z.quot a b).
Definition rem64 (a b : Z) : Z := int64 (Z.rem a b).
Definition neg64 (a : Z) : Z := int64 (- a).

(** The verbs of [fmt.Sprintf] used below. [%d] prints a signed decimal
    numeral; [%03d] pads it with zeros, after the sign, to three
    characters. *)
Definition fmt_d (z : Z) : string := pretty z.

Definition zero_pad (width : nat) (s : string) : string :=
  String.concat "" (replicate (width - String.length s)%nat "0") +:+ s.

Definition fmt_03d (z : Z) : string :=
  if z <? 0 then "-" +:+ zero_pad 2 (pretty (- z)) else zero_pad 3 (pretty z).

(** Reading back the three characters [%03d] prints for a number from 0
    to 999. *)
Definition digit_value (c : ascii) : Z := Z.of_N (N_of_ascii c) - 48.

Definition read_03d (s : string) : Z :=
  match s with
  | String a (String b (String c EmptyString)) =>
    100 * digit_value a + 10 * digit_value b + digit_value c
  | _ => -1
  end.

(** [func (x Fix32) String() string] *)
Definition Fix32_String (x : Fix32) : string :=
  if x <? 0 then
    let x := neg32 x in
    "-" +:+ fmt_d (int32 (quo32 x 256)) +:+ ":" +:+ fmt_03d (int32 (rem32 x 256))
  else
    fmt_d (int32 (quo32 x 256)) +:+ ":" +:+ fmt_03d (int32 (rem32 x 256)).

(** [func MaxAbs(a, b Fix32) Fix32] *)
Definition MaxAbs (a b : Fix32) : Fix32 :=
  let a := if a <? 0 then neg32 a else a in
  let b := if b <? 0 then neg32 b else b in
  if a <? b then b else a.

(** [type Point struct { X, Y Fix32 }] *)
Record Point : Type := mkPoint { X : Fix32; Y : Fix32 }.

(** [func Pt(x, y Fix32) Point] *)
Definition Pt (x y : Fix32) : Point := mkPoint x y.

(** [func (p Point) Add(q Point) Point] *)
Definition Add (p q : Point) : Point :=
  mkPoint (add32 (X p) (X q)) (add32 (Y p) (Y q)).

(** [func (p Point) Sub(q Point) Point] *)
Definition Sub (p q : Point) : Point :=
  mkPoint (sub32 (X p) (X q)) (sub32 (Y p) (Y q)).

(** [func (p Point) Mul(k Fix32) Point]: the operands of [p.X * k / 256]
    all have type [Fix32], so the product is a 32-bit product. *)
Definition Mul (p : Point) (k : Fix32) : Point :=
  mkPoint (quo32 (mul32 (X p) k) 256) (quo32 (mul32 (Y p) k) 256).

(** [func (p Point) Neg() Point] *)
Definition Neg (p : Point) : Point :=
  mkPoint (neg32 (X p)) (neg32 (Y p)).

(** [func (p Point) Dot(q Point) Fix64] *)
Definition Dot (p q : Point) : Fix64 :=
  let px := int64 (X p) in let py := int64 (Y p) in
  let qx := int64 (X q) in let qy := int64 (Y q) in
  add64 (mul64 px qx) (mul64 py qy).

(** [func (p Point) Rot45CW() Point] *)
Definition Rot45CW (p : Point) : Point :=
  let px := int64 (X p) in let py := int64 (Y p) in
  let qx := quo64 (mul64 (sub64 px py) 181) 256 in
  let qy := quo64 (mul64 (add64 px py) 181) 256 in
  mkPoint (int32 qx) (int32 qy).

(** [func (p Point) Rot90CW() Point] *)
Definition Rot90CW (p : Point) : Point :=
  mkPoint (neg32 (Y p)) (X p).

(** A point whose two coordinates are values of [int32]. *)
Definition is_Point (p : Point) : Prop := is_int32 (X p) /\ is_int32 (Y p).

(** [Rot45CW] applied [n] times in succession. *)
Definition Rot45CW_times (n : nat) (p : Point) : Point :=
  Nat.iter n Rot45CW p.

(** The eighth turn of [Rot45CW] on unbounded integers, where nothing
    wraps: the reference [Rot45CW] is compared with. *)
Definition rot45 (x y : Z) : Z * Z :=
  (Z.quot ((x - y) * 181) 256, Z.quot ((x + y) * 181) 256).

(** [func (p Point) Rot135CW() Point] *)
Definition Rot135CW (p : Point) : Point :=
  let px := int64 (X p) in let py := int64 (Y p) in
  let qx := quo64 (mul64 (sub64 (neg64 px) py) 181) 256 in
  let qy := quo64 (mul64 (sub64 px py) 181) 256 in
  mkPoint (int32 qx) (int32 qy).

(** [func (p Point) Rot45CCW() Point] *)
Definition Rot45CCW (p : Point) : Point :=
  let px := int64 (X p) in let py := int64 (Y p) in
  let qx := quo64 (mul64 (add64 px py) 181) 256 in
  let qy := quo64 (mul64 (add64 (neg64 px) py) 181) 256 in
  mkPoint (int32 qx) (int32 qy).

(** [func (p Point) Rot90CCW() Point] *)
Definition Rot90CCW (p : Point) : Point :=
  mkPoint (Y p) (neg32 (X p)).

(** [func (p Point) Rot135CCW() Point] *)
Definition Rot135CCW (p : Point) : Point :=
  let px := int64 (X p) in let py := int64 (Y p) in
  let qx := quo64 (mul64 (add64 (neg64 px) py) 181) 256 in
  let qy := quo64 (mul64 (sub64 (neg64 px) py) 181) 256 in
  mkPoint (int32 qx) (int32 qy).

(** [%05d], as [%03d] with five characters, and the reading back of what
    it prints for a number from 0 to 99999. *)
Definition fmt_05d (z : Z) : string :=
  if z <? 0 then "-" +:+ zero_pad 4 (pretty (- z)) else zero_pad 5 (pretty z).

Definition read_05d (s : string) : Z :=
  match s with
  | String a (String b (String c (String d (String e EmptyString)))) =>
    10000 * digit_value a + 1000 * digit_value b + 100 * digit_value c
    + 10 * digit_value d + digit_value e
  | _ => -1
  end.

(** [func (x Fix64) String() string] *)
Definition Fix64_String (x : Fix64) : string :=
  if x <? 0 then
    let x := neg64 x in
    "-" +:+ fmt_d (int64 (quo64 x 65536)) +:+ ":"
    +:+ fmt_05d (int64 (rem64 x 65536))
  else
    fmt_d (int64 (quo64 x 65536)) +:+ ":" +:+ fmt_05d (int64 (rem64 x 65536)).

(** A check that holds for [k] consecutive integers from [z] on. *)
Fixpoint holds_from (check : Z -> bool) (k : nat) (z : Z) : bool :=
  match k with
  | O => true
  | S k => check z && holds_from check k (z + 1)
  end.

(** The number of characters of a string before its first colon. *)
Fixpoint before_colon (s : string) : nat :=
  match s with
  | EmptyString => 0
  | String c s' => if Ascii.eqb c ":" then 0 else S (before_colon s')
  end.

(** The characters of a signed decimal numeral. *)
Definition numeral_char (c : ascii) : bool :=
  existsb (Ascii.eqb c) (list_ascii_of_string "-0123456789").

Definition numeral (s : string) : bool :=
  forallb numeral_char (list_ascii_of_string s).

(** [func (p Point) String() string] *)
Definition Point_String (p : Point) : string :=
  "(" +:+ Fix32_String (X p) +:+ ", " +:+ Fix32_String (Y p) +:+ ")".

End geom.

(** ** Outcomes of a call *)

Module outcome.

(** A call returns a value or panics. [NoFuel] is the model's own third
    outcome: a loop of the model that was given too few iterations. The
    totality lemmas below show that no embedded function ever yields it. *)
Inductive Result (A : Type) : Type :=
| Ok (a : A)
| Panic (msg : string)
| NoFuel.
Arguments Ok {A} a.
Arguments Panic {A} msg.
Arguments NoFuel {A}.

Definition bind {A B : Type} (m : Result A) (k : A -> Result B) : Result B :=
  match m with
  | Ok a => k a
  | Panic msg => Panic msg
  | NoFuel => NoFuel
  end.

#[global] Instance Result_ret : MRet Result := @Ok.
#[global] Instance Result_bind : MBind Result := fun A B k m => bind m k.

(** The values the Go run time and the package panic with. *)
Definition index_out_of_range : string := "runtime error: index out of range".
Definition slice_out_of_range : string := "runtime error: slice bounds out of range".
Definition bad_path : string := "freetype/raster: bad path".

End outcome.

(** ** Package raster: the Path container *)

Module raster.
Import mach geom outcome.

(** [type Adder interface]: anything that accumulates points on a curve.
    Each method acts on the receiver's state and may panic. *)
Class Adder (T : Type) : Type := {
  Start : Point -> T -> Result T;
  Add1 : Point -> T -> Result T;
  Add2 : Point -> Point -> T -> Result T;
  Add3 : Point -> Point -> Point -> T -> Result T
}.

(** [type Path []geom.Fix32]. A slice is a window on a backing array:
    [elems] are the [len] elements the slice shows, [spare] the elements
    of the backing array after them, up to the capacity. *)
Record Path : Type := mkPath { elems : list Fix32; spare : list Fix32 }.

Definition len (p : Path) : nat := length (elems p).
Definition cap (p : Path) : nat := (length (elems p) + length (spare p))%nat.

(** The nil slice, the zero value of [Path]. *)
Definition nil_Path : Path := mkPath [] [].

(** [l[i]], which panics out of range. *)
Definition index (l : list Fix32) (i : Z) : Result Fix32 :=
  if i <? 0 then Panic index_out_of_range
  else match l !! Z.to_nat i with
       | Some v => Ok v
       | None => Panic index_out_of_range
       end.

(** [p[lo:hi]] as a list of values: the bounds are checked against the
    capacity, so the window may reach into [spare]. *)
Definition slice (p : Path) (lo hi : Z) : Result (list Fix32) :=
  if (0 <=? lo) && (lo <=? hi) && (hi <=? Z.of_nat (cap p)) then
    Ok (take (Z.to_nat (hi - lo)) (drop (Z.to_nat lo) (elems p ++ spare p)))
  else Panic slice_out_of_range.

(** [l[i] = v], which panics out of range. *)
Definition store (i : nat) (v : Fix32) (p : Path) : Result Path :=
  if (i <? len p)%nat then Ok (mkPath (<[i:=v]> (elems p)) (spare p))
  else Panic index_out_of_range.

(** The builtin [copy(dst, src)]: the contents of [dst] afterwards. *)
Definition copy (dst src : list Fix32) : list Fix32 :=
  take (length dst) src ++ drop (length src) dst.

(** [fmt.Sprint] of a [[]geom.Fix32]: the elements, each printed by its
    [String] method, separated by spaces and enclosed in brackets. *)
Definition Sprint (l : list Fix32) : string :=
  "[" +:+ String.concat " " (map Fix32_String l) +:+ "]".

(** One iteration of the loop of [Path.String], entered with [i < len(p)]:
    the next index and the extended string. *)
Definition String_body (p : Path) (i : Z) (s : string) : Result (Z * string) :=
  let s := if negb (i =? 0) then s +:+ " " else s in
  t ← index (elems p) i;
  if t =? 0 then
    l ← slice p (i + 1) (i + 3); Ok (i + 4, s +:+ "S0" +:+ Sprint l)
  else if t =? 1 then
    l ← slice p (i + 1) (i + 3); Ok (i + 4, s +:+ "A1" +:+ Sprint l)
  else if t =? 2 then
    l ← slice p (i + 1) (i + 5); Ok (i + 6, s +:+ "A2" +:+ Sprint l)
  else if t =? 3 then
    l ← slice p (i + 1) (i + 7); Ok (i + 8, s +:+ "A3" +:+ Sprint l)
  else Panic bad_path.

(** [for i := 0; i < len(p); { ... }] *)
Fixpoint String_loop (fuel : nat) (p : Path) (i : Z) (s : string) : Result string :=
  if i <? Z.of_nat (len p) then
    match fuel with
    | O => NoFuel
    | S fuel => '(i, s) ← String_body p i s; String_loop fuel p i s
    end
  else Ok s.

(** [func (p Path) String() string] *)
Definition Path_String (p : Path) : Result string :=
  String_loop (len p) p 0 "".

(** [func (p *Path) grow(n int)] *)
Definition grow (n : nat) (p : Path) : Path :=
  let n := (n + len p)%nat in
  if (cap p <? n)%nat then
    (* [make([]geom.Fix32, n, 2*n+8)], then the old elements copied in *)
    mkPath (copy (replicate n 0) (elems p)) (replicate (2 * n + 8 - n) 0)
  else
    (* the same array, resliced to [0:n] *)
    mkPath (take n (elems p ++ spare p)) (drop n (elems p ++ spare p)).

(** [func (p *Path) Clear()]: reslicing to [0:0] keeps the backing array. *)
Definition Clear (p : Path) : Path :=
  mkPath [] (elems p ++ spare p).

(** [func (p *Path) Start(a geom.Point)] *)
Definition Path_Start (a : Point) (p : Path) : Result Path :=
  let n := len p in
  let p := grow 4 p in
  p ← store n 0 p;
  p ← store (n + 1) (X a) p;
  p ← store (n + 2) (Y a) p;
  store (n + 3) 0 p.

(** [func (p *Path) Add1(b geom.Point)] *)
Definition Path_Add1 (b : Point) (p : Path) : Result Path :=
  let n := len p in
  let p := grow 4 p in
  p ← store n 1 p;
  p ← store (n + 1) (X b) p;
  p ← store (n + 2) (Y b) p;
  store (n + 3) 1 p.

(** [func (p *Path) Add2(b, c geom.Point)] *)
Definition Path_Add2 (b c : Point) (p : Path) : Result Path :=
  let n := len p in
  let p := grow 6 p in
  p ← store n 2 p;
  p ← store (n + 1) (X b) p;
  p ← store (n + 2) (Y b) p;
  p ← store (n + 3) (X c) p;
  p ← store (n + 4) (Y c) p;
  store (n + 5) 2 p.

(** [func (p *Path) Add3(b, c, d geom.Point)] *)
Definition Path_Add3 (b c d : Point) (p : Path) : Result Path :=
  let n := len p in
  let p := grow 8 p in
  p ← store n 3 p;
  p ← store (n + 1) (X b) p;
  p ← store (n + 2) (Y b) p;
  p ← store (n + 3) (X c) p;
  p ← store (n + 4) (Y c) p;
  p ← store (n + 5) (X d) p;
  p ← store (n + 6) (Y d) p;
  store (n + 7) 3 p.

(** [func (p *Path) AddPath(q Path)]: the builtin copy writes [q]
    through the window [n:n+m] of [p], whose bounds are checked against
    the capacity. *)
Definition Path_AddPath (q : Path) (p : Path) : Result Path :=
  let n := len p in
  let m := len q in
  let p := grow m p in
  if (n + m <=? cap p)%nat then
    let whole := elems p ++ spare p in
    let whole := take n whole ++ copy (take m (drop n whole)) (elems q)
                 ++ drop (n + m) whole in
    Ok (mkPath (take (len p) whole) (drop (len p) whole))
  else Panic slice_out_of_range.

(** [func (p Path) firstPoint() geom.Point] *)
Definition firstPoint (p : Path) : Result Point :=
  x ← index (elems p) 1;
  y ← index (elems p) 2;
  Ok (Pt x y).

(** [func (p Path) lastPoint() geom.Point] *)
Definition lastPoint (p : Path) : Result Point :=
  x ← index (elems p) (Z.of_nat (len p) - 3);
  y ← index (elems p) (Z.of_nat (len p) - 2);
  Ok (Pt x y).

(** The Path container is itself an [Adder]. *)
#[global] Instance Path_Adder : Adder Path := {
  Start := Path_Start;
  Add1 := Path_Add1;
  Add2 := Path_Add2;
  Add3 := Path_Add3
}.

(** An [Adder] that only records the calls it receives, in order. *)
Inductive Call : Type :=
| CStart (a : Point)
| CAdd1 (b : Point)
| CAdd2 (b c : Point)
| CAdd3 (b c d : Point).

#[global] Instance Recorder : Adder (list Call) := {
  Start := fun a log => Ok (log ++ [CStart a]);
  Add1 := fun b log => Ok (log ++ [CAdd1 b]);
  Add2 := fun b c log => Ok (log ++ [CAdd2 b c]);
  Add3 := fun b c d log => Ok (log ++ [CAdd3 b c d])
}.

Section reversed.
Context {T : Type} `{Adder T}.

(** One iteration of the loop of [addPathReversed] at tail index [i]:
    [None] when the iteration returns, otherwise the next tail index
    and the state of the target. *)
Definition addPathReversed_body (q : Path) (i : Z) (p : T)
  : Result (option (Z * T)) :=
  t ← index (elems q) i;
  if t =? 0 then Ok None
  else if t =? 1 then
    let i := i - 4 in
    x ← index (elems q) (i - 2);
    y ← index (elems q) (i - 1);
    p ← Add1 (Pt x y) p;
    Ok (Some (i, p))
  else if t =? 2 then
    let i := i - 6 in
    bx ← index (elems q) (i + 2);
    by_ ← index (elems q) (i + 3);
    cx ← index (elems q) (i - 2);
    cy ← index (elems q) (i - 1);
    p ← Add2 (Pt bx by_) (Pt cx cy) p;
    Ok (Some (i, p))
  else if t =? 3 then
    let i := i - 8 in
    bx ← index (elems q) (i + 4);
    by_ ← index (elems q) (i + 5);
    cx ← index (elems q) (i + 2);
    cy ← index (elems q) (i + 3);
    dx ← index (elems q) (i - 2);
    dy ← index (elems q) (i - 1);
    p ← Add3 (Pt bx by_) (Pt cx cy) (Pt dx dy) p;
    Ok (Some (i, p))
  else Panic bad_path.

(** [for { switch q[i] { ... } }] *)
Fixpoint addPathReversed_loop (fuel : nat) (q : Path) (i : Z) (p : T)
  : Result T :=
  match fuel with
  | O => NoFuel
  | S fuel =>
    r ← addPathReversed_body q i p;
    match r with
    | None => Ok p
    | Some (i, p) => addPathReversed_loop fuel q i p
    end
  end.

(** [func addPathReversed(p Adder, q Path)] *)
Definition addPathReversed (p : T) (q : Path) : Result T :=
  if (len q =? 0)%nat then Ok p
  else addPathReversed_loop (len q) q (Z.of_nat (len q) - 1) p.

(** The tail indices at which the loop of [addPathReversed] reads a
    tag, in the order of the walk. *)
Fixpoint visited (fuel : nat) (q : Path) (i : Z) (p : T) : list Z :=
  match fuel with
  | O => []
  | S fuel =>
    i :: match addPathReversed_body q i p with
         | Ok (Some (i', p')) => visited fuel q i' p'
         | _ => []
         end
  end.

End reversed.

End raster.

(** ** The record stream, as the design describes it *)

Module encoding.
Import geom outcome raster.

(** The segments that can follow the start of a contour. *)
Inductive Seg : Type :=
| Line (b : Point)
| Quad (b c : Point)
| Cubic (b c d : Point).

(** A contour: its start point and its segments. *)
Record Contour : Type := mkContour { c_start : Point; c_segs : list Seg }.

(** A curve record: the start of a contour or one of its segments. *)
Inductive Rec : Type :=
| RStart (a : Point)
| RSeg (s : Seg).

Definition seg_tag (s : Seg) : Fix32 :=
  match s with Line _ => 1 | Quad _ _ => 2 | Cubic _ _ _ => 3 end.

Definition seg_len (s : Seg) : Z :=
  match s with Line _ => 4 | Quad _ _ => 6 | Cubic _ _ _ => 8 end.

Definition rec_tag (r : Rec) : Fix32 :=
  match r with RStart _ => 0 | RSeg s => seg_tag s end.

Definition rec_len (r : Rec) : Z :=
  match r with RStart _ => 4 | RSeg s => seg_len s end.

(** The coordinates a record carries between its two tags. *)
Definition seg_payload (s : Seg) : list Fix32 :=
  match s with
  | Line b => [X b; Y b]
  | Quad b c => [X b; Y b; X c; Y c]
  | Cubic b c d => [X b; Y b; X c; Y c; X d; Y d]
  end.

Definition rec_payload (r : Rec) : list Fix32 :=
  match r with RStart a => [X a; Y a] | RSeg s => seg_payload s end.

(** A record is its payload framed by its tag on both sides. *)
Definition enc_rec (r : Rec) : list Fix32 :=
  rec_tag r :: rec_payload r ++ [rec_tag r].

Definition enc_recs (rs : list Rec) : list Fix32 := flat_map enc_rec rs.

Definition enc_start (a : Point) : list Fix32 := enc_rec (RStart a).
Definition enc_seg (s : Seg) : list Fix32 := enc_rec (RSeg s).
Definition enc_segs (ss : list Seg) : list Fix32 := flat_map enc_seg ss.

Definition enc_contour (c : Contour) : list Fix32 :=
  enc_start (c_start c) ++ enc_segs (c_segs c).

Definition enc_path (cs : list Contour) : list Fix32 :=
  flat_map enc_contour cs.

(** The records of a contour and of a sequence of contours. *)
Definition contour_recs (c : Contour) : list Rec :=
  RStart (c_start c) :: map RSeg (c_segs c).

Definition path_recs (cs : list Contour) : list Rec :=
  flat_map contour_recs cs.

(** A buffer is well formed when it is the concatenation of zero or more
    contours. *)
Definition well_formed (l : list Fix32) : Prop :=
  exists cs : list Contour, l = enc_path cs.

(** The token [Path.String] prints for a record. *)
Definition rec_name (r : Rec) : string :=
  match r with
  | RStart _ => "S0"
  | RSeg (Line _) => "A1"
  | RSeg (Quad _ _) => "A2"
  | RSeg (Cubic _ _ _) => "A3"
  end.

Definition token (r : Rec) : string :=
  rec_name r +:+ Sprint (rec_payload r).

(** What the loop of [Path.String] accumulates over a run of records:
    the tokens, each but the first after a space. *)
Fixpoint decode_acc (first : bool) (s : string) (rs : list Rec) : string :=
  match rs with
  | [] => s
  | r :: rs => decode_acc false ((if first then s else s +:+ " ") +:+ token r) rs
  end.

(** A scalar that is none of the four tags. *)
Definition bad_tag (t : Fix32) : Prop := t <> 0 /\ t <> 1 /\ t <> 2 /\ t <> 3.

(** The point a segment ends at. *)
Definition seg_end (s : Seg) : Point :=
  match s with Line b => b | Quad _ c => c | Cubic _ _ d => d end.

(** The call that retraces segment [s] back to the point [a] it set out
    from. *)
Definition mirror (s : Seg) (a : Point) : Call :=
  match s with
  | Line _ => CAdd1 a
  | Quad b _ => CAdd2 b a
  | Cubic b c _ => CAdd3 c b a
  end.

(** The calls that retrace, last segment first, the segments [ss] of a
    contour that set out from [a]. *)
Fixpoint reversed_calls (a : Point) (ss : list Seg) : list Call :=
  match ss with
  | [] => []
  | s :: ss => reversed_calls (seg_end s) ss ++ [mirror s a]
  end.

(** The index of the trailing tag of each of the records of lengths
    [lens] laid out from offset [off]. *)
Fixpoint tail_indices (off : Z) (lens : list Z) : list Z :=
  match lens with
  | [] => []
  | n :: lens => (off + n - 1) :: tail_indices (off + n) lens
  end.

(** The distances between consecutive entries of a list of indices. *)
Fixpoint gaps (l : list Z) : list Z :=
  match l with
  | [] => []
  | i :: l' => match l' with
               | [] => []
               | j :: _ => (j - i) :: gaps l'
               end
  end.

Section replay.
Context {T : Type} `{Adder T}.

(** One recorded call, made on a target. *)
Definition call (c : Call) (p : T) : Result T :=
  match c with
  | CStart a => Start a p
  | CAdd1 b => Add1 b p
  | CAdd2 b c => Add2 b c p
  | CAdd3 b c d => Add3 b c d p
  end.

(** A sequence of recorded calls, made in order on a target. *)
Fixpoint replay (cs : list Call) (p : T) : Result T :=
  match cs with
  | [] => Ok p
  | c :: cs => p ← call c p; replay cs p
  end.
End replay.

(** The record a builder call appends. *)
Definition call_rec (c : Call) : Rec :=
  match c with
  | CStart a => RStart a
  | CAdd1 b => RSeg (Line b)
  | CAdd2 b c => RSeg (Quad b c)
  | CAdd3 b c d => RSeg (Cubic b c d)
  end.

(** The call that appends a segment. *)
Definition seg_call (s : Seg) : Call :=
  match s with
  | Line b => CAdd1 b
  | Quad b c => CAdd2 b c
  | Cubic b c d => CAdd3 b c d
  end.

(** The point a contour that sets out from [a] with segments [ss] ends
    at. *)
Fixpoint end_point (a : Point) (ss : list Seg) : Point :=
  match ss with
  | [] => a
  | s :: ss => end_point (seg_end s) ss
  end.

(** The segment that retraces segment [s] back to the point [a] it set
    out from, and the segments that retrace a contour, last first. *)
Definition mirror_seg (s : Seg) (a : Point) : Seg :=
  match s with
  | Line _ => Line a
  | Quad b _ => Quad b a
  | Cubic b c _ => Cubic c b a
  end.

Fixpoint reversed_segs (a : Point) (ss : list Seg) : list Seg :=
  match ss with
  | [] => []
  | s :: ss => reversed_segs (seg_end s) ss ++ [mirror_seg s a]
  end.

Definition rev_contour (c : Contour) : Contour :=
  mkContour (end_point (c_start c) (c_segs c))
            (reversed_segs (c_start c) (c_segs c)).

(** A record whose closing scalar is [t] instead of its tag. *)
Definition enc_rec_closing (rt : Rec * Fix32) : list Fix32 :=
  rec_tag (fst rt) :: rec_payload (fst rt) ++ [snd rt].

End encoding.

(** ** The demonstration program: feeding outlines to an [Adder] *)

Module main_demo.
Import mach geom outcome raster.

(** [type node struct { x, y, degree int }], with [int] taken to be 64
    bits wide. *)
Record node : Type := mkNode { x : Z; y : Z; degree : Z }.

(** [var outside], the outer outline of the glyph. *)
Definition outside : list node :=
  [mkNode 414 489 1; mkNode 336 274 2; mkNode 327 250 0; mkNode 322 226 2;
   mkNode 317 203 0; mkNode 317 186 2; mkNode 317 134 0; mkNode 350 110 2;
   mkNode 384 86 0; mkNode 453 86 1; mkNode 500 86 1; mkNode 500 0 1;
   mkNode 0 0 1; mkNode 0 86 1; mkNode 39 86 2; mkNode 69 86 0;
   mkNode 90 92 2; mkNode 111 99 0; mkNode 128 117 2; mkNode 145 135 0;
   mkNode 160 166 2; mkNode 176 197 0; mkNode 195 246 1; mkNode 649 1462 1;
   mkNode 809 1462 1; mkNode 1272 195 2; mkNode 1284 163 0;
   mkNode 1296 142 2; mkNode 1309 121 0; mkNode 1326 108 2; mkNode 1343 96 0;
   mkNode 1365 91 2; mkNode 1387 86 0; mkNode 1417 86 1; mkNode 1444 86 1;
   mkNode 1444 0 1; mkNode 881 0 1; mkNode 881 86 1; mkNode 928 86 2;
   mkNode 1051 86 0; mkNode 1051 184 2; mkNode 1051 201 0; mkNode 1046 219 2;
   mkNode 1042 237 0; mkNode 1034 260 1; mkNode 952 489 1;
   mkNode 414 489 (-1)].

(** [var inside], the inner outline of the glyph. *)
Definition inside : list node :=
  [mkNode 686 1274 1; mkNode 453 592 1; mkNode 915 592 1;
   mkNode 686 1274 (-1)].

(** [func p(n node) raster.Point] *)
Definition p (n : node) : Point :=
  let x := add64 20 (quo64 (x n) 4) in
  let y := sub64 380 (quo64 (y n) 4) in
  mkPoint (int32 (mul64 x 256)) (int32 (mul64 y 256)).

(** [ns[i]], which panics out of range. *)
Definition node_at (ns : list node) (i : Z) : Result node :=
  if i <? 0 then Panic index_out_of_range
  else match ns !! Z.to_nat i with
       | Some n => Ok n
       | None => Panic index_out_of_range
       end.

Definition bad_degree : string := "bad degree".

Section contour.
Context {T : Type} `{Adder T}.

(** One iteration of the loop of [contour] at node index [i]: [None]
    when the iteration returns, otherwise the next index and the state of
    the target. *)
Definition contour_body (ns : list node) (i : Z) (r : T)
  : Result (option (Z * T)) :=
  n ← node_at ns i;
  if degree n =? -1 then Ok None
  else if degree n =? 1 then
    let i := i + 1 in
    b ← node_at ns i;
    r ← Add1 (p b) r;
    Ok (Some (i, r))
  else if degree n =? 2 then
    let i := i + 2 in
    b ← node_at ns (i - 1);
    c ← node_at ns i;
    r ← Add2 (p b) (p c) r;
    Ok (Some (i, r))
  else Panic bad_degree.

(** [for { switch ns[i].degree { ... } }] *)
Fixpoint contour_loop (fuel : nat) (ns : list node) (i : Z) (r : T)
  : Result T :=
  match fuel with
  | O => NoFuel
  | S fuel =>
    o ← contour_body ns i r;
    match o with
    | None => Ok r
    | Some (i, r) => contour_loop fuel ns i r
    end
  end.

(** [func contour(r *raster.Rasterizer, ns []node)], for any target that
    has the methods of an [Adder]. *)
Definition contour (r : T) (ns : list node) : Result T :=
  if (length ns =? 0)%nat then Ok r
  else
    n ← node_at ns 0;
    r ← Start (p n) r;
    contour_loop (length ns) ns 0 r.

End contour.

End main_demo.

(** * Slices that share a backing array *)

(** In the definitions of [raster] a Path is a value of its own. The
    slices of the program can share a backing array, so that a write
    through one shows through another. Here the arrays live in a heap and
    a slice points into one of them; [grow] and [AddPath] are the same
    functions, on this representation. *)
Module shared.
Import mach geom outcome.

(** A slice: the array it points into, the offset of its first element
    there, its length and its capacity. *)
Record Slice : Type :=
  mkSlice { s_arr : nat; s_off : nat; s_len : nat; s_cap : nat }.

(** The arrays allocated so far; an array is named by its position. *)
Abbreviation Heap := (list (list Fix32)) (only parsing).

Definition array (h : Heap) (a : nat) : list Fix32 := default [] (h !! a).

(** The elements a slice shows. *)
Definition view (h : Heap) (s : Slice) : list Fix32 :=
  take (s_len s) (drop (s_off s) (array h (s_arr s))).

(** The window of a slice, up to its capacity, lies within its array. *)
Definition valid (h : Heap) (s : Slice) : Prop :=
  (s_len s <= s_cap s)%nat /\
  (s_off s + s_cap s <= length (array h (s_arr s)))%nat.

(** The elements [l] written into array [a] from position [pos] on. *)
Definition write (h : Heap) (a pos : nat) (l : list Fix32) : Heap :=
  <[a := take pos (array h a) ++ l ++ drop (pos + length l) (array h a)]> h.

(** [func (p *Path) grow(n int)] *)
Definition grow (n : nat) (h : Heap) (p : Slice) : Heap * Slice :=
  let n := (n + s_len p)%nat in
  if (s_cap p <? n)%nat then
    (* [make([]geom.Fix32, n, 2*n+8)] is a new array, and the old
       elements are copied to its front *)
    let old := view h p in
    (h ++ [raster.copy (replicate n 0) old ++ replicate (2 * n + 8 - n) 0],
     mkSlice (length h) 0 n (2 * n + 8))
  else
    (* the same array, resliced to [0:n] *)
    (h, mkSlice (s_arr p) (s_off p) n (s_cap p)).

(** [func (p *Path) Clear()] *)
Definition Clear (p : Slice) : Slice :=
  mkSlice (s_arr p) (s_off p) 0 (s_cap p).

(** [func (p *Path) AddPath(q Path)]. The builtin copy reads its source
    before it writes, also when the two windows overlap. *)
Definition AddPath (q : Slice) (h : Heap) (p : Slice) : Result (Heap * Slice) :=
  let n := s_len p in
  let m := s_len q in
  let '(h, p) := grow m h p in
  if (n + m <=? s_cap p)%nat then
    let dst := take m (drop (s_off p + n) (array h (s_arr p))) in
    let src := view h q in
    Ok (write h (s_arr p) (s_off p + n) (raster.copy dst src), p)
  else Panic slice_out_of_range.

End shared.

Import mach geom outcome raster encoding.
(** * Properties *)

(** ** Machine integers *)

Section wrap_facts.

Lemma wrap_small w z :
  0 < w -> - 2 ^ (w - 1) <= z < 2 ^ (w - 1) -> wrap w z = z.
Proof.
  intros Hw Hz. unfold wrap.
  assert (2 ^ w = 2 * 2 ^ (w - 1)) as ->.
  { rewrite <- Z.pow_succ_r by lia. f_equal. lia. }
  rewrite Z.mod_small; lia.
Qed.

Lemma wrap_range w z : 0 < w -> - 2 ^ (w - 1) <= wrap w z < 2 ^ (w - 1).
Proof.
  intros Hw. unfold wrap.
  assert (2 ^ w = 2 * 2 ^ (w - 1)) as Hp.
  { rewrite <- Z.pow_succ_r by lia. f_equal. lia. }
  assert (0 < 2 ^ (w - 1)) by (apply Z.pow_pos_nonneg; lia).
  pose proof (Z.mod_pos_bound (z + 2 ^ (w - 1)) (2 ^ w)). lia.
Qed.

Lemma is_int32_bounds z : is_int32 z <-> -2147483648 <= z <= 2147483647.
Proof. reflexivity. Qed.

Lemma is_int32b_spec z : is_int32b z = true <-> is_int32 z.
Proof. unfold is_int32b, is_int32. rewrite andb_true_iff, !Z.leb_le. tauto. Qed.

Lemma int32_id z : is_int32 z -> int32 z = z.
Proof.
  rewrite is_int32_bounds. intros Hz.
  apply wrap_small; [lia|]. change (2 ^ (32 - 1)) with 2147483648. lia.
Qed.

Lemma int32_is_int32 z : is_int32 (int32 z).
Proof.
  rewrite is_int32_bounds. pose proof (wrap_range 32 z) as Hr.
  change (2 ^ (32 - 1)) with 2147483648 in Hr. unfold int32. lia.
Qed.

Lemma int64_id z :
  -9223372036854775808 <= z < 9223372036854775808 -> int64 z = z.
Proof. intros Hz. apply wrap_small; [lia|exact Hz]. Qed.

(** Negation wraps only at the least value, which it leaves in place. *)
Lemma neg32_min : neg32 min_int32 = min_int32.
Proof. reflexivity. Qed.

Lemma neg32_opp a : is_int32 a -> a <> min_int32 -> neg32 a = - a.
Proof.
  rewrite is_int32_bounds. intros Ha Hm. apply int32_id.
  rewrite is_int32_bounds. change min_int32 with (-2147483648) in Hm. lia.
Qed.

Lemma neg32_involutive a : is_int32 a -> neg32 (neg32 a) = a.
Proof.
  intros Ha. destruct (Z.eq_dec a min_int32) as [->|Hm].
  - reflexivity.
  - rewrite (neg32_opp a) by assumption.
    rewrite is_int32_bounds in Ha. change min_int32 with (-2147483648) in Hm.
    rewrite neg32_opp; [lia| |].
    + rewrite is_int32_bounds. lia.
    + change min_int32 with (-2147483648). lia.
Qed.

End wrap_facts.

(** ** Package geom *)

(** What [MaxAbs] computes away from the least value: the larger of the
    two magnitudes. *)
Lemma MaxAbs_max_abs a b :
  is_int32 a -> is_int32 b -> a <> min_int32 -> b <> min_int32 ->
  MaxAbs a b = Z.max (Z.abs a) (Z.abs b).
Proof.
  intros Ha Hb Hma Hmb. unfold MaxAbs.
  destruct (Z.ltb_spec a 0), (Z.ltb_spec b 0);
    rewrite ?neg32_opp by assumption;
    match goal with |- context [?x <? ?y] => destruct (Z.ltb_spec x y) end; lia.
Qed.

(** [MaxAbs] does not depend on the order of its arguments. *)
Lemma MaxAbs_comm a b : MaxAbs a b = MaxAbs b a.
Proof.
  unfold MaxAbs.
  set (a' := if a <? 0 then neg32 a else a).
  set (b' := if b <? 0 then neg32 b else b).
  destruct (Z.ltb_spec a' b'), (Z.ltb_spec b' a'); lia.
Qed.

(** At the least value the negation wraps and the result is not a
    magnitude. *)
Example MaxAbs_min_int32 :
  MaxAbs min_int32 0 = 0 /\ MaxAbs min_int32 min_int32 = min_int32.
Proof. split; reflexivity. Qed.

(** C6 as stated does not hold: on the tie [|3| = |-3|] the result
    is 3, which is the first argument and not the second. *)
Lemma MaxAbs_tie_returns_magnitude_not_second :
  is_int32 3 /\ is_int32 (-3) /\ Z.abs 3 = Z.abs (-3) /\
  MaxAbs 3 (-3) = 3 /\ MaxAbs 3 (-3) <> -3 /\
  MaxAbs (-5) 3 = 5 /\ MaxAbs (-5) 3 <> -5 /\ MaxAbs (-5) 3 <> 3.
Proof. vm_compute. repeat split; congruence. Qed.

(** C6 (amended): for scalars other than the least value, [MaxAbs a b] is
    the larger of the magnitudes [|a|] and [|b|], on a tie the common
    magnitude (which is [b] when [b] is not negative); it is symmetric,
    and [MaxAbs a a] is [|a|]. *)
Theorem MaxAbs_larger_magnitude a b :
  is_int32 a -> is_int32 b -> a <> min_int32 -> b <> min_int32 ->
  MaxAbs a b = Z.max (Z.abs a) (Z.abs b) /\
  (Z.abs b < Z.abs a -> MaxAbs a b = Z.abs a) /\
  (Z.abs a < Z.abs b -> MaxAbs a b = Z.abs b) /\
  (Z.abs a = Z.abs b -> MaxAbs a b = Z.abs b /\ (0 <= b -> MaxAbs a b = b)) /\
  (Z.abs a <> Z.abs b -> MaxAbs a b = MaxAbs b a) /\
  MaxAbs a a = Z.abs a.
Proof.
  intros Ha Hb Hma Hmb.
  pose proof (MaxAbs_max_abs a b Ha Hb Hma Hmb) as Hab.
  pose proof (MaxAbs_max_abs a a Ha Ha Hma Hma) as Haa.
  repeat split; try lia.
  intros _. apply MaxAbs_comm.
Qed.

Lemma MaxAbs_larger_magnitude_witness :
  MaxAbs (-5) 3 = Z.max (Z.abs (-5)) (Z.abs 3) /\ MaxAbs (-5) (-5) = Z.abs (-5).
Proof.
  assert (H1 : is_int32 (-5)) by (vm_compute; split; congruence).
  assert (H2 : is_int32 3) by (vm_compute; split; congruence).
  assert (H3 : -5 <> min_int32) by (vm_compute; congruence).
  assert (H4 : 3 <> min_int32) by (vm_compute; congruence).
  pose proof (MaxAbs_larger_magnitude (-5) 3 H1 H2 H3 H4) as H.
  split; [apply H | apply H].
Defined.

(** When the product fits 32 bits, [Mul] is the exact truncated quotient. *)
Lemma Mul_exact p k :
  is_int32 (X p * k) -> is_int32 (Y p * k) ->
  Mul p k = mkPoint (Z.quot (X p * k) 256) (Z.quot (Y p * k) 256).
Proof.
  intros Hx Hy. unfold Mul, quo32, mul32.
  rewrite (int32_id _ Hx), (int32_id _ Hy).
  assert (Hq : forall z, is_int32 z -> is_int32 (Z.quot z 256)).
  { intros z. rewrite !is_int32_bounds. intros Hz.
    pose proof (Z.quot_rem' z 256). pose proof (Z.rem_bound_abs z 256).
    destruct (Z_le_gt_dec 0 z).
    - pose proof (Z.quot_pos z 256). lia.
    - pose proof (Z.quot_opp_l z 256). pose proof (Z.quot_pos (- z) 256). lia. }
  rewrite !int32_id by auto. reflexivity.
Qed.

(** C5: the product in [Mul] is a 32-bit product and wraps before the
    division. Scaling the point (32768.0, 0) by 1.0 yields (-32768.0, 0),
    although the operands and the exact result [p.X*k/256] are all
    representable. *)
Theorem Mul_product_wraps_before_division :
  let p := mkPoint 8388608 0 in
  let k := 256 in
  is_Point p /\ is_int32 k /\
  is_int32 (Z.quot (X p * k) 256) /\ Z.quot (X p * k) 256 = 8388608 /\
  Mul p k = mkPoint (-8388608) 0 /\
  X (Mul p k) <> Z.quot (X p * k) 256.
Proof. vm_compute. repeat split; congruence. Qed.

(** C8: negating twice is the identity and two quarter turns are a
    negation, exactly. *)
Theorem Neg_Neg_and_Rot90CW_twice p :
  is_Point p ->
  Neg (Neg p) = p /\ Rot90CW (Rot90CW p) = Neg p.
Proof.
  destruct p as [x y]. intros [Hx Hy]. cbn in Hx, Hy.
  unfold Neg, Rot90CW. cbn [X Y]. split.
  - rewrite !neg32_involutive by assumption. reflexivity.
  - reflexivity.
Qed.

Lemma Neg_Neg_and_Rot90CW_twice_witness :
  let p := mkPoint (-768) 320 in
  Neg (Neg p) = p /\ Rot90CW (Rot90CW p) = Neg p.
Proof.
  apply (Neg_Neg_and_Rot90CW_twice (mkPoint (-768) 320)).
  split; vm_compute; split; congruence.
Defined.

(** *** The eighth-turn rotation *)

Lemma quot256_bounds a q :
  Z.quot a 256 = q -> 256 * q - 255 <= a <= 256 * q + 255.
Proof.
  intros <-. pose proof (Z.quot_rem' a 256).
  pose proof (Z.rem_bound_abs a 256). lia.
Qed.

(** Nothing wraps in [Rot45CW] as long as the result fits 32 bits. *)
Lemma Rot45CW_exact x y :
  is_int32 x -> is_int32 y ->
  is_int32 (fst (rot45 x y)) -> is_int32 (snd (rot45 x y)) ->
  Rot45CW (mkPoint x y) = mkPoint (fst (rot45 x y)) (snd (rot45 x y)).
Proof.
  rewrite !is_int32_bounds. unfold rot45. cbn [fst snd].
  intros Hx Hy Hqx Hqy.
  unfold Rot45CW, quo64, mul64, sub64, add64. cbn [X Y].
  rewrite (int64_id x), (int64_id y) by lia.
  rewrite (int64_id (x - y)), (int64_id (x + y)) by lia.
  rewrite (int64_id ((x - y) * 181)), (int64_id ((x + y) * 181)) by lia.
  rewrite !(int64_id (Z.quot _ 256)) by lia.
  rewrite !int32_id by (rewrite is_int32_bounds; lia).
  reflexivity.
Qed.

(** C7 as stated does not hold: eight turns take (10, 0) to (5, 0),
    five units away. *)
Lemma Rot45CW_eight_times_off_by_five :
  is_Point (mkPoint 10 0) /\
  Rot45CW_times 8 (mkPoint 10 0) = mkPoint 5 0 /\
  ~ Z.abs (X (Rot45CW_times 8 (mkPoint 10 0)) - X (mkPoint 10 0)) <= 1.
Proof. vm_compute. repeat split; congruence. Qed.

(** Eight exact eighth turns, each followed by a truncation: every
    intermediate point fits 32 bits, and the last one is near the first. *)
Lemma rot45_eight_times x0 y0 x1 y1 x2 y2 x3 y3 x4 y4 x5 y5 x6 y6 x7 y7 x8 y8 :
  Z.abs x0 <= 1073741824 -> Z.abs y0 <= 1073741824 ->
  rot45 x0 y0 = (x1, y1) -> rot45 x1 y1 = (x2, y2) ->
  rot45 x2 y2 = (x3, y3) -> rot45 x3 y3 = (x4, y4) ->
  rot45 x4 y4 = (x5, y5) -> rot45 x5 y5 = (x6, y6) ->
  rot45 x6 y6 = (x7, y7) -> rot45 x7 y7 = (x8, y8) ->
  Forall is_int32 [x0; y0; x1; y1; x2; y2; x3; y3; x4; y4; x5; y5;
                   x6; y6; x7; y7; x8; y8] /\
  1024 * Z.abs (x8 - x0) <= Z.abs x0 + 10240 /\
  1024 * Z.abs (y8 - y0) <= Z.abs y0 + 10240.
Proof.
  unfold rot45. intros Hx0 Hy0 E1 E2 E3 E4 E5 E6 E7 E8.
  repeat match goal with
         | E : (_, _) = (_, _) |- _ =>
           let Ex := fresh "Ex" in
           let Ey := fresh "Ey" in
           injection E as Ex Ey;
           apply quot256_bounds in Ex; apply quot256_bounds in Ey
         end.
  split; [ | split; lia ].
  repeat (apply Forall_cons; split; [rewrite is_int32_bounds; lia | ]).
  apply Forall_nil. exact I.
Qed.

(** C7 (amended): for a point whose coordinates lie within [2^30] of zero,
    eight applications of [Rot45CW] return a point whose distance from the
    original is, in each coordinate, at most 10 units plus 1/1024 of that
    coordinate's magnitude. *)
Theorem Rot45CW_eight_times_near p :
  Z.abs (X p) <= 2 ^ 30 -> Z.abs (Y p) <= 2 ^ 30 ->
  1024 * Z.abs (X (Rot45CW_times 8 p) - X p) <= Z.abs (X p) + 10240 /\
  1024 * Z.abs (Y (Rot45CW_times 8 p) - Y p) <= Z.abs (Y p) + 10240.
Proof.
  destruct p as [x0 y0]. cbn [X Y]. change (2 ^ 30) with 1073741824.
  intros Hx0 Hy0.
  destruct (rot45 x0 y0) as [x1 y1] eqn:E1.
  destruct (rot45 x1 y1) as [x2 y2] eqn:E2.
  destruct (rot45 x2 y2) as [x3 y3] eqn:E3.
  destruct (rot45 x3 y3) as [x4 y4] eqn:E4.
  destruct (rot45 x4 y4) as [x5 y5] eqn:E5.
  destruct (rot45 x5 y5) as [x6 y6] eqn:E6.
  destruct (rot45 x6 y6) as [x7 y7] eqn:E7.
  destruct (rot45 x7 y7) as [x8 y8] eqn:E8.
  destruct (rot45_eight_times _ _ _ _ _ _ _ _ _ _ _ _ _ _ _ _ _ _
              Hx0 Hy0 E1 E2 E3 E4 E5 E6 E7 E8) as (Hr & Hx & Hy).
  repeat match type of Hr with
         | Forall _ (_ :: _) =>
           let H := fresh "R" in apply Forall_cons in Hr as [H Hr]
         end.
  assert (Rot45CW_times 8 (mkPoint x0 y0) = mkPoint x8 y8) as ->.
  { unfold Rot45CW_times, Nat.iter. cbn [nat_rect].
    rewrite (Rot45CW_exact x0 y0), E1 by (rewrite ?E1; assumption). cbn [fst snd].
    rewrite (Rot45CW_exact x1 y1), E2 by (rewrite ?E2; assumption). cbn [fst snd].
    rewrite (Rot45CW_exact x2 y2), E3 by (rewrite ?E3; assumption). cbn [fst snd].
    rewrite (Rot45CW_exact x3 y3), E4 by (rewrite ?E4; assumption). cbn [fst snd].
    rewrite (Rot45CW_exact x4 y4), E5 by (rewrite ?E5; assumption). cbn [fst snd].
    rewrite (Rot45CW_exact x5 y5), E6 by (rewrite ?E6; assumption). cbn [fst snd].
    rewrite (Rot45CW_exact x6 y6), E7 by (rewrite ?E7; assumption). cbn [fst snd].
    rewrite (Rot45CW_exact x7 y7), E8 by (rewrite ?E8; assumption). cbn [fst snd].
    reflexivity. }
  cbn [X Y]. split; assumption.
Qed.

Lemma Rot45CW_eight_times_near_witness :
  let p := mkPoint 100000 (-25600) in
  1024 * Z.abs (X (Rot45CW_times 8 p) - X p) <= Z.abs (X p) + 10240 /\
  1024 * Z.abs (Y (Rot45CW_times 8 p) - Y p) <= Z.abs (Y p) + 10240.
Proof.
  apply (Rot45CW_eight_times_near (mkPoint 100000 (-25600))); vm_compute; congruence.
Defined.

(** *** Printing a scalar *)

Lemma append_length (s1 s2 : string) :
  String.length (s1 +:+ s2) = (String.length s1 + String.length s2)%nat.
Proof.
  induction s1 as [|c s1 IH]; [reflexivity|].
  change (S (String.length (s1 +:+ s2))
          = S (String.length s1 + String.length s2)%nat).
  rewrite IH. reflexivity.
Qed.

(** Two strings that agree and end with tails of one length agree on the
    heads and on the tails. *)
Lemma append_inj_tail (s1 s2 t1 t2 : string) :
  s1 +:+ t1 = s2 +:+ t2 -> String.length t1 = String.length t2 ->
  s1 = s2 /\ t1 = t2.
Proof.
  revert s2. induction s1 as [|c s1 IH]; intros s2 Heq Hlen.
  - destruct s2 as [|d s2]; [split; [reflexivity|exact Heq]|].
    exfalso. change ("" +:+ t1) with t1 in Heq. subst t1.
    rewrite (append_length (String d s2) t2) in Hlen. cbn in Hlen. lia.
  - destruct s2 as [|d s2].
    + exfalso. change ("" +:+ t2) with t2 in Heq. subst t2.
      rewrite (append_length (String c s1) t1) in Hlen. cbn in Hlen. lia.
    + change (String c (s1 +:+ t1) = String d (s2 +:+ t2)) in Heq.
      injection Heq as -> Heq. destruct (IH s2 Heq Hlen) as [-> ->].
      split; reflexivity.
Qed.

(** [%03d] prints a number from 0 to 255 as three digits that read back
    as the number. *)
Lemma fmt_03d_table :
  forallb (fun n => (read_03d (fmt_03d (Z.of_nat n)) =? Z.of_nat n)
                    && (String.length (fmt_03d (Z.of_nat n)) =? 3)%nat)
    (seq 0 256) = true.
Proof. vm_compute. reflexivity. Qed.

Lemma fmt_03d_read r :
  0 <= r <= 255 ->
  read_03d (fmt_03d r) = r /\ String.length (fmt_03d r) = 3%nat.
Proof.
  intros Hr. pose proof fmt_03d_table as Ht.
  rewrite forallb_forall in Ht.
  specialize (Ht (Z.to_nat r)). rewrite Z2Nat.id in Ht by lia.
  rewrite andb_true_iff, Z.eqb_eq, Nat.eqb_eq in Ht.
  apply Ht. apply in_seq. lia.
Qed.

(** A decimal numeral of a number that is not negative has no sign. *)
Lemma pretty_nonneg_no_sign (q : Z) (s : string) :
  0 <= q -> pretty q <> "-" +:+ s.
Proof.
  intros Hq. destruct q as [|q|q]; [discriminate| |lia].
  unfold pretty, pretty_Z, pretty, pretty_positive, pretty, pretty_N.
  destruct (decide (N.pos q = 0%N)); [discriminate|].
  apply pretty_N_go_ne_dash. discriminate.
Qed.

(** The two shapes of the printed form. *)
Lemma Fix32_String_nonneg x :
  is_int32 x -> 0 <= x ->
  Fix32_String x = pretty (Z.quot x 256) +:+ ":" +:+ fmt_03d (Z.rem x 256)
  /\ 0 <= Z.quot x 256 /\ 0 <= Z.rem x 256 <= 255.
Proof.
  intros Hx H0. rewrite is_int32_bounds in Hx.
  pose proof (Z.quot_rem' x 256) as Hqr.
  pose proof (Z.rem_bound_pos x 256 H0 eq_refl) as Hr.
  pose proof (Z.quot_pos x 256 H0 eq_refl) as Hq.
  unfold Fix32_String, fmt_d, quo32, rem32.
  destruct (Z.ltb_spec x 0); [lia|].
  rewrite !int32_id
    by first [apply int32_is_int32 | rewrite is_int32_bounds; lia].
  split; [reflexivity|]. lia.
Qed.

Lemma Fix32_String_neg x :
  is_int32 x -> x < 0 ->
  Fix32_String x
  = "-" +:+ pretty (Z.quot (neg32 x) 256) +:+ ":"
    +:+ fmt_03d (Z.rem (neg32 x) 256)
  /\ 0 <= Z.rem (neg32 x) 256 <= 255.
Proof.
  intros Hx H0. unfold Fix32_String, fmt_d, quo32, rem32.
  destruct (Z.ltb_spec x 0); [|lia].
  cbv zeta.
  destruct (Z.eq_dec x min_int32) as [->|Hm].
  - vm_compute. repeat split; congruence.
  - rewrite (neg32_opp x Hx Hm).
    rewrite is_int32_bounds in Hx. change min_int32 with (-2147483648) in Hm.
    assert (Hp : 0 <= - x) by lia.
    pose proof (Z.quot_rem' (- x) 256) as Hqr.
    pose proof (Z.rem_bound_pos (- x) 256 Hp eq_refl) as Hr.
    pose proof (Z.quot_pos (- x) 256 Hp eq_refl) as Hq.
    rewrite !int32_id
    by first [apply int32_is_int32 | rewrite is_int32_bounds; lia].
    split; [reflexivity|]. lia.
Qed.

Lemma printed_parts_inj (q1 q2 r1 r2 : Z) :
  0 <= r1 <= 255 -> 0 <= r2 <= 255 ->
  pretty q1 +:+ ":" +:+ fmt_03d r1 = pretty q2 +:+ ":" +:+ fmt_03d r2 ->
  q1 = q2 /\ r1 = r2.
Proof.
  intros Hr1 Hr2 Heq.
  destruct (fmt_03d_read r1 Hr1) as [Hread1 Hlen1].
  destruct (fmt_03d_read r2 Hr2) as [Hread2 Hlen2].
  apply append_inj_tail in Heq as [Hq Ht].
  - split; [exact (inj pretty _ _ Hq)|].
    injection Ht as Ht. change (fmt_03d r1 = fmt_03d r2) in Ht.
    rewrite <- Hread1, <- Hread2, Ht. reflexivity.
  - change (S (String.length (fmt_03d r1)) = S (String.length (fmt_03d r2))).
    rewrite Hlen1, Hlen2. reflexivity.
Qed.

(** The printed form of a scalar determines the scalar. *)
Lemma Fix32_String_inj x y :
  is_int32 x -> is_int32 y -> Fix32_String x = Fix32_String y -> x = y.
Proof.
  intros Hx Hy Heq.
  destruct (Z_lt_le_dec x 0) as [Hx0|Hx0], (Z_lt_le_dec y 0) as [Hy0|Hy0].
  - destruct (Fix32_String_neg x Hx Hx0) as (Ex & Hrx).
    destruct (Fix32_String_neg y Hy Hy0) as (Ey & Hry).
    rewrite Ex, Ey in Heq. injection Heq as Heq.
    apply printed_parts_inj in Heq as [Hq Hr]; [|assumption..].
    rewrite <- (neg32_involutive x Hx), <- (neg32_involutive y Hy).
    f_equal.
    rewrite (Z.quot_rem' (neg32 x) 256), (Z.quot_rem' (neg32 y) 256).
    rewrite Hq, Hr. reflexivity.
  - exfalso.
    destruct (Fix32_String_neg x Hx Hx0) as (Ex & Hrx).
    destruct (Fix32_String_nonneg y Hy Hy0) as (Ey & Hqy & Hry).
    rewrite Ex, Ey in Heq. symmetry in Heq.
    destruct (pretty (Z.quot y 256)) as [|c s] eqn:Hp; [discriminate Heq|].
    change (String c (s +:+ ":" +:+ fmt_03d (Z.rem y 256))
            = String "-" (pretty (Z.quot (neg32 x) 256) +:+ ":"
                          +:+ fmt_03d (Z.rem (neg32 x) 256))) in Heq.
    injection Heq as -> _.
    exact (pretty_nonneg_no_sign _ s Hqy Hp).
  - exfalso.
    destruct (Fix32_String_nonneg x Hx Hx0) as (Ex & Hqx & Hrx).
    destruct (Fix32_String_neg y Hy Hy0) as (Ey & Hry).
    rewrite Ex, Ey in Heq.
    destruct (pretty (Z.quot x 256)) as [|c s] eqn:Hp; [discriminate Heq|].
    change (String c (s +:+ ":" +:+ fmt_03d (Z.rem x 256))
            = String "-" (pretty (Z.quot (neg32 y) 256) +:+ ":"
                          +:+ fmt_03d (Z.rem (neg32 y) 256))) in Heq.
    injection Heq as -> _.
    exact (pretty_nonneg_no_sign _ s Hqx Hp).
  - destruct (Fix32_String_nonneg x Hx Hx0) as (Ex & Hqx & Hrx).
    destruct (Fix32_String_nonneg y Hy Hy0) as (Ey & Hqy & Hry).
    rewrite Ex, Ey in Heq.
    apply printed_parts_inj in Heq as [Hq Hr]; [|assumption..].
    rewrite (Z.quot_rem' x 256), (Z.quot_rem' y 256), Hq, Hr. reflexivity.
Qed.

(** ** Package raster: the builders *)

Section builders.

(** After [grow n] the slice shows its old elements followed by [n]
    further ones. *)
Lemma grow_elems n p :
  exists pad, elems (grow n p) = elems p ++ pad /\ length pad = n.
Proof.
  unfold grow, len, cap. destruct p as [e sp]; cbn [elems spare].
  destruct (Nat.ltb_spec (length e + length sp) (n + length e)) as [Hlt|Hge];
    cbn [elems].
  - exists (replicate n 0). split; [|apply length_replicate].
    unfold copy. rewrite length_replicate.
    rewrite take_ge by lia. f_equal.
    rewrite drop_replicate. f_equal. lia.
  - exists (take n sp). split.
    + replace (n + length e)%nat with (length e + n)%nat by lia.
      apply take_app_add'. reflexivity.
    + rewrite length_take. lia.
Qed.

Lemma grow_len n p : len (grow n p) = (len p + n)%nat.
Proof.
  destruct (grow_elems n p) as (pad & He & Hn).
  unfold len. rewrite He, length_app. lia.
Qed.

(** The capacity never shrinks below the length. *)
Lemma grow_cap n p : (len p + n <= cap (grow n p))%nat.
Proof. rewrite <- grow_len. unfold len, cap. lia. Qed.

(** A store into the grown part. *)
Lemma store_app e pad sp k v :
  (k < length pad)%nat ->
  store (length e + k) v (mkPath (e ++ pad) sp)
  = Ok (mkPath (e ++ <[k:=v]> pad) sp).
Proof.
  intros Hk. unfold store, len. cbn [elems spare].
  rewrite length_app.
  destruct (Nat.ltb_spec (length e + k) (length e + length pad)); [|lia].
  rewrite insert_app_r. reflexivity.
Qed.

Lemma store_app_0 e pad sp v :
  (0 < length pad)%nat ->
  store (length e) v (mkPath (e ++ pad) sp)
  = Ok (mkPath (e ++ <[0%nat:=v]> pad) sp).
Proof.
  intros Hk. rewrite <- (store_app e pad sp 0 v Hk). f_equal. lia.
Qed.

Ltac grown p n pad :=
  let He := fresh "He" in
  let Hn := fresh "Hn" in
  let e := fresh "e" in
  let sp := fresh "sp" in
  destruct (grow_elems n p) as (pad & He & Hn);
  destruct (grow n p) as [e sp]; cbn [elems spare] in *; subst e;
  repeat (destruct pad as [|? pad]; [discriminate Hn|]);
  destruct pad; [|discriminate Hn];
  unfold len; cbn [elems spare mbind Result_bind bind];
  rewrite store_app_0 by (cbn; lia);
  cbn [mbind Result_bind bind];
  repeat (rewrite store_app by (cbn; lia); cbn [mbind Result_bind bind]);
  reflexivity.

(** Each builder appends its whole record, whatever the buffer holds. *)
Lemma Path_Start_appends a p :
  Path_Start a p = Ok (mkPath (elems p ++ enc_start a) (spare (grow 4 p))).
Proof. unfold Path_Start. grown p 4%nat pad. Qed.

Lemma Path_Add1_appends b p :
  Path_Add1 b p = Ok (mkPath (elems p ++ enc_seg (Line b)) (spare (grow 4 p))).
Proof. unfold Path_Add1. grown p 4%nat pad. Qed.

Lemma Path_Add2_appends b c p :
  Path_Add2 b c p
  = Ok (mkPath (elems p ++ enc_seg (Quad b c)) (spare (grow 6 p))).
Proof. unfold Path_Add2. grown p 6%nat pad. Qed.

Lemma Path_Add3_appends b c d p :
  Path_Add3 b c d p
  = Ok (mkPath (elems p ++ enc_seg (Cubic b c d)) (spare (grow 8 p))).
Proof. unfold Path_Add3. grown p 8%nat pad. Qed.

(** [AddPath] appends the elements of [q]. *)
Lemma Path_AddPath_appends q p :
  Path_AddPath q p
  = Ok (mkPath (elems p ++ elems q) (spare (grow (len q) p))).
Proof.
  unfold Path_AddPath.
  pose proof (grow_cap (len q) p) as Hcap.
  pose proof (grow_len (len q) p) as Hlen.
  destruct (grow_elems (len q) p) as (pad & He & Hn).
  destruct (grow (len q) p) as [e sp]. cbn [elems spare] in *. subst e.
  destruct (Nat.leb_spec (len p + len q) (cap (mkPath (elems p ++ pad) sp)));
    [|lia].
  unfold len in *. cbn [elems spare] in *.
  f_equal.
  assert (Hw : take (length (elems p)) ((elems p ++ pad) ++ sp)
               ++ copy (take (length (elems q))
                          (drop (length (elems p)) ((elems p ++ pad) ++ sp)))
                    (elems q)
               ++ drop (length (elems p) + length (elems q))
                    ((elems p ++ pad) ++ sp)
               = (elems p ++ elems q) ++ sp).
  { rewrite <- (assoc_L (++)).
    rewrite take_app_length, drop_app_length.
    rewrite <- Hn at 1. rewrite take_app_length.
    unfold copy. rewrite Hn, take_ge, <- Hn, drop_all by lia.
    rewrite (assoc_L (++) (elems p) pad sp).
    replace (length (elems p) + length pad)%nat
      with (length (elems p ++ pad)) by (rewrite length_app; lia).
    rewrite drop_app_length.
    rewrite app_nil_r, <- (assoc_L (++)). reflexivity. }
  rewrite Hw.
  replace (length (elems p ++ pad)) with (length (elems p ++ elems q))
    by (rewrite !length_app; lia).
  rewrite take_app_length, drop_app_length. reflexivity.
Qed.

End builders.

(** ** Package raster: reading the buffer *)

Section reading.

Lemma index_lookup (l : list Fix32) k v :
  l !! k = Some v -> index l (Z.of_nat k) = Ok v.
Proof.
  intros Hl. unfold index.
  destruct (Z.ltb_spec (Z.of_nat k) 0); [lia|].
  rewrite Nat2Z.id, Hl. reflexivity.
Qed.

(** An index past a prefix reads in the rest. *)
Lemma index_app_r (pre l : list Fix32) i :
  Z.of_nat (length pre) <= i ->
  index (pre ++ l) i = index l (i - Z.of_nat (length pre)).
Proof.
  intros Hi. unfold index.
  destruct (Z.ltb_spec i 0); [lia|].
  destruct (Z.ltb_spec (i - Z.of_nat (length pre)) 0); [lia|].
  rewrite lookup_app_r by lia.
  replace (Z.to_nat (i - Z.of_nat (length pre)))
    with (Z.to_nat i - length pre)%nat by lia.
  reflexivity.
Qed.

Lemma index_nonneg_bound (l : list Fix32) i v :
  index l i = Ok v -> 0 <= i < Z.of_nat (length l).
Proof.
  unfold index. destruct (Z.ltb_spec i 0); [discriminate|].
  destruct (l !! Z.to_nat i) eqn:Hl; [|discriminate].
  apply lookup_lt_Some in Hl. lia.
Qed.

(** The window between the two tags of a record is its payload. *)
Lemma slice_payload p pre t pl rest lo hi :
  elems p = pre ++ t :: pl ++ rest ->
  lo = Z.of_nat (length pre) + 1 ->
  hi = lo + Z.of_nat (length pl) ->
  slice p lo hi = Ok pl.
Proof.
  intros He -> ->. unfold slice, cap. rewrite He.
  rewrite !length_app. cbn [length]. rewrite length_app.
  match goal with |- (if ?c then _ else _) = _ => assert (c = true) as -> end.
  { rewrite !andb_true_iff, !Z.leb_le. lia. }
  f_equal.
  replace (Z.to_nat (Z.of_nat (length pre) + 1))
    with (length (pre ++ [t])) by (rewrite length_app; cbn; lia).
  replace (Z.to_nat (Z.of_nat (length pre) + 1 + Z.of_nat (length pl)
                     - (Z.of_nat (length pre) + 1)))
    with (length pl) by lia.
  replace ((pre ++ t :: pl ++ rest) ++ spare p)
    with ((pre ++ [t]) ++ pl ++ rest ++ spare p)
    by (rewrite <- ?(assoc_L (++)); cbn [app];
        rewrite <- ?(assoc_L (++)); reflexivity).
  rewrite drop_app_length, take_app_length. reflexivity.
Qed.

Lemma rec_len_length r : Z.of_nat (length (enc_rec r)) = rec_len r.
Proof. destruct r as [a|[b|b c|b c d]]; reflexivity. Qed.

Lemma rec_len_payload r : rec_len r = Z.of_nat (length (rec_payload r)) + 2.
Proof. destruct r as [a|[b|b c|b c d]]; reflexivity. Qed.

Lemma rec_len_pos r : 4 <= rec_len r.
Proof. destruct r as [a|[b|b c|b c d]]; cbn; lia. Qed.

(** One iteration of [Path.String] at the leading tag of a record. *)
Lemma String_body_rec p pre r tl s :
  elems p = pre ++ enc_rec r ++ tl ->
  String_body p (Z.of_nat (length pre)) s
  = Ok (Z.of_nat (length pre) + rec_len r,
        (if negb (Z.of_nat (length pre) =? 0) then s +:+ " " else s)
        +:+ token r).
Proof.
  intros He. unfold String_body.
  rewrite He at 1.
  rewrite (index_lookup _ (length pre) (rec_tag r))
    by (apply list_lookup_middle; reflexivity).
  cbn [mbind Result_bind bind].
  assert (Hs : slice p (Z.of_nat (length pre) + 1)
                 (Z.of_nat (length pre) + rec_len r - 1)
               = Ok (rec_payload r)).
  { eapply slice_payload.
    - rewrite He. unfold enc_rec. cbn [app].
      rewrite <- (assoc_L (++)). reflexivity.
    - reflexivity.
    - rewrite rec_len_payload. lia. }
  destruct r as [a|[b|b c|b c d]]; cbn [rec_tag seg_tag rec_len seg_len] in *;
    cbn [Z.eqb Pos.eqb];
    match goal with
    | H : slice p ?lo ?hi = _ |- context [slice p ?lo ?hi'] =>
      replace hi' with hi by lia; rewrite H
    end; reflexivity.
Qed.

Lemma enc_recs_length_ge rs : (length rs <= length (enc_recs rs))%nat.
Proof.
  induction rs as [|r rs IH]; cbn; [lia|].
  rewrite length_app. pose proof (rec_len_pos r).
  pose proof (rec_len_length r). unfold enc_recs in IH. cbn in *. lia.
Qed.

(** The loop of [Path.String] across a run of records. *)
Lemma String_loop_recs rs : forall p pre tl s fuel,
  elems p = pre ++ enc_recs rs ++ tl ->
  String_loop (length rs + fuel) p (Z.of_nat (length pre)) s
  = String_loop fuel p (Z.of_nat (length (pre ++ enc_recs rs)))
      (decode_acc (Z.of_nat (length pre) =? 0) s rs).
Proof.
  induction rs as [|r rs IH]; intros p pre tl s fuel He.
  - cbn. rewrite app_nil_r. reflexivity.
  - cbn [enc_recs flat_map] in He. fold (enc_recs rs) in He.
    rewrite <- (assoc_L (++)) in He.
    cbn [length Nat.add String_loop].
    assert (Hlt : Z.of_nat (length pre) < Z.of_nat (len p)).
    { unfold len. rewrite He, !length_app.
      pose proof (rec_len_pos r). pose proof (rec_len_length r). lia. }
    destruct (Z.ltb_spec (Z.of_nat (length pre)) (Z.of_nat (len p))); [|lia].
    rewrite (String_body_rec p pre r (enc_recs rs ++ tl) s He).
    cbn [mbind Result_bind bind].
    replace (Z.of_nat (length pre) + rec_len r)
      with (Z.of_nat (length (pre ++ enc_rec r)))
      by (rewrite length_app, <- rec_len_length; lia).
    rewrite (IH p (pre ++ enc_rec r) tl)
      by (rewrite He, <- !(assoc_L (++)); reflexivity).
    cbn [enc_recs flat_map decode_acc]. fold (enc_recs rs).
    rewrite <- !(assoc_L (++)).
    assert (Hnz : (Z.of_nat (length (pre ++ enc_rec r)) =? 0) = false).
    { apply Z.eqb_neq. rewrite length_app.
      pose proof (rec_len_pos r). pose proof (rec_len_length r). lia. }
    rewrite Hnz.
    destruct (Z.of_nat (length pre) =? 0); reflexivity.
Qed.

Lemma append_assoc (s1 s2 s3 : string) :
  (s1 +:+ s2) +:+ s3 = s1 +:+ (s2 +:+ s3).
Proof.
  induction s1 as [|c s1 IH]; [reflexivity|].
  change (String c ((s1 +:+ s2) +:+ s3) = String c (s1 +:+ (s2 +:+ s3))).
  rewrite IH. reflexivity.
Qed.

Lemma decode_acc_concat rs s r :
  decode_acc false (s +:+ token r) rs
  = s +:+ String.concat " " (map token (r :: rs)).
Proof.
  revert s r. induction rs as [|r' rs IH]; intros s r.
  - reflexivity.
  - cbn [decode_acc]. rewrite IH.
    change (map token (r :: r' :: rs))
      with (token r :: map token (r' :: rs)).
    cbn [map String.concat].
    rewrite !append_assoc. reflexivity.
Qed.

Lemma decode_acc_tokens rs :
  decode_acc true "" rs = String.concat " " (map token rs).
Proof.
  destruct rs as [|r rs]; [reflexivity|].
  cbn [decode_acc]. apply (decode_acc_concat rs "" r).
Qed.

(** [Path.String] prints the records of the buffer, one token each,
    separated by spaces. *)
Lemma Path_String_recs p rs :
  elems p = enc_recs rs ->
  Path_String p = Ok (String.concat " " (map token rs)).
Proof.
  intros He. unfold Path_String.
  pose proof (enc_recs_length_ge rs) as Hge.
  replace (len p) with (length rs + (len p - length rs))%nat
    by (unfold len; rewrite He; lia).
  change 0 with (Z.of_nat (length (@nil Fix32))).
  rewrite (String_loop_recs rs p [] [])
    by (rewrite app_nil_r; exact He).
  cbn [app length]. rewrite <- He. fold (len p).
  destruct (len p - length rs)%nat; cbn [String_loop];
    rewrite Z.ltb_irrefl; cbn [Z.of_nat Z.eqb];
    rewrite decode_acc_tokens; reflexivity.
Qed.

Lemma String_body_bad_tag p i s t :
  index (elems p) i = Ok t -> bad_tag t ->
  String_body p i s = Panic bad_path.
Proof.
  intros Hi (H0 & H1 & H2 & H3). unfold String_body. rewrite Hi.
  cbn [mbind Result_bind bind].
  apply Z.eqb_neq in H0, H1, H2, H3. rewrite H0, H1, H2, H3. reflexivity.
Qed.

(** [Path.String] panics when, after a run of records, the next tag is
    none of the four. *)
Lemma Path_String_bad_tag p rs t rest :
  elems p = enc_recs rs ++ t :: rest -> bad_tag t ->
  Path_String p = Panic bad_path.
Proof.
  intros He Hbad. unfold Path_String.
  pose proof (enc_recs_length_ge rs) as Hge.
  assert (Hlen : len p = (length (enc_recs rs) + S (length rest))%nat).
  { unfold len. rewrite He, length_app. reflexivity. }
  replace (len p) with (length rs + S (len p - length rs - 1))%nat by lia.
  change 0 with (Z.of_nat (length (@nil Fix32))).
  rewrite (String_loop_recs rs p [] (t :: rest)) by exact He.
  cbn [app String_loop].
  destruct (Z.ltb_spec (Z.of_nat (length (enc_recs rs))) (Z.of_nat (len p)));
    [|lia].
  rewrite (String_body_bad_tag p _ _ t); [reflexivity| |exact Hbad].
  rewrite He. apply index_lookup, list_lookup_middle. reflexivity.
Qed.

(** The loop of [Path.String] is given enough iterations. *)
Lemma String_body_advances p i s i' s' :
  String_body p i s = Ok (i', s') -> i + 4 <= i'.
Proof.
  unfold String_body.
  destruct (index (elems p) i) as [t| |]; cbn [mbind Result_bind bind];
    [|discriminate..].
  repeat match goal with
         | |- context [if ?c then _ else _] => destruct c
         | |- context [slice ?p ?a ?b] =>
           destruct (slice p a b); cbn [mbind Result_bind bind]
         end; intros [=]; lia.
Qed.

Lemma String_body_no_NoFuel p i s : String_body p i s <> NoFuel.
Proof.
  unfold String_body.
  unfold index.
  destruct (i <? 0); cbn [mbind Result_bind bind]; [discriminate|].
  destruct (elems p !! Z.to_nat i); cbn [mbind Result_bind bind];
    [|discriminate].
  unfold slice.
  repeat match goal with
         | |- context [if ?c then _ else _] =>
           destruct c; cbn [mbind Result_bind bind]
         end; discriminate.
Qed.

Lemma String_loop_total fuel : forall p i s,
  Z.of_nat (len p) - i <= Z.of_nat fuel ->
  String_loop fuel p i s <> NoFuel.
Proof.
  induction fuel as [|fuel IH]; intros p i s Hf; cbn [String_loop].
  - destruct (Z.ltb_spec i (Z.of_nat (len p))); [lia|discriminate].
  - destruct (Z.ltb_spec i (Z.of_nat (len p))); [|discriminate].
    destruct (String_body p i s) as [[i' s']| |] eqn:Hb;
      cbn [mbind Result_bind bind]; [|discriminate|].
    + apply IH. apply String_body_advances in Hb. lia.
    + exfalso. exact (String_body_no_NoFuel _ _ _ Hb).
Qed.

(** [Path.String] terminates on every buffer. *)
Lemma Path_String_total p : Path_String p <> NoFuel.
Proof. apply String_loop_total. lia. Qed.

End reading.

(** ** Package raster: the backward walk *)

Section walking.

Lemma index_at (pre l : list Fix32) i k :
  i = Z.of_nat (length pre) + Z.of_nat k ->
  index (pre ++ l) i
  = match l !! k with Some v => Ok v | None => Panic index_out_of_range end.
Proof.
  intros ->. unfold index.
  destruct (Z.ltb_spec (Z.of_nat (length pre) + Z.of_nat k) 0); [lia|].
  rewrite lookup_app_r by lia.
  replace (Z.to_nat (Z.of_nat (length pre) + Z.of_nat k) - length pre)%nat
    with k by lia.
  reflexivity.
Qed.

Ltac read_index :=
  match goal with
  | |- context [index (?pre ++ ?l) ?i] =>
    first [ rewrite (index_at pre l i 0) by lia
          | rewrite (index_at pre l i 1) by lia
          | rewrite (index_at pre l i 2) by lia
          | rewrite (index_at pre l i 3) by lia
          | rewrite (index_at pre l i 4) by lia
          | rewrite (index_at pre l i 5) by lia
          | rewrite (index_at pre l i 6) by lia
          | rewrite (index_at pre l i 7) by lia
          | rewrite (index_at pre l i 8) by lia
          | rewrite (index_at pre l i 9) by lia
          | rewrite (index_at pre l i 10) by lia ]
  end.

Context {T : Type} `{Adder T}.

(** One iteration of the walk at the trailing tag of a segment that
    follows a record ending at the point [a]: the segment is retraced to
    [a] and the walk moves to the trailing tag before it. *)
Lemma addPathReversed_body_seg q pre a t s tl (p : T) :
  elems q = pre ++ [X a; Y a; t] ++ enc_seg s ++ tl ->
  addPathReversed_body q (Z.of_nat (length pre) + 2 + seg_len s) p
  = (p' ← call (mirror s a) p;
     Ok (Some (Z.of_nat (length pre) + 2, p'))).
Proof.
  intros He. unfold addPathReversed_body. rewrite He. destruct a as [x y].
  destruct s as [[bx by_]|[bx by_] [cx cy]|[bx by_] [cx cy] [dx dy]];
    cbn [seg_len app enc_seg enc_rec rec_tag seg_tag rec_payload seg_payload
         mirror call X Y];
    repeat (read_index; cbn [lookup list_lookup mbind Result_bind bind
                               Z.eqb Pos.eqb]);
    replace (Z.of_nat (length pre) + 2 + 4 - 4)
      with (Z.of_nat (length pre) + 2) by lia;
    replace (Z.of_nat (length pre) + 2 + 6 - 6)
      with (Z.of_nat (length pre) + 2) by lia;
    replace (Z.of_nat (length pre) + 2 + 8 - 8)
      with (Z.of_nat (length pre) + 2) by lia;
    reflexivity.
Qed.

(** At the trailing tag of a start record the walk returns. *)
Lemma addPathReversed_body_start q pre x y tl (p : T) :
  elems q = pre ++ [x; y; 0] ++ tl ->
  addPathReversed_body q (Z.of_nat (length pre) + 2) p = Ok None.
Proof.
  intros He. unfold addPathReversed_body. rewrite He.
  read_index. reflexivity.
Qed.

Lemma addPathReversed_body_bad_tag q i t (p : T) :
  index (elems q) i = Ok t -> bad_tag t ->
  addPathReversed_body q i p = Panic bad_path.
Proof.
  intros Hi (H0 & H1 & H2 & H3). unfold addPathReversed_body. rewrite Hi.
  cbn [mbind Result_bind bind].
  apply Z.eqb_neq in H0, H1, H2, H3. rewrite H0, H1, H2, H3. reflexivity.
Qed.

Lemma bind_Ok_inv {A B} (m : Result A) (f : A -> Result B) b :
  m ≫= f = Ok b -> exists a, m = Ok a /\ f a = Ok b.
Proof. destruct m as [a| |]; [eauto|discriminate..]. Qed.

Lemma bind_not_NoFuel {A B} (m : Result A) (f : A -> Result B) :
  m <> NoFuel -> (forall a, f a <> NoFuel) -> m ≫= f <> NoFuel.
Proof.
  intros Hm Hf. destruct m as [a| |]; cbn; [apply Hf|discriminate|congruence].
Qed.

Lemma index_not_NoFuel l i : index l i <> NoFuel.
Proof.
  unfold index. destruct (i <? 0); [discriminate|].
  destruct (l !! Z.to_nat i); discriminate.
Qed.

Ltac invert_binds :=
  repeat match goal with
         | H : _ ≫= _ = Ok _ |- _ =>
           let Hm := fresh "Hm" in
           apply bind_Ok_inv in H as (? & Hm & H);
           try apply index_nonneg_bound in Hm
         end.

(** A step of the walk moves down, and stays above the start of the
    buffer. *)
Lemma addPathReversed_body_descends q i (p : T) i' p' :
  addPathReversed_body q i p = Ok (Some (i', p')) -> 2 <= i' <= i - 4.
Proof.
  unfold addPathReversed_body. intros Hb.
  apply bind_Ok_inv in Hb as (t & Hi & Hb).
  apply index_nonneg_bound in Hi.
  destruct (t =? 0); [discriminate|].
  destruct (t =? 1); [invert_binds; injection Hb as <- _; lia|].
  destruct (t =? 2); [invert_binds; injection Hb as <- _; lia|].
  destruct (t =? 3); [invert_binds; injection Hb as <- _; lia|].
  discriminate.
Qed.

Lemma bind_assoc {A B C} (m : Result A) (f : A -> Result B) (g : B -> Result C) :
  (m ≫= f) ≫= g = m ≫= (fun a => f a ≫= g).
Proof. destruct m; reflexivity. Qed.

Lemma bind_ext {A B} (m : Result A) (f g : A -> Result B) :
  (forall a, f a = g a) -> m ≫= f = m ≫= g.
Proof. intros Hfg. destruct m; cbn; [apply Hfg|reflexivity..]. Qed.

Lemma bind_Ok {A} (m : Result A) : m ≫= Ok = m.
Proof. destruct m; reflexivity. Qed.

Lemma replay_app cs1 cs2 (p : T) :
  replay (cs1 ++ cs2) p = replay cs1 p ≫= replay cs2.
Proof.
  revert p. induction cs1 as [|c cs1 IH]; intros p; [reflexivity|].
  cbn [app replay]. rewrite bind_assoc. apply bind_ext, IH.
Qed.

(** A segment ends with its end point and its tag. *)
Lemma enc_seg_end s :
  exists front,
    enc_seg s = front ++ [X (seg_end s); Y (seg_end s); seg_tag s] /\
    Z.of_nat (length front) = seg_len s - 3.
Proof.
  destruct s as [b|b c|b c d].
  - exists [1]. split; reflexivity.
  - exists [2; X b; Y b]. split; reflexivity.
  - exists [3; X b; Y b; X c; Y c]. split; reflexivity.
Qed.

Lemma seg_len_length s : Z.of_nat (length (enc_seg s)) = seg_len s.
Proof. destruct s; reflexivity. Qed.

Lemma enc_segs_cons s ss : enc_segs (s :: ss) = enc_seg s ++ enc_segs ss.
Proof. reflexivity. Qed.

Lemma enc_segs_length_ge ss : (length ss <= length (enc_segs ss))%nat.
Proof.
  induction ss as [|s ss IH]; [cbn; lia|].
  rewrite enc_segs_cons, length_app. pose proof (seg_len_length s).
  destruct s; cbn in *; lia.
Qed.

(** The walk across the segments of a contour, from the trailing tag of
    the last one down to the trailing tag of the record before the first:
    the segments are retraced, last first. *)
Lemma addPathReversed_loop_segs ss : forall q pre a t tl (p : T) fuel,
  elems q = pre ++ [X a; Y a; t] ++ enc_segs ss ++ tl ->
  addPathReversed_loop (length ss + fuel) q
    (Z.of_nat (length pre) + 2 + Z.of_nat (length (enc_segs ss))) p
  = (p' ← replay (reversed_calls a ss) p;
     addPathReversed_loop fuel q (Z.of_nat (length pre) + 2) p').
Proof.
  induction ss as [|s ss IH]; intros q pre a t tl p fuel He.
  - cbn. rewrite Z.add_0_r. reflexivity.
  - rewrite enc_segs_cons in He |- *.
    destruct (enc_seg_end s) as (front & Hs & Hfront).
    cbn [length]. replace (S (length ss) + fuel)%nat
      with (length ss + S fuel)%nat by lia.
    replace (Z.of_nat (length pre) + 2
             + Z.of_nat (length (enc_seg s ++ enc_segs ss)))
      with (Z.of_nat (length (pre ++ [X a; Y a; t] ++ front)) + 2
            + Z.of_nat (length (enc_segs ss))).
    2:{ rewrite !length_app, Hs, !length_app. cbn [length]. lia. }
    rewrite (IH q (pre ++ [X a; Y a; t] ++ front) (seg_end s) (seg_tag s) tl).
    2:{ rewrite He, Hs, <- !(assoc_L (++)). reflexivity. }
    cbn [reversed_calls]. rewrite replay_app, bind_assoc.
    apply bind_ext. intros p1.
    cbn [addPathReversed_loop replay].
    replace (Z.of_nat (length (pre ++ [X a; Y a; t] ++ front)) + 2)
      with (Z.of_nat (length pre) + 2 + seg_len s).
    2:{ rewrite !length_app. cbn [length]. lia. }
    rewrite (addPathReversed_body_seg q pre a t s (enc_segs ss ++ tl))
      by (rewrite He, <- !(assoc_L (++)); reflexivity).
    rewrite !bind_assoc. apply bind_ext. intros p2. reflexivity.
Qed.

(** On a buffer that ends with a contour, [addPathReversed] retraces the
    segments of that contour, last first, and returns at its start
    record. *)
Lemma addPathReversed_last_contour q pre c (p : T) :
  elems q = pre ++ enc_contour c ->
  addPathReversed p q = replay (reversed_calls (c_start c) (c_segs c)) p.
Proof.
  destruct c as [a ss]. unfold enc_contour. cbn [c_start c_segs].
  intros He. unfold addPathReversed.
  assert (Hlen : len q = (length pre + 4 + length (enc_segs ss))%nat).
  { unfold len. rewrite He, !length_app.
    change (length (enc_start a)) with 4%nat. lia. }
  destruct (Nat.eqb_spec (len q) 0) as [H0|_]; [lia|].
  pose proof (enc_segs_length_ge ss) as Hge.
  replace (len q) with (length ss + S (len q - length ss - 1))%nat at 1 by lia.
  replace (Z.of_nat (len q) - 1)
    with (Z.of_nat (length (pre ++ [0])) + 2 + Z.of_nat (length (enc_segs ss)))
    by (rewrite length_app; cbn [length]; lia).
  rewrite (addPathReversed_loop_segs ss q (pre ++ [0]) a 0 []).
  2:{ rewrite He, app_nil_r, <- !(assoc_L (++)). reflexivity. }
  rewrite <- (bind_Ok (replay (reversed_calls a ss) p)) at 2.
  apply bind_ext. intros p1. cbn [addPathReversed_loop].
  rewrite (addPathReversed_body_start q (pre ++ [0]) (X a) (Y a)
             (enc_segs ss)).
  2:{ rewrite He, <- !(assoc_L (++)). reflexivity. }
  reflexivity.
Qed.

(** [addPathReversed] does nothing on an empty buffer. *)
Lemma addPathReversed_empty sp (p : T) : addPathReversed p (mkPath [] sp) = Ok p.
Proof. reflexivity. Qed.

(** [addPathReversed] panics when the last scalar of the buffer is none of
    the four tags. *)
Lemma addPathReversed_bad_last q pre t (p : T) :
  elems q = pre ++ [t] -> bad_tag t ->
  addPathReversed p q = Panic bad_path.
Proof.
  intros He Hbad. unfold addPathReversed.
  assert (Hlen : len q = S (length pre)).
  { unfold len. rewrite He, length_app. cbn [length]. lia. }
  rewrite Hlen. cbn [Nat.eqb addPathReversed_loop].
  rewrite (addPathReversed_body_bad_tag q _ t); [reflexivity| |exact Hbad].
  rewrite He. replace (Z.of_nat (S (length pre)) - 1)
    with (Z.of_nat (length pre)) by lia.
  apply index_lookup, list_lookup_middle. reflexivity.
Qed.

(** The walk is given enough iterations, on any buffer, as long as the
    target itself returns or panics. *)
Lemma addPathReversed_body_not_NoFuel q i (p : T) :
  (forall c p, call c p <> NoFuel) ->
  addPathReversed_body q i p <> NoFuel.
Proof.
  intros Hcall. unfold addPathReversed_body.
  apply bind_not_NoFuel; [apply index_not_NoFuel|]. intros t.
  destruct (t =? 0); [discriminate|].
  destruct (t =? 1).
  { repeat (apply bind_not_NoFuel; [apply index_not_NoFuel|]; intros ?).
    apply bind_not_NoFuel; [|discriminate].
    apply (Hcall (CAdd1 _)). }
  destruct (t =? 2).
  { repeat (apply bind_not_NoFuel; [apply index_not_NoFuel|]; intros ?).
    apply bind_not_NoFuel; [|discriminate].
    apply (Hcall (CAdd2 _ _)). }
  destruct (t =? 3).
  { repeat (apply bind_not_NoFuel; [apply index_not_NoFuel|]; intros ?).
    apply bind_not_NoFuel; [|discriminate].
    apply (Hcall (CAdd3 _ _ _)). }
  discriminate.
Qed.

Lemma addPathReversed_loop_total fuel : forall q i (p : T),
  (forall c p, call c p <> NoFuel) ->
  i < Z.of_nat fuel -> (0 < fuel)%nat ->
  addPathReversed_loop fuel q i p <> NoFuel.
Proof.
  induction fuel as [|fuel IH]; intros q i p Hcall Hi Hpos; [lia|].
  cbn [addPathReversed_loop].
  destruct (addPathReversed_body q i p) as [[[i' p']|]| |] eqn:Hb;
    cbn [mbind Result_bind bind]; try discriminate.
  - pose proof (addPathReversed_body_descends _ _ _ _ _ Hb).
    apply IH; [exact Hcall|lia..].
  - exfalso. exact (addPathReversed_body_not_NoFuel q i p Hcall Hb).
Qed.

(** [addPathReversed] terminates on every buffer. *)
Lemma addPathReversed_total q (p : T) :
  (forall c p, call c p <> NoFuel) ->
  addPathReversed p q <> NoFuel.
Proof.
  intros Hcall. unfold addPathReversed.
  destruct (Nat.eqb_spec (len q) 0); [discriminate|].
  apply addPathReversed_loop_total; [exact Hcall|lia..].
Qed.

End walking.

(** ** The recording target *)

Lemma Recorder_replay cs (log : list Call) : replay cs log = Ok (log ++ cs).
Proof.
  revert log. induction cs as [|c cs IH]; intros log.
  - cbn. rewrite app_nil_r. reflexivity.
  - cbn [replay]. destruct c; cbn; rewrite IH, <- (assoc_L (++)); reflexivity.
Qed.

Lemma Recorder_call_returns (c : Call) (log : list Call) : call c log <> NoFuel.
Proof. destruct c; discriminate. Qed.

(** The tail indices the walk visits across the segments of a contour. *)
Lemma visited_segs ss : forall q pre a t tl (log : list Call) fuel,
  elems q = pre ++ [X a; Y a; t] ++ enc_segs ss ++ tl ->
  visited (length ss + fuel) q
    (Z.of_nat (length pre) + 2 + Z.of_nat (length (enc_segs ss))) log
  = rev (tail_indices (Z.of_nat (length pre) + 3) (map seg_len ss))
    ++ visited fuel q (Z.of_nat (length pre) + 2)
         (log ++ reversed_calls a ss).
Proof.
  induction ss as [|s ss IH]; intros q pre a t tl log fuel He.
  - cbn. rewrite Z.add_0_r, app_nil_r. reflexivity.
  - rewrite enc_segs_cons in He |- *.
    destruct (enc_seg_end s) as (front & Hs & Hfront).
    cbn [length]. replace (S (length ss) + fuel)%nat
      with (length ss + S fuel)%nat by lia.
    replace (Z.of_nat (length pre) + 2
             + Z.of_nat (length (enc_seg s ++ enc_segs ss)))
      with (Z.of_nat (length (pre ++ [X a; Y a; t] ++ front)) + 2
            + Z.of_nat (length (enc_segs ss))).
    2:{ rewrite !length_app, Hs, !length_app. cbn [length]. lia. }
    rewrite (IH q (pre ++ [X a; Y a; t] ++ front) (seg_end s) (seg_tag s) tl).
    2:{ rewrite He, Hs, <- !(assoc_L (++)). reflexivity. }
    cbn [map tail_indices rev visited].
    replace (Z.of_nat (length (pre ++ [X a; Y a; t] ++ front)) + 2)
      with (Z.of_nat (length pre) + 2 + seg_len s).
    2:{ rewrite !length_app. cbn [length]. lia. }
    replace (Z.of_nat (length (pre ++ [X a; Y a; t] ++ front)) + 3)
      with (Z.of_nat (length pre) + 3 + seg_len s).
    2:{ rewrite !length_app. cbn [length]. lia. }
    rewrite (addPathReversed_body_seg q pre a t s (enc_segs ss ++ tl))
      by (rewrite He, <- !(assoc_L (++)); reflexivity).
    rewrite <- (assoc_L (++)). f_equal.
    cbn [reversed_calls]. rewrite (assoc_L (++) log).
    replace (Z.of_nat (length pre) + 3 + seg_len s - 1)
      with (Z.of_nat (length pre) + 2 + seg_len s) by lia.
    destruct s; reflexivity.
Qed.

(** ** Well-formed buffers *)

Lemma enc_path_recs cs : enc_path cs = enc_recs (path_recs cs).
Proof.
  induction cs as [|c cs IH]; [reflexivity|].
  cbn [enc_path path_recs flat_map]. fold (enc_path cs) (path_recs cs).
  unfold enc_recs. rewrite flat_map_app. fold (enc_recs (path_recs cs)).
  rewrite <- IH. f_equal.
  destruct c as [a ss]. unfold enc_contour, contour_recs. cbn [c_start c_segs flat_map].
  f_equal. induction ss as [|s ss IHs]; [reflexivity|].
  cbn [map flat_map]. rewrite <- IHs. reflexivity.
Qed.

Lemma enc_path_app cs1 cs2 : enc_path (cs1 ++ cs2) = enc_path cs1 ++ enc_path cs2.
Proof. apply flat_map_app. Qed.

Lemma enc_segs_app ss1 ss2 : enc_segs (ss1 ++ ss2) = enc_segs ss1 ++ enc_segs ss2.
Proof. apply flat_map_app. Qed.

Lemma enc_path_snoc cs c : enc_path (cs ++ [c]) = enc_path cs ++ enc_contour c.
Proof. rewrite enc_path_app. cbn. rewrite app_nil_r. reflexivity. Qed.

Lemma well_formed_nil : well_formed [].
Proof. exists []. reflexivity. Qed.

Lemma well_formed_app l1 l2 :
  well_formed l1 -> well_formed l2 -> well_formed (l1 ++ l2).
Proof.
  intros [cs1 ->] [cs2 ->]. exists (cs1 ++ cs2). symmetry. apply enc_path_app.
Qed.

(** A start record opens a new contour on any well-formed buffer. *)
Lemma well_formed_start l a : well_formed l -> well_formed (l ++ enc_start a).
Proof.
  intros [cs ->]. exists (cs ++ [mkContour a []]).
  rewrite enc_path_snoc. unfold enc_contour. cbn [c_start c_segs enc_segs flat_map].
  rewrite app_nil_r. reflexivity.
Qed.

(** A segment extends the last contour of a well-formed buffer that has
    one. *)
Lemma well_formed_seg l s :
  well_formed l -> l <> [] -> well_formed (l ++ enc_seg s).
Proof.
  intros [cs ->] Hne.
  destruct cs as [|c cs _] using rev_ind; [exfalso; apply Hne; reflexivity|].
  exists (cs ++ [mkContour (c_start c) (c_segs c ++ [s])]).
  rewrite !enc_path_snoc. unfold enc_contour. cbn [c_start c_segs].
  rewrite enc_segs_app, <- !(assoc_L (++)). cbn [enc_segs flat_map].
  rewrite app_nil_r. reflexivity.
Qed.

(** The first scalar of a non-empty well-formed buffer is the tag 0. *)
Lemma well_formed_head t rest : well_formed (t :: rest) -> t = 0.
Proof.
  intros [cs Hcs]. destruct cs as [|c cs]; [discriminate|].
  cbn in Hcs. congruence.
Qed.

(** A well-formed buffer is empty or ends with a contour. *)
Lemma well_formed_last l :
  well_formed l -> l = [] \/ exists pre c, l = pre ++ enc_contour c.
Proof.
  intros [cs ->]. destruct cs as [|c cs _] using rev_ind; [left; reflexivity|].
  right. exists (enc_path cs), c. apply enc_path_snoc.
Qed.

(** ** The backward walk over one contour *)

Lemma map_rec_len_contour c :
  map rec_len (contour_recs c) = 4 :: map seg_len (c_segs c).
Proof.
  unfold contour_recs. cbn [map rec_len]. f_equal.
  rewrite map_map. reflexivity.
Qed.

Lemma gaps_tail_indices lens : forall off n,
  gaps (tail_indices off (n :: lens)) = lens.
Proof.
  induction lens as [|m lens IH]; intros off n; [reflexivity|].
  change (tail_indices off (n :: m :: lens))
    with ((off + n - 1) :: tail_indices (off + n) (m :: lens)).
  change (gaps ((off + n - 1) :: tail_indices (off + n) (m :: lens)))
    with ((off + n + m - 1 - (off + n - 1))
          :: gaps (tail_indices (off + n) (m :: lens))).
  rewrite IH. f_equal. lia.
Qed.

(** The tail indices the walk visits on a single contour: the trailing
    tags of its records, from the last one down to the start record. *)
Lemma visited_contour q c (log : list Call) :
  elems q = enc_contour c ->
  visited (len q) q (Z.of_nat (len q) - 1) log
  = rev (tail_indices 0 (map rec_len (contour_recs c))).
Proof.
  destruct c as [a ss]. unfold enc_contour. cbn [c_start c_segs].
  intros He. rewrite map_rec_len_contour. cbn [c_segs tail_indices rev].
  assert (Hlen : len q = (4 + length (enc_segs ss))%nat).
  { unfold len. rewrite He, !length_app.
    change (length (enc_start a)) with 4%nat. lia. }
  pose proof (enc_segs_length_ge ss) as Hge.
  replace (len q) with (length ss + S (len q - length ss - 1))%nat at 1 by lia.
  replace (Z.of_nat (len q) - 1)
    with (Z.of_nat (length [0]) + 2 + Z.of_nat (length (enc_segs ss)))
    by (cbn [length]; lia).
  rewrite (visited_segs ss q [0] a 0 []).
  2:{ rewrite He, app_nil_r. reflexivity. }
  f_equal. cbn [visited length].
  rewrite (addPathReversed_body_start q [0] (X a) (Y a) (enc_segs ss))
    by (rewrite He; reflexivity).
  reflexivity.
Qed.

(** Every trailing tag of a run of records lies in the buffer and holds
    the tag of its record. *)
Lemma tail_indices_tags rs : forall (l pre tl : list Fix32),
  l = pre ++ enc_recs rs ++ tl ->
  Forall2 (fun i r => 0 <= i < Z.of_nat (length l) /\ index l i = Ok (rec_tag r))
    (tail_indices (Z.of_nat (length pre)) (map rec_len rs)) rs.
Proof.
  induction rs as [|r rs IH]; intros l pre tl Hl; [constructor|].
  cbn [map tail_indices]. constructor.
  - pose proof (rec_len_length r) as Hr. pose proof (rec_len_pos r) as Hp.
    assert (Hi : index l (Z.of_nat (length pre) + rec_len r - 1) = Ok (rec_tag r)).
    { rewrite Hl. cbn [enc_recs flat_map]. unfold enc_rec at 1.
      replace (Z.of_nat (length pre) + rec_len r - 1)
        with (Z.of_nat (length (pre ++ rec_tag r :: rec_payload r))).
      2:{ rewrite length_app. cbn [length]. rewrite rec_len_payload. lia. }
      apply index_lookup.
      replace (pre ++ ((rec_tag r :: rec_payload r ++ [rec_tag r])
                       ++ flat_map enc_rec rs) ++ tl)
        with ((pre ++ rec_tag r :: rec_payload r)
              ++ rec_tag r :: (flat_map enc_rec rs ++ tl)).
      2:{ rewrite <- ?(assoc_L (++)); cbn [app];
          rewrite <- ?(assoc_L (++)); reflexivity. }
      apply list_lookup_middle. reflexivity. }
    split; [|exact Hi]. apply index_nonneg_bound in Hi. exact Hi.
  - replace (Z.of_nat (length pre) + rec_len r)
      with (Z.of_nat (length (pre ++ enc_rec r)))
      by (rewrite length_app, <- rec_len_length; lia).
    apply (IH l (pre ++ enc_rec r) tl).
    rewrite Hl. cbn [enc_recs flat_map]. rewrite <- !(assoc_L (++)). reflexivity.
Qed.

Lemma contour_enc_recs c : enc_contour c = enc_recs (contour_recs c).
Proof.
  pose proof (enc_path_recs [c]) as Hc. cbn [enc_path path_recs flat_map] in Hc.
  rewrite !app_nil_r in Hc. exact Hc.
Qed.

(** * The properties of the specification *)

(** C1: a contour built as [Start(A); Add1(B); Add2(C, D)] on an empty
    Path holds the three records in order; replaying it backward makes
    exactly the calls [Add2(C, B)] and [Add1(A)] on the target, whatever
    the target is, so that a recorder started at [D] ends up with
    [Start(D); Add2(C, B); Add1(A)], its only [Start] being the caller's.
    The walk reads the tags at 13, 7 and 3 and returns at index 3, the
    trailing tag 0 of the start record. *)
Theorem reverse_traversal_law (A B C D : Point) (sp : list Fix32) :
  exists q : Path,
    (p ← Path_Start A (mkPath [] sp); p ← Path_Add1 B p; Path_Add2 C D p) = Ok q /\
    elems q = [0; X A; Y A; 0; 1; X B; Y B; 1; 2; X C; Y C; X D; Y D; 2] /\
    (forall (T : Type) (adder : Adder T) (p : T),
        addPathReversed p q = (p ← Add2 C B p; Add1 A p)) /\
    (forall log : list Call,
        addPathReversed log q = Ok (log ++ [CAdd2 C B; CAdd1 A])) /\
    (log ← Start D []; addPathReversed log q)
    = Ok [CStart D; CAdd2 C B; CAdd1 A] /\
    visited (len q) q (Z.of_nat (len q) - 1) [CStart D] = [13; 7; 3] /\
    index (elems q) 3 = Ok 0 /\
    addPathReversed_body q 3 [CStart D; CAdd2 C B; CAdd1 A] = Ok None.
Proof.
  rewrite Path_Start_appends. cbn [mbind Result_bind bind].
  rewrite Path_Add1_appends. cbn [mbind Result_bind bind].
  rewrite Path_Add2_appends. cbn [elems app].
  eexists. split; [reflexivity|]. cbn [elems].
  set (q := mkPath _ _).
  assert (He : elems q = [] ++ enc_contour (mkContour A [Line B; Quad C D]))
    by reflexivity.
  split; [reflexivity|].
  split.
  { intros T adder p.
    rewrite (addPathReversed_last_contour q [] _ p He).
    cbn [reversed_calls c_start c_segs seg_end mirror app replay call].
    apply bind_ext. intros p1. apply bind_Ok. }
  assert (Hlog : forall log : list Call,
             addPathReversed log q = Ok (log ++ [CAdd2 C B; CAdd1 A])).
  { intros log. rewrite (addPathReversed_last_contour q [] _ log He).
    apply Recorder_replay. }
  split; [exact Hlog|].
  split; [apply (Hlog [CStart D])|].
  split; [rewrite (visited_contour q _ _ He); reflexivity|].
  split; reflexivity.
Qed.

(** C9: on a buffer that is one contour, [addPathReversed] returns, having
    retraced the segments last first. The tail indices it visits are the
    trailing tags of the records, last record first; each lies in the
    buffer and holds the tag of its record; consecutive ones are one
    record length apart; the last one visited is index 3, which holds the
    tag 0. No read panics, so every index read is in range. On an empty
    buffer the target is returned untouched, whatever it is, and no read
    took place, since any read of an empty buffer panics. *)
Theorem addPathReversed_single_contour
        (c : Contour) (sp : list Fix32) (log : list Call) :
  let q := mkPath (enc_contour c) sp in
  let tails := tail_indices 0 (map rec_len (contour_recs c)) in
  addPathReversed log q = Ok (log ++ reversed_calls (c_start c) (c_segs c)) /\
  visited (len q) q (Z.of_nat (len q) - 1) log = rev tails /\
  Forall2 (fun i r => 0 <= i < Z.of_nat (len q) /\
                      index (elems q) i = Ok (rec_tag r))
    tails (contour_recs c) /\
  gaps tails = map seg_len (c_segs c) /\
  head tails = Some 3 /\ index (elems q) 3 = Ok 0 /\
  addPathReversed_body q 3 (log ++ reversed_calls (c_start c) (c_segs c))
  = Ok None /\
  (forall (T : Type) (adder : Adder T) (p : T) (sp' : list Fix32) (i : Z),
      addPathReversed p (mkPath [] sp') = Ok p /\
      index (elems (mkPath [] sp')) i = Panic index_out_of_range).
Proof.
  intros q tails.
  assert (He : elems q = [] ++ enc_contour c) by reflexivity.
  split.
  { rewrite (addPathReversed_last_contour q [] c log He).
    apply Recorder_replay. }
  split; [apply visited_contour; reflexivity|].
  split.
  { apply (tail_indices_tags (contour_recs c) (elems q) [] []).
    cbn [elems q app]. rewrite app_nil_r. apply contour_enc_recs. }
  split.
  { unfold tails. rewrite map_rec_len_contour. apply gaps_tail_indices. }
  split; [unfold tails; rewrite map_rec_len_contour; reflexivity|].
  split; [destruct c; reflexivity|].
  split; [destruct c; reflexivity|].
  intros T adder p sp' i. split; [reflexivity|].
  unfold index. destruct (i <? 0); reflexivity.
Qed.

(** C2: on a well-formed buffer, [Start] always, [Add1], [Add2] and [Add3]
    once the buffer is not empty, [Clear], and [AddPath] of a well-formed
    Path return normally and leave a well-formed buffer; the records
    appended have lengths 4, 4, 6 and 8 and carry their tag at both ends. *)
Theorem builders_preserve_well_formed (p : Path) :
  well_formed (elems p) ->
  (forall a, exists p',
      Path_Start a p = Ok p' /\ elems p' = elems p ++ [0; X a; Y a; 0] /\
      len p' = (len p + 4)%nat /\ well_formed (elems p')) /\
  (elems p <> [] ->
   (forall b, exists p',
       Path_Add1 b p = Ok p' /\ elems p' = elems p ++ [1; X b; Y b; 1] /\
       len p' = (len p + 4)%nat /\ well_formed (elems p')) /\
   (forall b c, exists p',
       Path_Add2 b c p = Ok p' /\
       elems p' = elems p ++ [2; X b; Y b; X c; Y c; 2] /\
       len p' = (len p + 6)%nat /\ well_formed (elems p')) /\
   (forall b c d, exists p',
       Path_Add3 b c d p = Ok p' /\
       elems p' = elems p ++ [3; X b; Y b; X c; Y c; X d; Y d; 3] /\
       len p' = (len p + 8)%nat /\ well_formed (elems p'))) /\
  (elems (Clear p) = [] /\ well_formed (elems (Clear p))) /\
  (forall q, well_formed (elems q) ->
     exists p',
       Path_AddPath q p = Ok p' /\ elems p' = elems p ++ elems q /\
       well_formed (elems p')).
Proof.
  intros Hwf. split; [|split; [|split]].
  - intros a. eexists. split; [apply Path_Start_appends|].
    cbn [elems]. split; [reflexivity|]. split.
    + unfold len. cbn [elems]. rewrite length_app. reflexivity.
    + apply well_formed_start, Hwf.
  - intros Hne. split; [|split].
    + intros b. eexists. split; [apply Path_Add1_appends|].
      cbn [elems]. split; [reflexivity|]. split.
      * unfold len. cbn [elems]. rewrite length_app. reflexivity.
      * apply (well_formed_seg _ (Line b)); assumption.
    + intros b c. eexists. split; [apply Path_Add2_appends|].
      cbn [elems]. split; [reflexivity|]. split.
      * unfold len. cbn [elems]. rewrite length_app. reflexivity.
      * apply (well_formed_seg _ (Quad b c)); assumption.
    + intros b c d. eexists. split; [apply Path_Add3_appends|].
      cbn [elems]. split; [reflexivity|]. split.
      * unfold len. cbn [elems]. rewrite length_app. reflexivity.
      * apply (well_formed_seg _ (Cubic b c d)); assumption.
  - split; [reflexivity|apply well_formed_nil].
  - intros q Hq. eexists. split; [apply Path_AddPath_appends|].
    cbn [elems]. split; [reflexivity|]. apply well_formed_app; assumption.
Qed.

Lemma builders_preserve_well_formed_witness :
  well_formed (elems (mkPath [0; 256; 512; 0] [])) /\
  exists p',
    Path_Add2 (mkPoint 768 0) (mkPoint 1024 256) (mkPath [0; 256; 512; 0] [])
    = Ok p' /\
    well_formed (elems p').
Proof.
  assert (Hwf : well_formed (elems (mkPath [0; 256; 512; 0] []))).
  { exists [mkContour (mkPoint 256 512) []]. reflexivity. }
  split; [exact Hwf|].
  destruct (builders_preserve_well_formed _ Hwf) as (_ & Hadd & _).
  assert (Hne : elems (mkPath [0; 256; 512; 0] []) <> []) by discriminate.
  destruct (Hadd Hne) as (_ & Hadd2 & _).
  destruct (Hadd2 (mkPoint 768 0) (mkPoint 1024 256)) as (p' & Hp' & _ & _ & Hwf').
  exists p'. split; assumption.
Defined.

(** The four builder calls in a row leave the four records. *)
Lemma start_add1_add2_add3 (A B C D E F G : Point) (sp : list Fix32) :
  exists p : Path,
    (p ← Path_Start A (mkPath [] sp); p ← Path_Add1 B p;
     p ← Path_Add2 C D p; Path_Add3 E F G p) = Ok p /\
    elems p
    = enc_recs [RStart A; RSeg (Line B); RSeg (Quad C D); RSeg (Cubic E F G)].
Proof.
  rewrite Path_Start_appends. cbn [mbind Result_bind bind].
  rewrite Path_Add1_appends. cbn [mbind Result_bind bind].
  rewrite Path_Add2_appends. cbn [mbind Result_bind bind].
  rewrite Path_Add3_appends. cbn [elems app].
  eexists. split; reflexivity.
Qed.

(** C3: a Path built as [Start(A); Add1(B); Add2(C, D); Add3(E, F, G)]
    decodes to the four tokens S0, A1, A2 and A3, in this order and
    separated by single spaces, each followed, between brackets, by the
    printed coordinates it was given, in the order they were given and
    separated by single spaces; the printed form of a scalar determines
    the scalar. For the unit example the text reads
    [S0[0:000 0:000] A1[100:000 0:000] A2[150:000 50:000 100:000 100:000]
    A3[50:000 150:000 0:000 150:000 0:000 100:000]]. *)
Theorem Path_String_round_trip (A B C D E F G : Point) (sp : list Fix32) :
  exists p : Path,
    (p ← Path_Start A (mkPath [] sp); p ← Path_Add1 B p;
     p ← Path_Add2 C D p; Path_Add3 E F G p) = Ok p /\
    Path_String p
    = Ok ("S0[" +:+ Fix32_String (X A) +:+ " " +:+ Fix32_String (Y A) +:+ "]"
          +:+ " " +:+
          "A1[" +:+ Fix32_String (X B) +:+ " " +:+ Fix32_String (Y B) +:+ "]"
          +:+ " " +:+
          "A2[" +:+ Fix32_String (X C) +:+ " " +:+ Fix32_String (Y C) +:+ " "
                +:+ Fix32_String (X D) +:+ " " +:+ Fix32_String (Y D) +:+ "]"
          +:+ " " +:+
          "A3[" +:+ Fix32_String (X E) +:+ " " +:+ Fix32_String (Y E) +:+ " "
                +:+ Fix32_String (X F) +:+ " " +:+ Fix32_String (Y F) +:+ " "
                +:+ Fix32_String (X G) +:+ " " +:+ Fix32_String (Y G) +:+ "]") /\
    (forall x y : Fix32,
        is_int32 x -> is_int32 y -> Fix32_String x = Fix32_String y -> x = y) /\
    (exists p0 : Path,
        (p ← Path_Start (mkPoint 0 0) (mkPath [] sp);
         p ← Path_Add1 (mkPoint 25600 0) p;
         p ← Path_Add2 (mkPoint 38400 12800) (mkPoint 25600 25600) p;
         Path_Add3 (mkPoint 12800 38400) (mkPoint 0 38400) (mkPoint 0 25600) p)
        = Ok p0 /\
        Path_String p0
        = Ok ("S0[0:000 0:000] A1[100:000 0:000] " +:+
              "A2[150:000 50:000 100:000 100:000] " +:+
              "A3[50:000 150:000 0:000 150:000 0:000 100:000]")).
Proof.
  destruct (start_add1_add2_add3 A B C D E F G sp) as (p & Hp & He).
  exists p. split; [exact Hp|]. split.
  { rewrite (Path_String_recs _ _ He).
    cbn [map String.concat]. unfold token, Sprint.
    cbn [rec_name rec_payload seg_payload map String.concat].
    rewrite !append_assoc. reflexivity. }
  split; [exact Fix32_String_inj|].
  destruct (start_add1_add2_add3
              (mkPoint 0 0) (mkPoint 25600 0) (mkPoint 38400 12800)
              (mkPoint 25600 25600) (mkPoint 12800 38400) (mkPoint 0 38400)
              (mkPoint 0 25600) sp) as (p0 & Hp0 & He0).
  exists p0. split; [exact Hp0|].
  rewrite (Path_String_recs _ _ He0). vm_compute. reflexivity.
Qed.

(** C4: [Path.String] panics with the bad-path value when the tag it
    reads next is none of 0, 1, 2, 3, be it in any iteration or after any
    run of well-formed records; so does [addPathReversed] when the
    trailing tag it reads is none of them, be it in any iteration or as
    the last scalar of the buffer. On a well-formed buffer both return. *)
Theorem bad_tag_panics :
  (forall p i s t,
      index (elems p) i = Ok t -> bad_tag t ->
      String_body p i s = Panic bad_path) /\
  (forall p rs t rest,
      elems p = enc_recs rs ++ t :: rest -> bad_tag t ->
      Path_String p = Panic bad_path) /\
  (forall (T : Type) (adder : Adder T) q i t (p : T),
      index (elems q) i = Ok t -> bad_tag t ->
      addPathReversed_body q i p = Panic bad_path) /\
  (forall (T : Type) (adder : Adder T) q pre t (p : T),
      elems q = pre ++ [t] -> bad_tag t ->
      addPathReversed p q = Panic bad_path) /\
  (forall p, well_formed (elems p) ->
      (exists s, Path_String p = Ok s) /\
      (forall log : list Call, exists log', addPathReversed log p = Ok log')).
Proof.
  split; [exact String_body_bad_tag|].
  split; [exact Path_String_bad_tag|].
  split; [intros T adder; exact addPathReversed_body_bad_tag|].
  split; [intros T adder; exact addPathReversed_bad_last|].
  intros p Hwf. split.
  - destruct Hwf as [cs Hcs]. rewrite enc_path_recs in Hcs.
    eexists. apply (Path_String_recs p _ Hcs).
  - intros log. destruct (well_formed_last _ Hwf) as [He|(pre & c & He)].
    + destruct p as [e sp]. cbn [elems] in He. subst e.
      exists log. reflexivity.
    + eexists. rewrite (addPathReversed_last_contour p pre c log He).
      apply Recorder_replay.
Qed.

Lemma bad_tag_panics_witness :
  Path_String (mkPath [0; 256; 512; 0; 7; 0; 0; 7] []) = Panic bad_path /\
  addPathReversed (@nil Call) (mkPath [0; 256; 512; 0; 7; 0; 0; 7] [])
  = Panic bad_path /\
  exists s, Path_String (mkPath [0; 256; 512; 0; 1; 768; 0; 1] []) = Ok s.
Proof.
  destruct bad_tag_panics as (_ & Hs & _ & Hr & Hwf).
  assert (Hbad : bad_tag 7) by (repeat split; discriminate).
  split; [|split].
  - apply (Hs _ [RStart (mkPoint 256 512)] 7 [0; 0; 7]); [reflexivity|exact Hbad].
  - apply (Hr _ _ _ [0; 256; 512; 0; 7; 0; 0] 7); [reflexivity|exact Hbad].
  - apply Hwf. exists [mkContour (mkPoint 256 512) [Line (mkPoint 768 0)]].
    reflexivity.
Defined.

(** C10: [Add1], [Add2] and [Add3] on an empty Path return normally and
    leave the buffer holding exactly their record, which does not start
    with the tag 0 and so is not well formed; on any Path whatever they
    append their record without a check. *)
Theorem AddN_before_Start_unchecked (b c d : Point) (sp : list Fix32) :
  (exists sp', Path_Add1 b (mkPath [] sp) = Ok (mkPath [1; X b; Y b; 1] sp')) /\
  (exists sp', Path_Add2 b c (mkPath [] sp)
               = Ok (mkPath [2; X b; Y b; X c; Y c; 2] sp')) /\
  (exists sp', Path_Add3 b c d (mkPath [] sp)
               = Ok (mkPath [3; X b; Y b; X c; Y c; X d; Y d; 3] sp')) /\
  ~ well_formed [1; X b; Y b; 1] /\
  ~ well_formed [2; X b; Y b; X c; Y c; 2] /\
  ~ well_formed [3; X b; Y b; X c; Y c; X d; Y d; 3] /\
  (forall p, exists p',
      Path_Add1 b p = Ok p' /\ elems p' = elems p ++ [1; X b; Y b; 1]) /\
  (forall p, exists p',
      Path_Add2 b c p = Ok p' /\
      elems p' = elems p ++ [2; X b; Y b; X c; Y c; 2]) /\
  (forall p, exists p',
      Path_Add3 b c d p = Ok p' /\
      elems p' = elems p ++ [3; X b; Y b; X c; Y c; X d; Y d; 3]).
Proof.
  repeat split.
  - eexists. apply Path_Add1_appends.
  - eexists. apply Path_Add2_appends.
  - eexists. apply Path_Add3_appends.
  - intros Hwf. apply well_formed_head in Hwf. discriminate.
  - intros Hwf. apply well_formed_head in Hwf. discriminate.
  - intros Hwf. apply well_formed_head in Hwf. discriminate.
  - intros p. eexists. split; [apply Path_Add1_appends|reflexivity].
  - intros p. eexists. split; [apply Path_Add2_appends|reflexivity].
  - intros p. eexists. split; [apply Path_Add3_appends|reflexivity].
Qed.

(** * Further properties *)

(** ** Package geom *)

(** Wrapping an operand first does not change a wrapped sum or a wrapped
    negation. *)
Lemma wrap_add_wrap_l w a b : 0 < w -> wrap w (wrap w a + b) = wrap w (a + b).
Proof.
  intros Hw. unfold wrap. f_equal.
  replace ((a + 2 ^ (w - 1)) mod 2 ^ w - 2 ^ (w - 1) + b + 2 ^ (w - 1))
    with ((a + 2 ^ (w - 1)) mod 2 ^ w + b) by lia.
  rewrite Zplus_mod_idemp_l. f_equal. lia.
Qed.

Lemma wrap_opp_wrap w a : 0 < w -> wrap w (- wrap w a) = wrap w (- a).
Proof.
  intros Hw. unfold wrap. f_equal.
  assert (Hm : 0 < 2 ^ w) by (apply Z.pow_pos_nonneg; lia).
  replace (- ((a + 2 ^ (w - 1)) mod 2 ^ w - 2 ^ (w - 1)) + 2 ^ (w - 1))
    with (2 * 2 ^ (w - 1) - (a + 2 ^ (w - 1)) mod 2 ^ w) by lia.
  rewrite Zminus_mod_idemp_r. f_equal. lia.
Qed.

Lemma int32_add_int32_l a b : int32 (int32 a + b) = int32 (a + b).
Proof. apply wrap_add_wrap_l. lia. Qed.

Lemma int32_opp_int32 a : int32 (- int32 a) = int32 (- a).
Proof. apply wrap_opp_wrap. lia. Qed.

(** X1: [Sub] undoes [Add] and [Add] undoes [Sub] on every point, also
    when the sum or the difference wraps. *)
Theorem Add_Sub_cancel (p q : Point) :
  is_Point p -> Sub (Add p q) q = p /\ Add (Sub p q) q = p.
Proof.
  destruct p as [x y], q as [u v]. intros [Hx Hy]. cbn [X Y] in Hx, Hy.
  unfold Sub, Add, sub32, add32. cbn [X Y].
  replace (int32 (x + u) - u) with (int32 (x + u) + - u) by lia.
  replace (int32 (y + v) - v) with (int32 (y + v) + - v) by lia.
  replace (x - u) with (x + - u) by lia.
  replace (y - v) with (y + - v) by lia.
  rewrite !int32_add_int32_l.
  replace (x + u + - u) with x by lia. replace (y + v + - v) with y by lia.
  replace (x + - u + u) with x by lia. replace (y + - v + v) with y by lia.
  rewrite !int32_id by assumption. split; reflexivity.
Qed.

Lemma Add_Sub_cancel_witness :
  let p := mkPoint 2147483647 (-2147483648) in
  let q := mkPoint 5 (-7) in
  Sub (Add p q) q = p /\ Add (Sub p q) q = p.
Proof.
  apply (Add_Sub_cancel (mkPoint 2147483647 (-2147483648)) (mkPoint 5 (-7))).
  split; vm_compute; split; congruence.
Defined.

(** X2: the two quarter turns undo each other, a counter-clockwise
    quarter turn is the opposite of a clockwise one, and four quarter
    turns are the identity. *)
Theorem Rot90_quarter_turns (p : Point) :
  is_Point p ->
  Rot90CCW (Rot90CW p) = p /\ Rot90CW (Rot90CCW p) = p /\
  Rot90CCW p = Neg (Rot90CW p) /\
  Rot90CW (Rot90CW (Rot90CW (Rot90CW p))) = p /\
  Rot90CCW (Rot90CCW (Rot90CCW (Rot90CCW p))) = p.
Proof.
  destruct p as [x y]. intros [Hx Hy]. cbn [X Y] in Hx, Hy.
  unfold Rot90CCW, Rot90CW, Neg. cbn [X Y].
  rewrite !neg32_involutive by assumption. repeat split; reflexivity.
Qed.

Lemma Rot90_quarter_turns_witness :
  let p := mkPoint (-2147483648) 256 in
  Rot90CCW (Rot90CW p) = p /\ Rot90CW (Rot90CCW p) = p /\
  Rot90CCW p = Neg (Rot90CW p) /\
  Rot90CW (Rot90CW (Rot90CW (Rot90CW p))) = p /\
  Rot90CCW (Rot90CCW (Rot90CCW (Rot90CCW p))) = p.
Proof.
  apply (Rot90_quarter_turns (mkPoint (-2147483648) 256)).
  split; vm_compute; split; congruence.
Defined.

(** The eighth turns on points of [int32]: the 64-bit arithmetic is exact,
    only the conversion of the result to 32 bits can wrap. *)
Lemma quot256_abs a : Z.abs (Z.quot a 256) <= Z.abs a.
Proof.
  pose proof (Z.quot_rem' a 256) as Hqr.
  pose proof (Z.rem_bound_abs a 256) as Hr.
  destruct (Z_le_gt_dec 0 a) as [H0|H0].
  - pose proof (Z.quot_pos a 256 H0 eq_refl).
    pose proof (Z.rem_bound_pos a 256 H0 eq_refl). lia.
  - assert (Hq : Z.quot a 256 <= 0) by (apply Z.quot_le_upper_bound; lia).
    pose proof (Z.rem_nonpos a 256). lia.
Qed.

Lemma eighth_turn_64 (x y sx sy : Z) :
  is_int32 x -> is_int32 y -> Z.abs sx <= 1 -> Z.abs sy <= 1 ->
  int64 (Z.quot (int64 (int64 (sx * x + sy * y) * 181)) 256)
  = Z.quot ((sx * x + sy * y) * 181) 256.
Proof.
  rewrite !is_int32_bounds. intros Hx Hy Hsx Hsy.
  assert (Hl : Z.abs (sx * x + sy * y) <= 4294967296) by nia.
  rewrite (int64_id (sx * x + sy * y)) by lia.
  rewrite (int64_id ((sx * x + sy * y) * 181)) by lia.
  pose proof (quot256_abs ((sx * x + sy * y) * 181)).
  apply int64_id. lia.
Qed.

Lemma Rot45CW_int32 x y :
  is_int32 x -> is_int32 y ->
  Rot45CW (mkPoint x y)
  = mkPoint (int32 (Z.quot ((x - y) * 181) 256))
            (int32 (Z.quot ((x + y) * 181) 256)).
Proof.
  intros Hx Hy. unfold Rot45CW, quo64, mul64, sub64, add64. cbn [X Y].
  pose proof Hx as Hx'. pose proof Hy as Hy'.
  rewrite is_int32_bounds in Hx', Hy'.
  rewrite (int64_id x), (int64_id y) by lia.
  replace (x - y) with (1 * x + -1 * y) by lia.
  replace (x + y) with (1 * x + 1 * y) by lia.
  rewrite !eighth_turn_64 by (assumption || lia). reflexivity.
Qed.

Lemma Rot45CCW_int32 x y :
  is_int32 x -> is_int32 y ->
  Rot45CCW (mkPoint x y)
  = mkPoint (int32 (Z.quot ((x + y) * 181) 256))
            (int32 (Z.quot ((- x + y) * 181) 256)).
Proof.
  intros Hx Hy. unfold Rot45CCW, quo64, mul64, sub64, add64, neg64. cbn [X Y].
  pose proof Hx as Hx'. pose proof Hy as Hy'.
  rewrite is_int32_bounds in Hx', Hy'.
  rewrite (int64_id x), (int64_id y) by lia.
  rewrite (int64_id (- x)) by lia.
  replace (- x + y) with (-1 * x + 1 * y) by lia.
  replace (x + y) with (1 * x + 1 * y) by lia.
  rewrite !eighth_turn_64 by (assumption || lia). reflexivity.
Qed.

Lemma Rot135CW_int32 x y :
  is_int32 x -> is_int32 y ->
  Rot135CW (mkPoint x y)
  = mkPoint (int32 (Z.quot ((- x - y) * 181) 256))
            (int32 (Z.quot ((x - y) * 181) 256)).
Proof.
  intros Hx Hy. unfold Rot135CW, quo64, mul64, sub64, add64, neg64. cbn [X Y].
  pose proof Hx as Hx'. pose proof Hy as Hy'.
  rewrite is_int32_bounds in Hx', Hy'.
  rewrite (int64_id x), (int64_id y) by lia.
  rewrite (int64_id (- x)) by lia.
  replace (- x - y) with (-1 * x + -1 * y) by lia.
  replace (x - y) with (1 * x + -1 * y) by lia.
  rewrite !eighth_turn_64 by (assumption || lia). reflexivity.
Qed.

Lemma Rot135CCW_int32 x y :
  is_int32 x -> is_int32 y ->
  Rot135CCW (mkPoint x y)
  = mkPoint (int32 (Z.quot ((- x + y) * 181) 256))
            (int32 (Z.quot ((- x - y) * 181) 256)).
Proof.
  intros Hx Hy. unfold Rot135CCW, quo64, mul64, sub64, add64, neg64. cbn [X Y].
  pose proof Hx as Hx'. pose proof Hy as Hy'.
  rewrite is_int32_bounds in Hx', Hy'.
  rewrite (int64_id x), (int64_id y) by lia.
  rewrite (int64_id (- x)) by lia.
  replace (- x + y) with (-1 * x + 1 * y) by lia.
  replace (- x - y) with (-1 * x + -1 * y) by lia.
  rewrite !eighth_turn_64 by (assumption || lia). reflexivity.
Qed.

Lemma quot_opp_181 a b : a = - b -> Z.quot (a * 181) 256 = - Z.quot (b * 181) 256.
Proof.
  intros ->. replace (- b * 181) with (- (b * 181)) by lia.
  apply Z.quot_opp_l. discriminate.
Qed.

(** X3: the six rotations agree with each other on every point: the
    rotations by 135 degrees are the opposites of the rotations by 45
    degrees the other way, and are those by 45 degrees followed by a
    quarter turn the same way; no rounding separates them, also where
    the result wraps. *)
Theorem rotation_family_consistent (p : Point) :
  is_Point p ->
  Rot135CW p = Neg (Rot45CCW p) /\
  Rot135CCW p = Neg (Rot45CW p) /\
  Rot135CW p = Rot90CW (Rot45CW p) /\
  Rot135CCW p = Rot90CCW (Rot45CCW p) /\
  Rot45CCW p = Rot90CCW (Rot45CW p) /\
  Rot45CW p = Rot90CW (Rot45CCW p).
Proof.
  destruct p as [x y]. intros [Hx Hy]. cbn [X Y] in Hx, Hy.
  rewrite (Rot45CW_int32 x y Hx Hy), (Rot45CCW_int32 x y Hx Hy),
    (Rot135CW_int32 x y Hx Hy), (Rot135CCW_int32 x y Hx Hy).
  unfold Neg, Rot90CW, Rot90CCW, neg32. cbn [X Y].
  rewrite !int32_opp_int32.
  rewrite (quot_opp_181 (- x - y) (x + y)) by lia.
  rewrite (quot_opp_181 (- x + y) (x - y)) by lia.
  rewrite !Z.opp_involutive.
  repeat split; reflexivity.
Qed.

Lemma rotation_family_consistent_witness :
  let p := mkPoint 2147483647 (-2147483648) in
  Rot135CW p = Neg (Rot45CCW p) /\
  Rot135CCW p = Neg (Rot45CW p) /\
  Rot135CW p = Rot90CW (Rot45CW p) /\
  Rot135CCW p = Rot90CCW (Rot45CCW p) /\
  Rot45CCW p = Rot90CCW (Rot45CW p) /\
  Rot45CW p = Rot90CW (Rot45CCW p).
Proof.
  apply (rotation_family_consistent (mkPoint 2147483647 (-2147483648))).
  split; vm_compute; split; congruence.
Defined.

(** X4: [Dot] does not depend on the order of its arguments, and it is
    the exact dot product of two points of [int32] unless all four
    coordinates are the least value, the one input at which the 64-bit
    sum wraps. *)
Theorem Dot_exact (p q : Point) :
  is_Point p -> is_Point q ->
  Dot p q = Dot q p /\
  (~ (X p = min_int32 /\ Y p = min_int32 /\ X q = min_int32 /\ Y q = min_int32) ->
   Dot p q = X p * X q + Y p * Y q) /\
  Dot (mkPoint min_int32 min_int32) (mkPoint min_int32 min_int32)
  = -9223372036854775808.
Proof.
  destruct p as [x y], q as [u v]. intros [Hx Hy] [Hu Hv].
  cbn [X Y] in *. rewrite is_int32_bounds in Hx, Hy, Hu, Hv.
  unfold Dot, add64, mul64. cbn [X Y].
  rewrite (int64_id x), (int64_id y), (int64_id u), (int64_id v) by lia.
  split; [|split; [|reflexivity]].
  - rewrite (Z.mul_comm x u), (Z.mul_comm y v). reflexivity.
  - change min_int32 with (-2147483648). intros Hne.
    assert (Hxu : -4611686016279904256 <= x * u <= 4611686018427387904) by nia.
    assert (Hyv : -4611686016279904256 <= y * v <= 4611686018427387904) by nia.
    rewrite (int64_id (x * u)), (int64_id (y * v)) by lia.
    apply int64_id. split; [lia|].
    destruct (Z.eq_dec x (-2147483648)) as [->|Hx'];
      [destruct (Z.eq_dec u (-2147483648)) as [->|Hu']|];
      [destruct (Z.eq_dec y (-2147483648)) as [->|Hy'];
       [destruct (Z.eq_dec v (-2147483648)) as [->|Hv']|]| |]; try tauto; nia.
Qed.

Lemma Dot_exact_witness :
  Dot (mkPoint 256 (-512)) (mkPoint 768 1024) = 256 * 768 + -512 * 1024.
Proof.
  assert (Hp : is_Point (mkPoint 256 (-512)))
    by (split; vm_compute; split; congruence).
  assert (Hq : is_Point (mkPoint 768 1024))
    by (split; vm_compute; split; congruence).
  destruct (Dot_exact (mkPoint 256 (-512)) (mkPoint 768 1024) Hp Hq)
    as (_ & Hdot & _).
  apply Hdot. intros (H & _). revert H. vm_compute. congruence.
Defined.

(** X5: a point is perpendicular to its quarter turns: the dot product
    with [Rot90CW p] is zero unless [p.Y] is the least value, and with
    [Rot90CCW p] unless [p.X] is. *)
Theorem Dot_quarter_turn_zero (p : Point) :
  is_Point p ->
  (Y p <> min_int32 -> Dot p (Rot90CW p) = 0) /\
  (X p <> min_int32 -> Dot p (Rot90CCW p) = 0).
Proof.
  destruct p as [x y]. intros [Hx Hy]. cbn [X Y] in *.
  pose proof Hx as Hx'. pose proof Hy as Hy'.
  rewrite is_int32_bounds in Hx', Hy'.
  unfold Dot, Rot90CW, Rot90CCW, add64, mul64. cbn [X Y].
  rewrite (int64_id x), (int64_id y) by lia.
  assert (Hxy : -4611686016279904256 <= x * y <= 4611686018427387904) by nia.
  split; intros Hm.
  - rewrite (neg32_opp y Hy Hm). change min_int32 with (-2147483648) in Hm.
    rewrite (int64_id (- y)) by lia.
    rewrite (int64_id (x * - y)), (int64_id (y * x)) by nia.
    replace (x * - y + y * x) with 0 by lia. reflexivity.
  - rewrite (neg32_opp x Hx Hm). change min_int32 with (-2147483648) in Hm.
    rewrite (int64_id (- x)) by lia.
    rewrite (int64_id (x * y)), (int64_id (y * - x)) by nia.
    replace (x * y + y * - x) with 0 by lia. reflexivity.
Qed.

Lemma Dot_quarter_turn_zero_witness :
  Dot (mkPoint 768 (-1280)) (Rot90CW (mkPoint 768 (-1280))) = 0 /\
  Dot (mkPoint 768 (-1280)) (Rot90CCW (mkPoint 768 (-1280))) = 0.
Proof.
  assert (Hp : is_Point (mkPoint 768 (-1280)))
    by (split; vm_compute; split; congruence).
  destruct (Dot_quarter_turn_zero (mkPoint 768 (-1280)) Hp) as (Hcw & Hccw).
  split; [apply Hcw|apply Hccw]; vm_compute; congruence.
Defined.

(** X6: [Mul] returns the exact quotient, truncated toward zero, whenever
    the two products fit 32 bits. *)
Theorem Mul_exact_in_range (p : Point) (k : Fix32) :
  is_int32 (X p * k) -> is_int32 (Y p * k) ->
  Mul p k = mkPoint (Z.quot (X p * k) 256) (Z.quot (Y p * k) 256).
Proof. apply Mul_exact. Qed.

Lemma Mul_exact_in_range_witness :
  Mul (mkPoint 25600 (-12800)) 384 = mkPoint 38400 (-19200).
Proof.
  apply (Mul_exact_in_range (mkPoint 25600 (-12800)) 384);
    vm_compute; split; congruence.
Defined.

(** X7: scaling by 1.0, the scalar 256, leaves a point as it is as long
    as its coordinates lie in [-2^23, 2^23), and scaling by zero gives the
    zero point whatever the point. *)
Theorem Mul_one_and_zero (p : Point) :
  (-8388608 <= X p < 8388608 -> -8388608 <= Y p < 8388608 -> Mul p 256 = p) /\
  Mul p 0 = mkPoint 0 0.
Proof.
  destruct p as [x y]. cbn [X Y]. split.
  - intros Hx Hy. rewrite Mul_exact by (cbn [X Y]; rewrite is_int32_bounds; lia).
    cbn [X Y]. rewrite !Z.quot_mul by discriminate. reflexivity.
  - unfold Mul, quo32, mul32. cbn [X Y]. rewrite !Z.mul_0_r. reflexivity.
Qed.

Lemma Mul_one_and_zero_witness :
  Mul (mkPoint 8388607 (-8388608)) 256 = mkPoint 8388607 (-8388608).
Proof.
  destruct (Mul_one_and_zero (mkPoint 8388607 (-8388608))) as (Hone & _).
  apply Hone; vm_compute; split; congruence.
Defined.

(** *** Printing scalars and points *)

(** X8: the text of a negative scalar is a minus sign followed by the
    text of its magnitude; at the least value, whose negation wraps, the
    sign is printed twice. One and a quarter prints as the doc comment of
    [String] says. *)
Theorem Fix32_String_sign (x : Fix32) :
  is_int32 x -> 0 < x ->
  Fix32_String (- x) = "-" +:+ Fix32_String x /\
  Fix32_String min_int32 = "--8388608:000" /\
  Fix32_String 320 = "1:064".
Proof.
  intros Hx H0. split; [|split; reflexivity].
  pose proof Hx as Hx'. rewrite is_int32_bounds in Hx'.
  assert (Hn : is_int32 (- x)) by (rewrite is_int32_bounds; lia).
  destruct (Fix32_String_neg (- x) Hn) as (En & _); [lia|].
  destruct (Fix32_String_nonneg x Hx) as (Ep & _); [lia|].
  rewrite En, Ep.
  rewrite neg32_opp, Z.opp_involutive;
    [reflexivity|exact Hn|change min_int32 with (-2147483648); lia].
Qed.

Lemma Fix32_String_sign_witness :
  Fix32_String (- 320) = "-" +:+ Fix32_String 320.
Proof.
  apply (Fix32_String_sign 320); vm_compute; [split|]; congruence.
Defined.

Lemma numeral_append s1 s2 :
  numeral (s1 +:+ s2) = numeral s1 && numeral s2.
Proof.
  unfold numeral. induction s1 as [|c s1 IH]; [reflexivity|].
  change (numeral_char c && forallb numeral_char (list_ascii_of_string (s1 +:+ s2))
          = numeral_char c && forallb numeral_char (list_ascii_of_string s1)
            && forallb numeral_char (list_ascii_of_string s2)).
  rewrite IH, andb_assoc. reflexivity.
Qed.

Lemma pretty_N_char_numeral d : numeral_char (pretty_N_char d) = true.
Proof. unfold pretty_N_char. repeat case_match; reflexivity. Qed.

Lemma pretty_N_go_numeral x : forall s,
  numeral s = true -> numeral (pretty_N_go x s) = true.
Proof.
  induction (N.lt_wf_0 x) as [x _ IH]. intros s Hs.
  destruct (decide (0 < x)%N) as [Hx|Hx].
  - rewrite pretty_N_go_step by exact Hx. apply IH.
    + apply N.div_lt; [exact Hx|reflexivity].
    + change (numeral_char (pretty_N_char (x `mod` 10)) && numeral s = true).
      rewrite pretty_N_char_numeral. exact Hs.
  - assert (x = 0%N) as -> by lia. rewrite pretty_N_go_0. exact Hs.
Qed.

(** A decimal numeral holds digits and at most a sign. *)
Lemma pretty_Z_numeral (z : Z) : numeral (pretty z) = true.
Proof.
  assert (Hpos : forall q : positive, numeral (pretty q) = true).
  { intros q. unfold pretty, pretty_positive, pretty, pretty_N.
    destruct (decide (N.pos q = 0%N)); [reflexivity|].
    apply pretty_N_go_numeral. reflexivity. }
  destruct z as [|q|q]; unfold pretty, pretty_Z; [reflexivity|apply Hpos|].
  rewrite numeral_append. rewrite (Hpos q). reflexivity.
Qed.

Lemma before_colon_numeral s rest :
  numeral s = true -> before_colon (s +:+ ":" +:+ rest) = String.length s.
Proof.
  induction s as [|c s IH]; intros Hs; [reflexivity|].
  change (numeral_char c && numeral s = true) in Hs.
  apply andb_true_iff in Hs as [Hc Hs].
  change ((if Ascii.eqb c ":" then 0%nat
           else S (before_colon (s +:+ ":" +:+ rest)))
          = S (String.length s)).
  destruct (Ascii.eqb_spec c ":") as [->|_]; [discriminate Hc|].
  rewrite (IH Hs). reflexivity.
Qed.

(** The text of a scalar: a numeral, a colon and three characters. *)
Lemma Fix32_String_shape x :
  is_int32 x ->
  exists u d, Fix32_String x = u +:+ ":" +:+ d /\
              numeral u = true /\ String.length d = 3%nat.
Proof.
  intros Hx. destruct (Z_lt_le_dec x 0) as [H0|H0].
  - destruct (Fix32_String_neg x Hx H0) as (E & Hr).
    exists ("-" +:+ pretty (Z.quot (neg32 x) 256)), (fmt_03d (Z.rem (neg32 x) 256)).
    split; [rewrite E; reflexivity|]. split.
    + rewrite numeral_append, pretty_Z_numeral. reflexivity.
    + apply fmt_03d_read, Hr.
  - destruct (Fix32_String_nonneg x Hx H0) as (E & _ & Hr).
    exists (pretty (Z.quot x 256)), (fmt_03d (Z.rem x 256)).
    split; [exact E|]. split; [apply pretty_Z_numeral|].
    apply fmt_03d_read, Hr.
Qed.

Lemma Fix32_String_length x rest :
  is_int32 x ->
  String.length (Fix32_String x)
  = (before_colon (Fix32_String x +:+ rest) + 4)%nat.
Proof.
  intros Hx. destruct (Fix32_String_shape x Hx) as (u & d & E & Hu & Hd).
  rewrite E, !append_assoc, (before_colon_numeral u _ Hu).
  rewrite !append_length, Hd. cbn. lia.
Qed.

Lemma append_inj_head (s1 s2 t1 t2 : string) :
  s1 +:+ t1 = s2 +:+ t2 -> String.length s1 = String.length s2 ->
  s1 = s2 /\ t1 = t2.
Proof.
  intros Heq Hlen. apply append_inj_tail; [exact Heq|].
  apply (f_equal String.length) in Heq. rewrite !append_length in Heq. lia.
Qed.

(** X9: the text of a point is an opening bracket, the texts of [X] and
    [Y] separated by a comma and a space, and a closing bracket; two
    points of [int32] with the same text are the same point. *)
Theorem Point_String_inj (p q : Point) :
  is_Point p -> is_Point q -> Point_String p = Point_String q -> p = q.
Proof.
  destruct p as [x y], q as [u v]. intros [Hx Hy] [Hu Hv]. cbn [X Y] in *.
  unfold Point_String. cbn [X Y]. intros Heq.
  injection Heq as Heq.
  change ("" +:+ ?s) with s in Heq.
  assert (Hlen : String.length (Fix32_String x) = String.length (Fix32_String u)).
  { rewrite (Fix32_String_length x (", " +:+ Fix32_String y +:+ ")") Hx).
    rewrite (Fix32_String_length u (", " +:+ Fix32_String v +:+ ")") Hu).
    rewrite Heq. reflexivity. }
  apply append_inj_head in Heq as [Hxu Heq]; [|exact Hlen].
  injection Heq as Heq.
  change ("" +:+ ?s) with s in Heq.
  apply append_inj_tail in Heq as [Hyv _]; [|reflexivity].
  apply Fix32_String_inj in Hxu; [|assumption..].
  apply Fix32_String_inj in Hyv; [|assumption..].
  subst. reflexivity.
Qed.

Lemma Point_String_inj_witness :
  Point_String (mkPoint 320 (-64)) = "(1:064, -0:064)" /\
  mkPoint 320 (-64) = mkPoint (256 + 64) (- 64).
Proof.
  split; [reflexivity|].
  apply (Point_String_inj (mkPoint 320 (-64)) (mkPoint (256 + 64) (- 64)));
    [split; vm_compute; split; congruence..|reflexivity].
Defined.

(** *** Printing a 48.16 scalar *)

Lemma is_int64_bounds z :
  is_int64 z <-> -9223372036854775808 <= z <= 9223372036854775807.
Proof. reflexivity. Qed.

Lemma int64_id' z : is_int64 z -> int64 z = z.
Proof. rewrite is_int64_bounds. intros Hz. apply int64_id. lia. Qed.

Lemma int64_is_int64 z : is_int64 (int64 z).
Proof.
  rewrite is_int64_bounds. pose proof (wrap_range 64 z) as Hr.
  change (2 ^ (64 - 1)) with 9223372036854775808 in Hr. unfold int64. lia.
Qed.

Lemma neg64_opp a : is_int64 a -> a <> min_int64 -> neg64 a = - a.
Proof.
  rewrite is_int64_bounds. intros Ha Hm. apply int64_id.
  change min_int64 with (-9223372036854775808) in Hm. lia.
Qed.

Lemma neg64_involutive a : is_int64 a -> neg64 (neg64 a) = a.
Proof.
  intros Ha. destruct (Z.eq_dec a min_int64) as [->|Hm]; [reflexivity|].
  rewrite (neg64_opp a) by assumption.
  rewrite is_int64_bounds in Ha. change min_int64 with (-9223372036854775808) in Hm.
  rewrite neg64_opp; [lia| |].
  - rewrite is_int64_bounds. lia.
  - change min_int64 with (-9223372036854775808). lia.
Qed.

Lemma holds_from_spec check k : forall z r,
  holds_from check k z = true -> z <= r < z + Z.of_nat k -> check r = true.
Proof.
  induction k as [|k IH]; intros z r Hh Hr; [lia|].
  cbn [holds_from] in Hh. apply andb_true_iff in Hh as [Hz Hh].
  destruct (Z.eq_dec r z) as [->|Hne]; [exact Hz|].
  apply (IH (z + 1)); [exact Hh|lia].
Qed.

(** [%05d] prints a number from 0 to 65535 as five digits that read back
    as the number. *)
Lemma fmt_05d_table :
  holds_from (fun r => (read_05d (fmt_05d r) =? r)
                       && (String.length (fmt_05d r) =? 5)%nat)
    (Z.to_nat 65536) 0 = true.
Proof. vm_compute. reflexivity. Qed.

Lemma fmt_05d_read r :
  0 <= r <= 65535 ->
  read_05d (fmt_05d r) = r /\ String.length (fmt_05d r) = 5%nat.
Proof.
  intros Hr. pose proof (holds_from_spec _ _ 0 r fmt_05d_table) as Ht.
  cbv beta in Ht. rewrite andb_true_iff, Z.eqb_eq, Nat.eqb_eq in Ht.
  apply Ht. lia.
Qed.

Lemma Fix64_String_nonneg x :
  is_int64 x -> 0 <= x ->
  Fix64_String x = pretty (Z.quot x 65536) +:+ ":" +:+ fmt_05d (Z.rem x 65536)
  /\ 0 <= Z.quot x 65536 /\ 0 <= Z.rem x 65536 <= 65535.
Proof.
  intros Hx H0. rewrite is_int64_bounds in Hx.
  pose proof (Z.quot_rem' x 65536) as Hqr.
  pose proof (Z.rem_bound_pos x 65536 H0 eq_refl) as Hr.
  pose proof (Z.quot_pos x 65536 H0 eq_refl) as Hq.
  unfold Fix64_String, fmt_d, quo64, rem64.
  destruct (Z.ltb_spec x 0); [lia|].
  rewrite !int64_id'
    by first [apply int64_is_int64 | rewrite is_int64_bounds; lia].
  split; [reflexivity|]. lia.
Qed.

Lemma Fix64_String_neg x :
  is_int64 x -> x < 0 ->
  Fix64_String x
  = "-" +:+ pretty (Z.quot (neg64 x) 65536) +:+ ":"
    +:+ fmt_05d (Z.rem (neg64 x) 65536)
  /\ 0 <= Z.rem (neg64 x) 65536 <= 65535.
Proof.
  intros Hx H0. unfold Fix64_String, fmt_d, quo64, rem64.
  destruct (Z.ltb_spec x 0); [|lia].
  cbv zeta.
  destruct (Z.eq_dec x min_int64) as [->|Hm].
  - vm_compute. repeat split; congruence.
  - rewrite (neg64_opp x Hx Hm).
    rewrite is_int64_bounds in Hx. change min_int64 with (-9223372036854775808) in Hm.
    assert (Hp : 0 <= - x) by lia.
    pose proof (Z.quot_rem' (- x) 65536) as Hqr.
    pose proof (Z.rem_bound_pos (- x) 65536 Hp eq_refl) as Hr.
    pose proof (Z.quot_pos (- x) 65536 Hp eq_refl) as Hq.
    rewrite !int64_id'
      by first [apply int64_is_int64 | rewrite is_int64_bounds; lia].
    split; [reflexivity|]. lia.
Qed.

Lemma printed_parts_inj_05 (q1 q2 r1 r2 : Z) :
  0 <= r1 <= 65535 -> 0 <= r2 <= 65535 ->
  pretty q1 +:+ ":" +:+ fmt_05d r1 = pretty q2 +:+ ":" +:+ fmt_05d r2 ->
  q1 = q2 /\ r1 = r2.
Proof.
  intros Hr1 Hr2 Heq.
  destruct (fmt_05d_read r1 Hr1) as [Hread1 Hlen1].
  destruct (fmt_05d_read r2 Hr2) as [Hread2 Hlen2].
  apply append_inj_tail in Heq as [Hq Ht].
  - split; [exact (inj pretty _ _ Hq)|].
    injection Ht as Ht. change (fmt_05d r1 = fmt_05d r2) in Ht.
    rewrite <- Hread1, <- Hread2, Ht. reflexivity.
  - change (S (String.length (fmt_05d r1)) = S (String.length (fmt_05d r2))).
    rewrite Hlen1, Hlen2. reflexivity.
Qed.

(** X27: the text of a 48.16 scalar determines the scalar; the text of a
    negative one is a minus sign followed by the text of its magnitude;
    one and a quarter prints as the doc comment of [String] says. *)
Theorem Fix64_String_inj (x y : Fix64) :
  is_int64 x -> is_int64 y ->
  (Fix64_String x = Fix64_String y -> x = y) /\
  (0 < x -> Fix64_String (- x) = "-" +:+ Fix64_String x) /\
  Fix64_String 81920 = "1:16384".
Proof.
  intros Hx Hy. split; [|split; [|reflexivity]].
  - intros Heq.
    destruct (Z_lt_le_dec x 0) as [Hx0|Hx0], (Z_lt_le_dec y 0) as [Hy0|Hy0].
    + destruct (Fix64_String_neg x Hx Hx0) as (Ex & Hrx).
      destruct (Fix64_String_neg y Hy Hy0) as (Ey & Hry).
      rewrite Ex, Ey in Heq. injection Heq as Heq.
      apply printed_parts_inj_05 in Heq as [Hq Hr]; [|assumption..].
      rewrite <- (neg64_involutive x Hx), <- (neg64_involutive y Hy).
      f_equal.
      rewrite (Z.quot_rem' (neg64 x) 65536), (Z.quot_rem' (neg64 y) 65536).
      rewrite Hq, Hr. reflexivity.
    + exfalso.
      destruct (Fix64_String_neg x Hx Hx0) as (Ex & Hrx).
      destruct (Fix64_String_nonneg y Hy Hy0) as (Ey & Hqy & Hry).
      rewrite Ex, Ey in Heq. symmetry in Heq.
      destruct (pretty (Z.quot y 65536)) as [|c s] eqn:Hp; [discriminate Heq|].
      change (String c (s +:+ ":" +:+ fmt_05d (Z.rem y 65536))
              = String "-" (pretty (Z.quot (neg64 x) 65536) +:+ ":"
                            +:+ fmt_05d (Z.rem (neg64 x) 65536))) in Heq.
      injection Heq as -> _.
      exact (pretty_nonneg_no_sign _ s Hqy Hp).
    + exfalso.
      destruct (Fix64_String_nonneg x Hx Hx0) as (Ex & Hqx & Hrx).
      destruct (Fix64_String_neg y Hy Hy0) as (Ey & Hry).
      rewrite Ex, Ey in Heq.
      destruct (pretty (Z.quot x 65536)) as [|c s] eqn:Hp; [discriminate Heq|].
      change (String c (s +:+ ":" +:+ fmt_05d (Z.rem x 65536))
              = String "-" (pretty (Z.quot (neg64 y) 65536) +:+ ":"
                            +:+ fmt_05d (Z.rem (neg64 y) 65536))) in Heq.
      injection Heq as -> _.
      exact (pretty_nonneg_no_sign _ s Hqx Hp).
    + destruct (Fix64_String_nonneg x Hx Hx0) as (Ex & Hqx & Hrx).
      destruct (Fix64_String_nonneg y Hy Hy0) as (Ey & Hqy & Hry).
      rewrite Ex, Ey in Heq.
      apply printed_parts_inj_05 in Heq as [Hq Hr]; [|assumption..].
      rewrite (Z.quot_rem' x 65536), (Z.quot_rem' y 65536), Hq, Hr. reflexivity.
  - intros H0. pose proof Hx as Hx'. rewrite is_int64_bounds in Hx'.
    assert (Hn : is_int64 (- x)) by (rewrite is_int64_bounds; lia).
    destruct (Fix64_String_neg (- x) Hn) as (En & _); [lia|].
    destruct (Fix64_String_nonneg x Hx) as (Ep & _); [lia|].
    rewrite En, Ep.
    rewrite neg64_opp, Z.opp_involutive;
      [reflexivity|exact Hn|change min_int64 with (-9223372036854775808); lia].
Qed.

Lemma Fix64_String_inj_witness :
  Fix64_String (- 81920) = "-" +:+ Fix64_String 81920.
Proof.
  assert (H : is_int64 81920) by (vm_compute; split; congruence).
  destruct (Fix64_String_inj 81920 81920 H H) as (_ & Hs & _).
  apply Hs. reflexivity.
Defined.

(** ** Package raster: building *)

(** The two cases of [grow]. *)
Lemma grow_cases (n : nat) (p : Path) :
  len (grow n p) = (len p + n)%nat /\
  take (len p) (elems (grow n p)) = elems p /\
  (cap p <= cap (grow n p))%nat /\
  ((len p + n <= cap p)%nat ->
   cap (grow n p) = cap p /\
   elems (grow n p) ++ spare (grow n p) = elems p ++ spare p) /\
  ((cap p < len p + n)%nat ->
   cap (grow n p) = (2 * (len p + n) + 8)%nat /\
   elems (grow n p) = elems p ++ replicate n 0 /\
   spare (grow n p) = replicate (len p + n + 8) 0).
Proof.
  split; [apply grow_len|].
  split.
  { destruct (grow_elems n p) as (pad & He & _).
    rewrite He. apply take_app_length. }
  unfold grow, len, cap. destruct p as [e sp]. cbn [elems spare].
  destruct (Nat.ltb_spec (length e + length sp) (n + length e)) as [Hlt|Hge];
    cbn [elems spare].
  - assert (Hcopy : copy (replicate (n + length e) 0) e = e ++ replicate n 0).
    { unfold copy. rewrite length_replicate, take_ge by lia. f_equal.
      rewrite drop_replicate. f_equal. lia. }
    rewrite Hcopy, length_app, !length_replicate.
    split; [lia|]. split; [intros; lia|]. intros _.
    split; [lia|]. split; [reflexivity|]. f_equal. lia.
  - rewrite length_take, length_drop, length_app.
    split; [lia|]. split; [|intros; lia]. intros _.
    split; [lia|]. apply take_drop.
Qed.

(** X10: what [grow] does to the slice. The length grows by [n] and the
    old elements stay in front. When the capacity suffices the backing
    array is kept, contents and capacity; otherwise the new array has
    capacity [2*(len+n)+8] and holds zeros after the old elements. The
    capacity never shrinks. *)
Theorem grow_policy (n : nat) (p : Path) :
  len (grow n p) = (len p + n)%nat /\
  take (len p) (elems (grow n p)) = elems p /\
  (cap p <= cap (grow n p))%nat /\
  ((len p + n <= cap p)%nat ->
   cap (grow n p) = cap p /\
   elems (grow n p) ++ spare (grow n p) = elems p ++ spare p) /\
  ((cap p < len p + n)%nat ->
   cap (grow n p) = (2 * (len p + n) + 8)%nat /\
   elems (grow n p) = elems p ++ replicate n 0 /\
   spare (grow n p) = replicate (len p + n + 8) 0).
Proof. apply grow_cases. Qed.

Lemma call_Path_appends (c : Call) (p : Path) :
  call c p = Ok (mkPath (elems p ++ enc_rec (call_rec c))
                        (spare (grow (length (enc_rec (call_rec c))) p))).
Proof.
  destruct c as [a|b|b c|b c d]; cbn [call call_rec].
  - apply Path_Start_appends.
  - apply Path_Add1_appends.
  - apply Path_Add2_appends.
  - apply Path_Add3_appends.
Qed.

Lemma enc_recs_cons r rs : enc_recs (r :: rs) = enc_rec r ++ enc_recs rs.
Proof. reflexivity. Qed.

Lemma enc_recs_app rs1 rs2 : enc_recs (rs1 ++ rs2) = enc_recs rs1 ++ enc_recs rs2.
Proof. apply flat_map_app. Qed.

(** Any sequence of builder calls appends its records. *)
Lemma replay_Path (cs : list Call) (p : Path) :
  exists p' : Path,
    replay cs p = Ok p' /\
    elems p' = elems p ++ enc_recs (map call_rec cs) /\
    (cap p <= cap p')%nat.
Proof.
  revert p. induction cs as [|c cs IH]; intros p.
  - exists p. cbn. rewrite app_nil_r. split; [reflexivity|]. split; [reflexivity|lia].
  - cbn [replay map]. rewrite call_Path_appends. cbn [mbind Result_bind bind].
    set (n := length (enc_rec (call_rec c))).
    destruct (IH (mkPath (elems p ++ enc_rec (call_rec c)) (spare (grow n p))))
      as (p' & Hr & He & Hc).
    exists p'. split; [exact Hr|]. split.
    + rewrite He. cbn [elems]. rewrite enc_recs_cons, <- (assoc_L (++)). reflexivity.
    + destruct (grow_cases n p) as (Hlen & _ & Hcap & _).
      unfold cap, len in *. cbn [elems spare] in Hc.
      rewrite length_app in Hc. fold n in Hc. lia.
Qed.

(** X11: a Path records the builder calls made on it: any sequence of
    [Start], [Add1], [Add2] and [Add3] calls on any Path returns
    normally, and leaves the old elements followed by the records of the
    calls, in order. *)
Theorem Path_records_calls (cs : list Call) (p : Path) :
  exists p' : Path,
    replay cs p = Ok p' /\
    elems p' = elems p ++ enc_recs (map call_rec cs) /\
    (cap p <= cap p')%nat.
Proof. apply replay_Path. Qed.

(** Appending within the capacity keeps the backing array's capacity. *)
Lemma replay_within_capacity (cs : list Call) : forall (p p' : Path),
  (len p + length (enc_recs (map call_rec cs)) <= cap p)%nat ->
  replay cs p = Ok p' -> cap p' = cap p.
Proof.
  induction cs as [|c cs IH]; intros p p' Hfit Hr.
  - cbn in Hr. congruence.
  - cbn [replay map] in Hr. rewrite call_Path_appends in Hr.
    cbn [mbind Result_bind bind] in Hr.
    cbn [map] in Hfit. rewrite enc_recs_cons, length_app in Hfit.
    set (n := length (enc_rec (call_rec c))) in *.
    destruct (grow_cases n p) as (Hlen & _ & _ & Hkeep & _).
    destruct Hkeep as [Hcap _]; [lia|].
    assert (Hcap1 : cap (mkPath (elems p ++ enc_rec (call_rec c))
                                (spare (grow n p))) = cap p).
    { unfold cap, len in *. cbn [elems spare]. rewrite length_app. fold n. lia. }
    rewrite <- Hcap1. apply IH; [|exact Hr].
    rewrite Hcap1. unfold len. cbn [elems]. rewrite length_app. fold n.
    unfold len in Hfit. lia.
Qed.

(** X12: [Clear] empties the Path and keeps its capacity; the same calls
    made on a cleared Path and on a new one build the same elements; and
    as long as the records fit the capacity kept, building on the cleared
    Path allocates nothing. *)
Theorem Clear_then_build (cs : list Call) (p : Path) :
  len (Clear p) = 0%nat /\ cap (Clear p) = cap p /\
  exists p1 p2 : Path,
    replay cs (Clear p) = Ok p1 /\ replay cs nil_Path = Ok p2 /\
    elems p1 = elems p2 /\
    ((length (enc_recs (map call_rec cs)) <= cap p)%nat -> cap p1 = cap p).
Proof.
  split; [reflexivity|].
  assert (Hcap : cap (Clear p) = cap p).
  { unfold cap, Clear. cbn [elems spare]. rewrite length_app. reflexivity. }
  split; [exact Hcap|].
  destruct (replay_Path cs (Clear p)) as (p1 & Hr1 & He1 & _).
  destruct (replay_Path cs nil_Path) as (p2 & Hr2 & He2 & _).
  exists p1, p2. split; [exact Hr1|]. split; [exact Hr2|]. split.
  - rewrite He1, He2. reflexivity.
  - intros Hfit. rewrite <- Hcap.
    apply (replay_within_capacity cs (Clear p) p1); [|exact Hr1].
    rewrite Hcap. cbn. exact Hfit.
Qed.

(** The text of one token, written out. *)
Lemma token_call_rec (c : Call) :
  token (call_rec c)
  = match c with
    | CStart a =>
      "S0[" +:+ Fix32_String (X a) +:+ " " +:+ Fix32_String (Y a) +:+ "]"
    | CAdd1 b =>
      "A1[" +:+ Fix32_String (X b) +:+ " " +:+ Fix32_String (Y b) +:+ "]"
    | CAdd2 b c =>
      "A2[" +:+ Fix32_String (X b) +:+ " " +:+ Fix32_String (Y b) +:+ " "
            +:+ Fix32_String (X c) +:+ " " +:+ Fix32_String (Y c) +:+ "]"
    | CAdd3 b c d =>
      "A3[" +:+ Fix32_String (X b) +:+ " " +:+ Fix32_String (Y b) +:+ " "
            +:+ Fix32_String (X c) +:+ " " +:+ Fix32_String (Y c) +:+ " "
            +:+ Fix32_String (X d) +:+ " " +:+ Fix32_String (Y d) +:+ "]"
    end.
Proof.
  destruct c as [a|b|b c|b c d]; unfold token, Sprint;
    cbn [call_rec rec_name rec_payload seg_payload map String.concat];
    rewrite ?append_assoc; reflexivity.
Qed.

(** X13: the diagnostic string of a Path built by any sequence of calls
    on an empty Path names the calls in order, separated by single
    spaces: one token for each call, made of the name of the call and,
    between brackets, the printed coordinates the call was given,
    separated by single spaces. *)
Theorem Path_String_of_calls (cs : list Call) (sp : list Fix32) :
  exists p : Path,
    replay cs (mkPath [] sp) = Ok p /\
    Path_String p
    = Ok (String.concat " "
            (map (fun c : Call =>
                    match c with
                    | CStart a =>
                      "S0[" +:+ Fix32_String (X a) +:+ " "
                            +:+ Fix32_String (Y a) +:+ "]"
                    | CAdd1 b =>
                      "A1[" +:+ Fix32_String (X b) +:+ " "
                            +:+ Fix32_String (Y b) +:+ "]"
                    | CAdd2 b c =>
                      "A2[" +:+ Fix32_String (X b) +:+ " "
                            +:+ Fix32_String (Y b) +:+ " "
                            +:+ Fix32_String (X c) +:+ " "
                            +:+ Fix32_String (Y c) +:+ "]"
                    | CAdd3 b c d =>
                      "A3[" +:+ Fix32_String (X b) +:+ " "
                            +:+ Fix32_String (Y b) +:+ " "
                            +:+ Fix32_String (X c) +:+ " "
                            +:+ Fix32_String (Y c) +:+ " "
                            +:+ Fix32_String (X d) +:+ " "
                            +:+ Fix32_String (Y d) +:+ "]"
                    end) cs)).
Proof.
  destruct (replay_Path cs (mkPath [] sp)) as (p & Hr & He & _).
  exists p. split; [exact Hr|].
  rewrite (Path_String_recs p (map call_rec cs) He), map_map.
  do 2 f_equal. apply map_ext. intros c. apply token_call_rec.
Qed.

(** The stream of records is self-describing: it determines the
    records. *)
Lemma enc_recs_inj rs1 : forall rs2, enc_recs rs1 = enc_recs rs2 -> rs1 = rs2.
Proof.
  induction rs1 as [|r1 rs1 IH]; intros [|r2 rs2] Heq.
  - reflexivity.
  - destruct r2 as [a|[b|b c|b c d]]; discriminate Heq.
  - destruct r1 as [a|[b|b c|b c d]]; discriminate Heq.
  - rewrite !enc_recs_cons in Heq.
    destruct r1 as [[x1 y1]|[[x1 y1]|[x1 y1] [x2 y2]|[x1 y1] [x2 y2] [x3 y3]]],
             r2 as [[u1 v1]|[[u1 v1]|[u1 v1] [u2 v2]|[u1 v1] [u2 v2] [u3 v3]]];
      cbn in Heq; try discriminate Heq;
      injection Heq as Heq; subst; f_equal; apply IH; assumption.
Qed.

Lemma call_rec_inj c1 c2 : call_rec c1 = call_rec c2 -> c1 = c2.
Proof. destruct c1, c2; cbn; intros [=]; subst; reflexivity. Qed.

(** X14: two sequences of builder calls that leave the same elements in
    an empty Path are the same sequence: the buffer determines the calls
    that built it. *)
Theorem built_buffer_determines_calls (cs1 cs2 : list Call) (p1 p2 : Path) :
  replay cs1 nil_Path = Ok p1 -> replay cs2 nil_Path = Ok p2 ->
  elems p1 = elems p2 -> cs1 = cs2.
Proof.
  intros Hr1 Hr2 He.
  destruct (replay_Path cs1 nil_Path) as (q1 & Hq1 & He1 & _).
  destruct (replay_Path cs2 nil_Path) as (q2 & Hq2 & He2 & _).
  rewrite Hr1 in Hq1. rewrite Hr2 in Hq2.
  injection Hq1 as <-. injection Hq2 as <-.
  rewrite He1, He2 in He. cbn [nil_Path elems app] in He.
  apply enc_recs_inj in He. clear Hr1 Hr2 He1 He2 p1 p2.
  revert cs2 He. induction cs1 as [|c1 cs1 IH]; intros [|c2 cs2] He;
    try discriminate He; [reflexivity|].
  cbn [map] in He. injection He as Hc He.
  apply call_rec_inj in Hc. subst. f_equal. apply IH. exact He.
Qed.

Lemma built_buffer_determines_calls_witness :
  [CStart (mkPoint 0 0); CAdd1 (mkPoint 256 0)]
  = [CStart (mkPoint 0 0); CAdd1 (mkPoint 256 0)].
Proof.
  eapply (built_buffer_determines_calls
            [CStart (mkPoint 0 0); CAdd1 (mkPoint 256 0)]
            [CStart (mkPoint 0 0); CAdd1 (mkPoint 256 0)]);
    [reflexivity|reflexivity|reflexivity].
Defined.
(** ** Package raster: slices that share a backing array *)

Lemma shared_view_length h s :
  shared.valid h s -> length (shared.view h s) = shared.s_len s.
Proof.
  intros [Hl Hc]. unfold shared.view. rewrite length_take, length_drop. lia.
Qed.

Lemma shared_array_app_old (h : shared.Heap) l a :
  (a < length h)%nat -> shared.array (h ++ [l]) a = shared.array h a.
Proof.
  intros Ha. unfold shared.array. rewrite lookup_app_l by exact Ha. reflexivity.
Qed.

Lemma shared_array_app_new (h : shared.Heap) l :
  shared.array (h ++ [l]) (length h) = l.
Proof.
  unfold shared.array. rewrite lookup_app_r by lia.
  rewrite Nat.sub_diag. reflexivity.
Qed.

Lemma shared_array_outside (h : shared.Heap) a :
  (length h <= a)%nat -> shared.array h a = [].
Proof.
  intros Ha. unfold shared.array. rewrite lookup_ge_None_2 by exact Ha.
  reflexivity.
Qed.

(** A slice that is valid before an allocation is valid after it and
    shows the same elements. *)
Lemma shared_alloc_keeps (h : shared.Heap) l s :
  shared.valid h s ->
  shared.valid (h ++ [l]) s /\ shared.view (h ++ [l]) s = shared.view h s.
Proof.
  intros [Hl Hc]. unfold shared.valid, shared.view.
  destruct (Nat.lt_ge_cases (shared.s_arr s) (length h)) as [Hin|Hout].
  - rewrite shared_array_app_old by exact Hin. repeat split; assumption.
  - rewrite (shared_array_outside h _ Hout) in *. cbn [length] in Hc.
    replace (shared.s_len s) with 0%nat by lia.
    repeat split; lia.
Qed.

(** What [grow] does on the heap. *)
Lemma shared_grow_spec n h p h1 p1 :
  shared.valid h p -> shared.grow n h p = (h1, p1) ->
  shared.valid h1 p1 /\
  shared.s_len p1 = (shared.s_len p + n)%nat /\
  take (shared.s_len p)
       (drop (shared.s_off p1) (shared.array h1 (shared.s_arr p1)))
  = shared.view h p /\
  (forall s, shared.valid h s ->
             shared.valid h1 s /\ shared.view h1 s = shared.view h s) /\
  (shared.s_arr p1 = shared.s_arr p \/
   (length h <= shared.s_arr p1)%nat).
Proof.
  intros Hv Hg. pose proof (shared_view_length h p Hv) as Hlen.
  destruct Hv as [Hl Hc]. unfold shared.grow in Hg.
  destruct (Nat.ltb_spec (shared.s_cap p) (n + shared.s_len p)) as [Hlt|Hge];
    injection Hg as <- <-; cbn [shared.s_arr shared.s_off shared.s_len shared.s_cap].
  - assert (Hcopy : copy (replicate (n + shared.s_len p) 0) (shared.view h p)
                    = shared.view h p ++ replicate n 0).
    { unfold copy. rewrite length_replicate, take_ge by lia. f_equal.
      rewrite drop_replicate. f_equal. lia. }
    rewrite Hcopy, shared_array_app_new.
    split; [|split; [|split; [|split]]].
    + unfold shared.valid. cbn [shared.s_arr shared.s_off shared.s_len shared.s_cap].
      rewrite shared_array_app_new, !length_app, !length_replicate. lia.
    + lia.
    + cbn [drop]. rewrite <- (assoc_L (++)), <- Hlen at 1.
      apply take_app_length.
    + intros s Hs. apply shared_alloc_keeps. exact Hs.
    + right. lia.
  - split; [|split; [|split; [|split]]].
    + unfold shared.valid. cbn [shared.s_arr shared.s_off shared.s_len shared.s_cap].
      split; [lia|exact Hc].
    + lia.
    + reflexivity.
    + intros s Hs. split; [exact Hs|reflexivity].
    + left. reflexivity.
Qed.

Lemma shared_array_write (h : shared.Heap) a pos l :
  (pos + length l <= length (shared.array h a))%nat ->
  shared.array (shared.write h a pos l) a
  = take pos (shared.array h a) ++ l ++ drop (pos + length l) (shared.array h a).
Proof.
  intros Hfit. unfold shared.write.
  destruct (Nat.lt_ge_cases a (length h)) as [Hin|Hout].
  - unfold shared.array at 1. rewrite list_lookup_insert_eq by exact Hin.
    reflexivity.
  - rewrite list_insert_ge by exact Hout.
    rewrite (shared_array_outside h a Hout) in *. cbn [length] in Hfit.
    destruct l; [|cbn [length] in Hfit; lia].
    rewrite take_nil, drop_nil. reflexivity.
Qed.

Lemma shared_array_write_other (h : shared.Heap) a b pos l :
  a <> b -> shared.array (shared.write h a pos l) b = shared.array h b.
Proof.
  intros Hne. unfold shared.write, shared.array.
  rewrite list_lookup_insert_ne by exact Hne. reflexivity.
Qed.

Lemma shared_array_write_length (h : shared.Heap) a b pos l :
  (pos + length l <= length (shared.array h a))%nat ->
  length (shared.array (shared.write h a pos l) b) = length (shared.array h b).
Proof.
  intros Hfit. destruct (Nat.eq_dec a b) as [<-|Hne].
  - rewrite shared_array_write by exact Hfit.
    rewrite !length_app, length_take, length_drop. lia.
  - rewrite shared_array_write_other by exact Hne. reflexivity.
Qed.

(** One call of [AddPath]: the receiver shows its old elements followed
    by those the argument showed when the call was made, whether the two
    share an array or not. Slices of other arrays show what they
    showed. *)
Lemma shared_AddPath_spec q h p :
  shared.valid h p -> shared.valid h q ->
  exists h1 p1,
    shared.AddPath q h p = Ok (h1, p1) /\
    shared.valid h1 p1 /\
    shared.view h1 p1 = shared.view h p ++ shared.view h q /\
    (forall s, shared.valid h s -> shared.valid h1 s) /\
    (forall s, shared.valid h s -> shared.s_arr s <> shared.s_arr p ->
               shared.view h1 s = shared.view h s).
Proof.
  intros Hp Hq. unfold shared.AddPath.
  destruct (shared.grow (shared.s_len q) h p) as [hg pg] eqn:Hg.
  destruct (shared_grow_spec _ _ _ _ _ Hp Hg) as (Hvg & Hlg & Hold & Hkeep & Hwhere).
  destruct (Hkeep q Hq) as [Hqg Hqv].
  pose proof (shared_view_length _ _ Hqg) as Hql.
  set (n := shared.s_len p) in *. set (m := shared.s_len q) in *.
  set (a := shared.s_arr pg) in *. set (off := shared.s_off pg) in *.
  destruct Hvg as [Hvl Hvc]. fold a off in Hvc.
  destruct (Nat.leb_spec (n + m) (shared.s_cap pg)) as [_|Hbad]; [|lia].
  set (arr := shared.array hg a) in *.
  assert (Hcopy : copy (take m (drop (off + n) arr)) (shared.view hg q)
                  = shared.view hg q).
  { unfold copy. rewrite length_take, length_drop, Hql.
    replace (m `min` (length arr - (off + n)))%nat with m by lia.
    rewrite <- Hql at 1. rewrite firstn_all.
    rewrite drop_ge by (rewrite length_take, length_drop; lia).
    apply app_nil_r. }
  rewrite Hcopy.
  assert (Hfit : (off + n + length (shared.view hg q) <= length arr)%nat)
    by (rewrite Hql; lia).
  eexists _, pg. split; [reflexivity|].
  split; [|split; [|split]].
  - unfold shared.valid. fold a off.
    rewrite shared_array_write_length by exact Hfit. fold arr. lia.
  - unfold shared.view at 1. fold a off.
    rewrite shared_array_write by exact Hfit. fold arr.
    rewrite Hlg. fold n m.
    rewrite drop_app_le by (rewrite length_take; lia).
    rewrite (assoc_L (++)).
    rewrite take_app_length'.
    2:{ rewrite length_app, length_drop, length_take, Hql. lia. }
    rewrite Hqv. f_equal.
    rewrite <- Hold. fold a off arr n.
    rewrite skipn_firstn_comm. f_equal. lia.
  - intros s Hs. destruct (Hkeep s Hs) as [[Hsl Hsc] _].
    unfold shared.valid.
    rewrite shared_array_write_length by exact Hfit. split; assumption.
  - intros s Hs Hne. destruct (Hkeep s Hs) as [[Hsl Hsc] Hsv].
    rewrite <- Hsv. unfold shared.view.
    destruct (Nat.eq_dec a (shared.s_arr s)) as [Heq|Hne'].
    + destruct Hwhere as [Hsame|Hnew]; [congruence|].
      destruct Hs as [Hsl0 Hsc0].
      rewrite shared_array_outside in Hsc0 by lia. cbn [length] in Hsc0.
      replace (shared.s_len s) with 0%nat by lia. reflexivity.
    + rewrite shared_array_write_other by exact Hne'. reflexivity.
Qed.

(** X15: [AddPath] appends what its argument shows when the call is
    made. One call leaves in the receiver its old elements followed by
    those of the argument, also when the two share a backing array, which
    is what [Path_AddPath] computes on values. A second call appends
    what its argument shows by then: the elements it showed at first if
    it does not share the array of the receiver, but not in general,
    since the first call may have written through it. *)
Theorem AddPath_appends_what_it_reads
        (h : shared.Heap) (p q r : shared.Slice) :
  shared.valid h p -> shared.valid h q -> shared.valid h r ->
  exists (h1 : shared.Heap) (p1 : shared.Slice)
         (h2 : shared.Heap) (p2 : shared.Slice),
    shared.AddPath q h p = Ok (h1, p1) /\
    shared.view h1 p1 = shared.view h p ++ shared.view h q /\
    (forall sp sq : list Fix32,
        exists p' : Path,
          Path_AddPath (mkPath (shared.view h q) sq) (mkPath (shared.view h p) sp)
          = Ok p' /\
          elems p' = shared.view h1 p1) /\
    shared.AddPath r h1 p1 = Ok (h2, p2) /\
    shared.view h2 p2
    = shared.view h p ++ shared.view h q ++ shared.view h1 r /\
    (shared.s_arr r <> shared.s_arr p -> shared.view h1 r = shared.view h r).
Proof.
  intros Hp Hq Hr.
  destruct (shared_AddPath_spec q h p Hp Hq) as (h1 & p1 & H1 & Hv1 & He1 & Hk1 & Ho1).
  destruct (shared_AddPath_spec r h1 p1 Hv1 (Hk1 r Hr))
    as (h2 & p2 & H2 & _ & He2 & _ & _).
  exists h1, p1, h2, p2.
  split; [exact H1|]. split; [exact He1|]. split.
  { intros sp sq. eexists. split; [apply Path_AddPath_appends|].
    cbn [elems]. symmetry. exact He1. }
  split; [exact H2|]. split.
  - rewrite He2, He1, <- (assoc_L (++)). reflexivity.
  - intros Hne. apply Ho1; assumption.
Qed.

(** The receiver is cleared and filled again while [r] still points into
    its array: the second call appends what the first one wrote. *)
Lemma AddPath_appends_what_it_reads_witness :
  exists (h1 : shared.Heap) (p1 : shared.Slice)
         (h2 : shared.Heap) (p2 : shared.Slice),
    shared.AddPath (shared.mkSlice 1 0 4 4)
                   [[0; 256; 512; 0; 0; 0; 0; 0; 0; 0; 0; 0; 0; 0; 0; 0]; [1; 768; 0; 1]]
                   (shared.Clear (shared.mkSlice 0 0 4 16)) = Ok (h1, p1) /\
    shared.AddPath (shared.mkSlice 0 0 4 16) h1 p1 = Ok (h2, p2) /\
    shared.view h2 p2 = [1; 768; 0; 1; 1; 768; 0; 1] /\
    shared.view [[0; 256; 512; 0; 0; 0; 0; 0; 0; 0; 0; 0; 0; 0; 0; 0]; [1; 768; 0; 1]]
                (shared.mkSlice 0 0 4 16) = [0; 256; 512; 0].
Proof.
  destruct (AddPath_appends_what_it_reads
              [[0; 256; 512; 0; 0; 0; 0; 0; 0; 0; 0; 0; 0; 0; 0; 0]; [1; 768; 0; 1]]
              (shared.Clear (shared.mkSlice 0 0 4 16))
              (shared.mkSlice 1 0 4 4) (shared.mkSlice 0 0 4 16))
    as (h1 & p1 & h2 & p2 & H1 & _ & _ & H2 & He & _);
    [split; cbn; lia..|].
  exists h1, p1, h2, p2.
  split; [exact H1|]. split; [exact H2|].
  split; [|reflexivity].
  rewrite He. vm_compute in H1. injection H1 as <- <-.
  vm_compute. reflexivity.
Defined.

(** ** Package raster: the backward walk and the end points *)

(** X16: whatever precedes the last contour of a buffer, be it other
    contours or anything else, [addPathReversed] retraces that last
    contour only: on any target it makes the calls that retrace its
    segments, last first, and nothing before its start record is read. *)
Theorem addPathReversed_only_last_contour
        (pre : list Fix32) (c : Contour) (sp : list Fix32) :
  (forall (T : Type) (adder : Adder T) (p : T),
      addPathReversed p (mkPath (pre ++ enc_contour c) sp)
      = replay (reversed_calls (c_start c) (c_segs c)) p) /\
  (forall log : list Call,
      addPathReversed log (mkPath (pre ++ enc_contour c) sp)
      = Ok (log ++ reversed_calls (c_start c) (c_segs c))) /\
  (forall (pre' : list Fix32) (log : list Call),
      addPathReversed log (mkPath (pre' ++ enc_contour c) sp)
      = addPathReversed log (mkPath (pre ++ enc_contour c) sp)).
Proof.
  assert (Hlog : forall (pre0 : list Fix32) (log : list Call),
             addPathReversed log (mkPath (pre0 ++ enc_contour c) sp)
             = Ok (log ++ reversed_calls (c_start c) (c_segs c))).
  { intros pre0 log.
    rewrite (addPathReversed_last_contour _ pre0 c log) by reflexivity.
    apply Recorder_replay. }
  split; [|split].
  - intros T adder p. apply (addPathReversed_last_contour _ pre c p). reflexivity.
  - apply Hlog.
  - intros pre' log. rewrite !Hlog. reflexivity.
Qed.

(** The walk at the trailing tag of the first segment of a buffer that
    has no start record: the point before the segment is read below
    index 0. *)
Lemma addPathReversed_body_no_start q s tl (log : list Call) :
  elems q = enc_seg s ++ tl ->
  addPathReversed_body q (seg_len s - 1) log = Panic index_out_of_range.
Proof.
  intros He. unfold addPathReversed_body. rewrite He.
  destruct s as [b|b c|b c d]; reflexivity.
Qed.

(** X17: on a buffer that holds segments and no start record, as the
    unchecked [Add1], [Add2] and [Add3] can build on an empty Path,
    [addPathReversed] panics with an index out of range: it walks off
    the front of the buffer. *)
Theorem addPathReversed_without_start (s : Seg) (ss : list Seg)
        (sp : list Fix32) (log : list Call) :
  addPathReversed log (mkPath (enc_segs (s :: ss)) sp)
  = Panic index_out_of_range.
Proof.
  set (q := mkPath (enc_segs (s :: ss)) sp).
  destruct (enc_seg_end s) as (front & Hs & Hfront).
  assert (He : elems q = front ++ [X (seg_end s); Y (seg_end s); seg_tag s]
                         ++ enc_segs ss ++ []).
  { cbn [q elems]. rewrite enc_segs_cons, Hs, app_nil_r, <- !(assoc_L (++)).
    reflexivity. }
  assert (Hlen : Z.of_nat (len q) = seg_len s + Z.of_nat (length (enc_segs ss))).
  { unfold len. rewrite He, app_nil_r, !length_app. cbn [length]. lia. }
  pose proof (enc_segs_length_ge ss) as Hge.
  assert (Hpos : 4 <= seg_len s) by (destruct s; cbn; lia).
  unfold addPathReversed.
  destruct (Nat.eqb_spec (len q) 0) as [H0|_]; [lia|].
  replace (len q) with (length ss + S (len q - length ss - 1))%nat at 1 by lia.
  replace (Z.of_nat (len q) - 1)
    with (Z.of_nat (length front) + 2 + Z.of_nat (length (enc_segs ss))) by lia.
  rewrite (addPathReversed_loop_segs ss q front (seg_end s) (seg_tag s) [] log _ He).
  rewrite Recorder_replay. cbn [mbind Result_bind bind addPathReversed_loop].
  replace (Z.of_nat (length front) + 2) with (seg_len s - 1) by lia.
  rewrite (addPathReversed_body_no_start q s (enc_segs ss)); [reflexivity|].
  cbn [q elems]. apply enc_segs_cons.
Qed.

(** The last three scalars of a contour: its end point and a tag. *)
Lemma enc_segs_end_point ss : forall a x y t,
  exists front t',
    [x; y; t] ++ enc_segs ss
    = front ++ [if ss is [] then x else X (end_point a ss);
                if ss is [] then y else Y (end_point a ss); t'].
Proof.
  induction ss as [|s ss IH]; intros a x y t.
  - exists [], t. reflexivity.
  - rewrite enc_segs_cons.
    destruct (enc_seg_end s) as (front & Hs & _). rewrite Hs.
    destruct (IH (seg_end s) (X (seg_end s)) (Y (seg_end s)) (seg_tag s))
      as (front' & t' & Hf).
    exists ([x; y; t] ++ front ++ front'), t'.
    rewrite <- !(assoc_L (++)). rewrite Hf.
    cbn [end_point]. destruct ss; rewrite <- ?(assoc_L (++)); reflexivity.
Qed.

Lemma enc_contour_end_point c :
  exists front t,
    enc_contour c
    = front ++ [X (end_point (c_start c) (c_segs c));
                Y (end_point (c_start c) (c_segs c)); t].
Proof.
  destruct c as [a ss]. unfold enc_contour. cbn [c_start c_segs].
  destruct (enc_segs_end_point ss a (X a) (Y a) 0) as (front & t & Hf).
  exists (0 :: front), t.
  change (enc_start a ++ enc_segs ss) with (0 :: ([X a; Y a; 0] ++ enc_segs ss)).
  rewrite Hf. destruct ss; reflexivity.
Qed.

Lemma firstPoint_contour (c : Contour) (cs : list Contour) (sp : list Fix32) :
  firstPoint (mkPath (enc_path (c :: cs)) sp) = Ok (c_start c).
Proof. destruct c as [[x y] ss]. reflexivity. Qed.

Lemma lastPoint_contour (cs : list Contour) (c : Contour) (sp : list Fix32) :
  lastPoint (mkPath (enc_path (cs ++ [c])) sp)
  = Ok (end_point (c_start c) (c_segs c)).
Proof.
  unfold lastPoint, len. cbn [elems].
  rewrite enc_path_snoc.
  destruct (enc_contour_end_point c) as (front & t & Hf). rewrite Hf.
  set (e := end_point (c_start c) (c_segs c)).
  rewrite (assoc_L (++)), length_app. cbn [length].
  set (n := length (enc_path cs ++ front)).
  rewrite (index_at (enc_path cs ++ front) [X e; Y e; t]
             (Z.of_nat (n + 3) - 3) 0) by lia.
  cbn [lookup list_lookup mbind Result_bind bind].
  rewrite (index_at (enc_path cs ++ front) [X e; Y e; t]
             (Z.of_nat (n + 3) - 2) 1) by lia.
  cbn [lookup list_lookup mbind Result_bind bind].
  destruct e; reflexivity.
Qed.

(** X18: on a well-formed Path that is not empty, [firstPoint] is the
    start of the first contour and [lastPoint] the point the last contour
    ends at; on a Path of fewer than three scalars, the empty one
    included, both panic with an index out of range. *)
Theorem firstPoint_lastPoint :
  (forall (c : Contour) (cs : list Contour) (sp : list Fix32),
      firstPoint (mkPath (enc_path (c :: cs)) sp) = Ok (c_start c)) /\
  (forall (cs : list Contour) (c : Contour) (sp : list Fix32),
      lastPoint (mkPath (enc_path (cs ++ [c])) sp)
      = Ok (end_point (c_start c) (c_segs c))) /\
  (forall p : Path,
      (len p < 3)%nat ->
      firstPoint p = Panic index_out_of_range /\
      lastPoint p = Panic index_out_of_range).
Proof.
  split; [exact firstPoint_contour|]. split; [exact lastPoint_contour|].
  intros [e sp] Hlen. unfold firstPoint, lastPoint, len in *.
  cbn [elems] in *.
  destruct e as [|a [|b [|c e]]]; cbn [length] in Hlen; [..|lia];
    split; reflexivity.
Qed.

Lemma reversed_calls_segs a ss :
  enc_recs (map call_rec (reversed_calls a ss)) = enc_segs (reversed_segs a ss).
Proof.
  revert a. induction ss as [|s ss IH]; intros a; [reflexivity|].
  cbn [reversed_calls reversed_segs].
  rewrite map_app, enc_recs_app, enc_segs_app, IH.
  f_equal. destruct s; reflexivity.
Qed.

Lemma reversed_segs_app ss1 : forall a ss2,
  reversed_segs a (ss1 ++ ss2)
  = reversed_segs (end_point a ss1) ss2 ++ reversed_segs a ss1.
Proof.
  induction ss1 as [|s ss1 IH]; intros a ss2.
  - cbn. rewrite app_nil_r. reflexivity.
  - cbn [app reversed_segs end_point]. rewrite IH, (assoc_L (++)). reflexivity.
Qed.

Lemma end_point_app ss1 : forall a ss2,
  end_point a (ss1 ++ ss2) = end_point (end_point a ss1) ss2.
Proof.
  induction ss1 as [|s ss1 IH]; intros a ss2; [reflexivity|]. apply IH.
Qed.

Lemma mirror_seg_back s a : mirror_seg (mirror_seg s a) (seg_end s) = s.
Proof. destruct s; reflexivity. Qed.

Lemma seg_end_mirror s a : seg_end (mirror_seg s a) = a.
Proof. destruct s; reflexivity. Qed.

(** Retracing a contour twice gives the contour back. *)
Lemma reversed_segs_twice ss : forall a,
  end_point (end_point a ss) (reversed_segs a ss) = a /\
  reversed_segs (end_point a ss) (reversed_segs a ss) = ss.
Proof.
  induction ss as [|s ss IH]; intros a; [split; reflexivity|].
  cbn [reversed_segs end_point].
  destruct (IH (seg_end s)) as [He Hr].
  rewrite end_point_app, reversed_segs_app, He, Hr.
  cbn [end_point reversed_segs app].
  rewrite seg_end_mirror, mirror_seg_back. split; reflexivity.
Qed.

Lemma rev_contour_involutive c : rev_contour (rev_contour c) = c.
Proof.
  destruct c as [a ss]. unfold rev_contour. cbn [c_start c_segs].
  destruct (reversed_segs_twice ss a) as [-> ->]. reflexivity.
Qed.

(** Starting a new Path at the last point of a contour and replaying the
    contour backward onto it builds the reversed contour. *)
Lemma reverse_onto_new_Path (c : Contour) (sp sp' : list Fix32) :
  exists r : Path,
    (a ← lastPoint (mkPath (enc_contour c) sp);
     r ← Path_Start a (mkPath [] sp');
     addPathReversed r (mkPath (enc_contour c) sp)) = Ok r /\
    elems r = enc_contour (rev_contour c).
Proof.
  pose proof (lastPoint_contour [] c sp) as Hlast. cbn [app] in Hlast.
  replace (enc_path [c]) with (enc_contour c) in Hlast
    by (cbn; rewrite app_nil_r; reflexivity).
  rewrite Hlast. cbn [mbind Result_bind bind].
  rewrite Path_Start_appends. cbn [mbind Result_bind bind elems app].
  rewrite (addPathReversed_last_contour _ [] c) by reflexivity.
  destruct (replay_Path (reversed_calls (c_start c) (c_segs c))
              (mkPath (enc_start (end_point (c_start c) (c_segs c)))
                      (spare (grow 4 (mkPath [] sp')))))
    as (r & Hr & He & _).
  exists r. split; [exact Hr|].
  rewrite He. cbn [elems]. rewrite reversed_calls_segs. reflexivity.
Qed.

(** X19: a contour can be reversed through the Path interface, and
    reversing twice restores it: starting a new Path at [lastPoint] of a
    single contour and replaying the contour backward onto it builds the
    reversed contour, which starts where the original ends and ends where
    it starts; doing the same to the result gives back the original
    elements. *)
Theorem reverse_twice_restores (c : Contour) (sp sp1 sp2 : list Fix32) :
  exists r r2 : Path,
    (a ← lastPoint (mkPath (enc_contour c) sp);
     r ← Path_Start a (mkPath [] sp1);
     addPathReversed r (mkPath (enc_contour c) sp)) = Ok r /\
    elems r = enc_contour (rev_contour c) /\
    firstPoint r = Ok (end_point (c_start c) (c_segs c)) /\
    lastPoint r = Ok (c_start c) /\
    (a ← lastPoint r; r2 ← Path_Start a (mkPath [] sp2); addPathReversed r2 r)
    = Ok r2 /\
    elems r2 = enc_contour c.
Proof.
  destruct (reverse_onto_new_Path c sp sp1) as (r & Hr & He).
  destruct r as [e spr]. cbn [elems] in He. subst e.
  destruct (reverse_onto_new_Path (rev_contour c) spr sp2) as (r2 & Hr2 & He2).
  rewrite rev_contour_involutive in He2.
  exists (mkPath (enc_contour (rev_contour c)) spr), r2.
  split; [exact Hr|]. split; [reflexivity|].
  split.
  { pose proof (firstPoint_contour (rev_contour c) [] spr) as Hfirst.
    replace (enc_path [rev_contour c]) with (enc_contour (rev_contour c)) in Hfirst
      by (cbn; rewrite app_nil_r; reflexivity).
    exact Hfirst. }
  split.
  { pose proof (lastPoint_contour [] (rev_contour c) spr) as Hlast.
    cbn [app] in Hlast.
    replace (enc_path [rev_contour c]) with (enc_contour (rev_contour c)) in Hlast
      by (cbn; rewrite app_nil_r; reflexivity).
    rewrite Hlast. f_equal. cbn [rev_contour c_start c_segs].
    apply reversed_segs_twice. }
  split; [exact Hr2|exact He2].
Qed.

(** ** Package raster: the decoder at the edges *)

(** One iteration of [Path.String] at a tag: only the tag and the window
    after it are read. *)
Lemma String_body_tag p i r l s :
  index (elems p) i = Ok (rec_tag r) ->
  slice p (i + 1) (i + rec_len r - 1) = Ok l ->
  String_body p i s
  = Ok (i + rec_len r,
        (if negb (i =? 0) then s +:+ " " else s) +:+ rec_name r +:+ Sprint l).
Proof.
  intros Hi Hs. unfold String_body. rewrite Hi.
  cbn [mbind Result_bind bind].
  destruct r as [a|[b|b c|b c d]]; cbn [rec_tag seg_tag rec_len seg_len] in *;
    cbn [Z.eqb Pos.eqb];
    match goal with
    | H : slice p ?lo ?hi = _ |- context [slice p ?lo ?hi'] =>
      replace hi' with hi by lia; rewrite H
    end; reflexivity.
Qed.

Lemma enc_rec_closing_length rt :
  Z.of_nat (length (enc_rec_closing rt)) = rec_len (fst rt).
Proof. destruct rt as [[a|[b|b c|b c d]] t]; reflexivity. Qed.

(** The loop of [Path.String] across records whose closing scalars are
    arbitrary. *)
Lemma String_loop_closing rts : forall p pre tl s fuel,
  elems p = pre ++ flat_map enc_rec_closing rts ++ tl ->
  String_loop (length rts + fuel) p (Z.of_nat (length pre)) s
  = String_loop fuel p
      (Z.of_nat (length (pre ++ flat_map enc_rec_closing rts)))
      (decode_acc (Z.of_nat (length pre) =? 0) s (map fst rts)).
Proof.
  induction rts as [|rt rts IH]; intros p pre tl s fuel He.
  - cbn. rewrite app_nil_r. reflexivity.
  - cbn [flat_map] in He. rewrite <- (assoc_L (++)) in He.
    cbn [length Nat.add String_loop].
    pose proof (enc_rec_closing_length rt) as Hrt.
    pose proof (rec_len_pos (fst rt)) as Hpos.
    assert (Hlt : Z.of_nat (length pre) < Z.of_nat (len p)).
    { unfold len. rewrite He, !length_app. lia. }
    destruct (Z.ltb_spec (Z.of_nat (length pre)) (Z.of_nat (len p))); [|lia].
    rewrite (String_body_tag p _ (fst rt) (rec_payload (fst rt)) s).
    2:{ rewrite He. apply index_lookup, list_lookup_middle. reflexivity. }
    2:{ eapply slice_payload.
        - rewrite He. unfold enc_rec_closing. cbn [app].
          rewrite <- (assoc_L (++)). reflexivity.
        - reflexivity.
        - rewrite rec_len_payload. lia. }
    cbn [mbind Result_bind bind].
    replace (Z.of_nat (length pre) + rec_len (fst rt))
      with (Z.of_nat (length (pre ++ enc_rec_closing rt)))
      by (rewrite length_app; lia).
    rewrite (IH p (pre ++ enc_rec_closing rt) tl)
      by (rewrite He, <- !(assoc_L (++)); reflexivity).
    cbn [flat_map map decode_acc].
    rewrite <- !(assoc_L (++)).
    assert (Hnz : (Z.of_nat (length (pre ++ enc_rec_closing rt)) =? 0) = false).
    { apply Z.eqb_neq. rewrite length_app. lia. }
    rewrite Hnz. unfold token.
    destruct (Z.of_nat (length pre) =? 0); reflexivity.
Qed.

(** X20: [Path.String] never reads the closing scalar of a record: a
    buffer whose records end with arbitrary scalars instead of their tags
    decodes to the same tokens as the well-formed one. *)
Theorem Path_String_ignores_closing_tags (rts : list (Rec * Fix32)) (p : Path) :
  elems p = flat_map enc_rec_closing rts ->
  Path_String p = Ok (String.concat " " (map token (map fst rts))).
Proof.
  intros He. unfold Path_String.
  assert (Hge : (length rts <= len p)%nat).
  { unfold len. rewrite He. clear He.
    induction rts as [|rt rts IH]; cbn [flat_map length]; [lia|].
    rewrite length_app. pose proof (enc_rec_closing_length rt).
    pose proof (rec_len_pos (fst rt)). lia. }
  replace (len p) with (length rts + (len p - length rts))%nat by lia.
  change 0 with (Z.of_nat (length (@nil Fix32))).
  rewrite (String_loop_closing rts p [] [])
    by (rewrite app_nil_r; exact He).
  cbn [app length]. rewrite <- He. fold (len p).
  destruct (len p - length rts)%nat; cbn [String_loop];
    rewrite Z.ltb_irrefl; cbn [Z.of_nat Z.eqb];
    rewrite decode_acc_tokens; reflexivity.
Qed.

Lemma Path_String_ignores_closing_tags_witness :
  Path_String (mkPath [0; 256; 512; 77; 1; 768; 0; -5] [])
  = Path_String (mkPath [0; 256; 512; 0; 1; 768; 0; 1] []).
Proof.
  rewrite (Path_String_ignores_closing_tags
             [(RStart (mkPoint 256 512), 77); (RSeg (Line (mkPoint 768 0)), -5)])
    by reflexivity.
  rewrite (Path_String_ignores_closing_tags
             [(RStart (mkPoint 256 512), 0); (RSeg (Line (mkPoint 768 0)), 1)])
    by reflexivity.
  reflexivity.
Defined.

Lemma concat_snoc (sep : string) (l : list string) (x : string) :
  String.concat sep (l ++ [x])
  = match l with
    | [] => x
    | _ => String.concat sep l +:+ sep +:+ x
    end.
Proof.
  induction l as [|a l IH]; [reflexivity|].
  destruct l as [|b l]; [reflexivity|].
  change (String.concat sep ((a :: b :: l) ++ [x]))
    with (a +:+ sep +:+ String.concat sep ((b :: l) ++ [x])).
  rewrite IH.
  change (String.concat sep (a :: b :: l))
    with (a +:+ sep +:+ String.concat sep (b :: l)).
  rewrite !append_assoc. reflexivity.
Qed.

(** X21: the windows of [Path.String] are checked against the capacity,
    not the length. When the last record of a buffer stops short after
    its tag, [Path.String] panics with a slice out of range if the
    backing array is too short for the record's coordinates, and
    otherwise returns, printing for that record, between the brackets,
    the scalars found past the end of the Path. *)
Theorem Path_String_short_last_record
        (rs : list Rec) (r : Rec) (rest : list Fix32) (p : Path) :
  elems p = enc_recs rs ++ rec_tag r :: rest ->
  (length rest <= length (rec_payload r))%nat ->
  let need := length (rec_payload r) in
  ((cap p < length (enc_recs rs) + 1 + need)%nat ->
   Path_String p = Panic slice_out_of_range) /\
  ((length (enc_recs rs) + 1 + need <= cap p)%nat ->
   Path_String p
   = Ok (String.concat " "
           (map (fun r0 : Rec =>
                   rec_name r0 +:+ "[" +:+
                   String.concat " " (map Fix32_String (rec_payload r0))
                   +:+ "]") rs
            ++ [rec_name r +:+ "[" +:+
                String.concat " "
                  (map Fix32_String (take need (rest ++ spare p)))
                +:+ "]"]))).
Proof.
  intros He Hshort need.
  change (map (fun r0 : Rec =>
                 rec_name r0 +:+ "[" +:+
                 String.concat " " (map Fix32_String (rec_payload r0))
                 +:+ "]") rs)
    with (map token rs).
  change ("[" +:+
          String.concat " " (map Fix32_String (take need (rest ++ spare p)))
          +:+ "]")
    with (Sprint (take need (rest ++ spare p))).
  pose proof (enc_recs_length_ge rs) as Hge.
  assert (Hlen : len p = (length (enc_recs rs) + S (length rest))%nat).
  { unfold len. rewrite He, length_app. reflexivity. }
  assert (Hneed : rec_len r = Z.of_nat need + 2) by apply rec_len_payload.
  set (i := Z.of_nat (length (enc_recs rs))).
  assert (Hstart : Path_String p
                   = String_loop (S (len p - length rs - 1)) p i
                       (decode_acc true "" rs)).
  { unfold Path_String.
    replace (len p) with (length rs + S (len p - length rs - 1))%nat at 1 by lia.
    change 0 with (Z.of_nat (length (@nil Fix32))).
    rewrite (String_loop_recs rs p [] (rec_tag r :: rest)) by exact He.
    reflexivity. }
  assert (Hi : index (elems p) i = Ok (rec_tag r)).
  { rewrite He. apply index_lookup, list_lookup_middle. reflexivity. }
  rewrite Hstart. cbn [String_loop].
  destruct (Z.ltb_spec i (Z.of_nat (len p))); [|lia].
  split; intros Hcap.
  - assert (Hs : slice p (i + 1) (i + rec_len r - 1) = Panic slice_out_of_range).
    { unfold slice.
      destruct (Z.leb_spec (i + rec_len r - 1) (Z.of_nat (cap p))); [lia|].
      rewrite andb_false_r. reflexivity. }
    unfold String_body. rewrite Hi. cbn [mbind Result_bind bind].
    destruct r as [a|[b|b c|b c d]]; cbn [rec_tag seg_tag rec_len seg_len] in *;
      cbn [Z.eqb Pos.eqb];
      match goal with
      | H : slice p ?lo ?hi = _ |- context [slice p ?lo ?hi'] =>
        replace hi' with hi by lia; rewrite H
      end; reflexivity.
  - assert (Hs : slice p (i + 1) (i + rec_len r - 1)
                 = Ok (take need (rest ++ spare p))).
    { unfold slice.
      destruct (Z.leb_spec 0 (i + 1)); [|lia].
      destruct (Z.leb_spec (i + 1) (i + rec_len r - 1)); [|lia].
      destruct (Z.leb_spec (i + rec_len r - 1) (Z.of_nat (cap p))); [|lia].
      cbn [andb]. f_equal.
      replace (Z.to_nat (i + rec_len r - 1 - (i + 1))) with need by lia.
      replace (Z.to_nat (i + 1)) with (length (enc_recs rs ++ [rec_tag r]))
        by (rewrite length_app; cbn [length]; lia).
      rewrite He.
      replace ((enc_recs rs ++ rec_tag r :: rest) ++ spare p)
        with ((enc_recs rs ++ [rec_tag r]) ++ rest ++ spare p)
        by (rewrite <- ?(assoc_L (++)); reflexivity).
      rewrite drop_app_length. reflexivity. }
    rewrite (String_body_tag p i r _ _ Hi Hs). cbn [mbind Result_bind bind].
    assert (Hend : String_loop (len p - length rs - 1) p (i + rec_len r)
                     ((if negb (i =? 0) then decode_acc true "" rs +:+ " "
                       else decode_acc true "" rs)
                      +:+ rec_name r +:+ Sprint (take need (rest ++ spare p)))
                   = Ok ((if negb (i =? 0) then decode_acc true "" rs +:+ " "
                          else decode_acc true "" rs)
                         +:+ rec_name r +:+ Sprint (take need (rest ++ spare p)))).
    { destruct (len p - length rs - 1)%nat; cbn [String_loop];
        (destruct (Z.ltb_spec (i + rec_len r) (Z.of_nat (len p))); [lia|]);
        reflexivity. }
    rewrite Hend. f_equal.
    rewrite concat_snoc, decode_acc_tokens.
    destruct rs as [|r0 rs].
    + reflexivity.
    + assert (Hnz : (i =? 0) = false).
      { apply Z.eqb_neq. unfold i. rewrite enc_recs_cons, length_app.
        pose proof (rec_len_length r0). pose proof (rec_len_pos r0). lia. }
      rewrite Hnz. cbn [negb map]. rewrite !append_assoc. reflexivity.
Qed.

Lemma Path_String_short_last_record_witness :
  Path_String (mkPath [0; 256] []) = Panic slice_out_of_range /\
  Path_String (mkPath [0; 256] [512; 9])
  = Ok "S0[1:000 2:000]".
Proof.
  split.
  - apply (Path_String_short_last_record [] (RStart (mkPoint 0 0)) [256]
             (mkPath [0; 256] []));
      [reflexivity|cbn; lia|cbn; lia].
  - apply (Path_String_short_last_record [] (RStart (mkPoint 0 0)) [256]
             (mkPath [0; 256] [512; 9]));
      [reflexivity|cbn; lia|cbn; lia].
Defined.

(** Iterations to spare do not change the result of a loop. *)
Lemma String_loop_enough f1 : forall f2 p i s,
  String_loop f1 p i s <> NoFuel -> String_loop f2 p i s <> NoFuel ->
  String_loop f1 p i s = String_loop f2 p i s.
Proof.
  induction f1 as [|f1 IH]; intros [|f2] p i s; cbn [String_loop];
    destruct (i <? Z.of_nat (len p)); try congruence.
  destruct (String_body p i s) as [[i' s']| |]; cbn [mbind Result_bind bind];
    [apply IH|reflexivity..].
Qed.

Lemma addPathReversed_loop_enough f1 : forall f2 q i (log : list Call),
  addPathReversed_loop f1 q i log <> NoFuel ->
  addPathReversed_loop f2 q i log <> NoFuel ->
  addPathReversed_loop f1 q i log = addPathReversed_loop f2 q i log.
Proof.
  induction f1 as [|f1 IH]; intros [|f2] q i log;
    cbn [addPathReversed_loop]; try congruence.
  destruct (addPathReversed_body q i log) as [[[i' log']|]| |];
    cbn [mbind Result_bind bind]; [apply IH|reflexivity..].
Qed.

Lemma String_loop_quarter fuel : forall p i s,
  Z.of_nat (len p) - i <= 4 * Z.of_nat fuel ->
  String_loop fuel p i s <> NoFuel.
Proof.
  induction fuel as [|fuel IH]; intros p i s Hf; cbn [String_loop].
  - destruct (Z.ltb_spec i (Z.of_nat (len p))); [lia|discriminate].
  - destruct (Z.ltb_spec i (Z.of_nat (len p))); [|discriminate].
    destruct (String_body p i s) as [[i' s']| |] eqn:Hb;
      cbn [mbind Result_bind bind]; [|discriminate|].
    + apply IH. apply String_body_advances in Hb. lia.
    + exfalso. exact (String_body_no_NoFuel _ _ _ Hb).
Qed.

Lemma addPathReversed_loop_quarter fuel : forall q i (log : list Call),
  i < 4 * Z.of_nat fuel -> (0 < fuel)%nat ->
  addPathReversed_loop fuel q i log <> NoFuel.
Proof.
  induction fuel as [|fuel IH]; intros q i log Hi Hpos; [lia|].
  cbn [addPathReversed_loop].
  destruct (addPathReversed_body q i log) as [[[i' log']|]| |] eqn:Hb;
    cbn [mbind Result_bind bind]; try discriminate.
  - pose proof (addPathReversed_body_descends _ _ _ _ _ Hb).
    apply IH; lia.
  - exfalso.
    exact (addPathReversed_body_not_NoFuel q i log Recorder_call_returns Hb).
Qed.

(** X22: the loops of [Path.String] and of [addPathReversed] end on
    every buffer, well formed or not: each iteration moves the index by
    at least four scalars, so [len/4 + 1] iterations always suffice to
    return or to panic, and more iterations change nothing. *)
Theorem loops_end_within_a_quarter_of_the_length :
  (forall (p : Path) (fuel : nat),
      (len p / 4 + 1 <= fuel)%nat ->
      String_loop fuel p 0 "" <> NoFuel /\
      String_loop fuel p 0 "" = Path_String p) /\
  (forall (q : Path) (log : list Call) (fuel : nat),
      (0 < len q)%nat -> (len q / 4 + 1 <= fuel)%nat ->
      addPathReversed_loop fuel q (Z.of_nat (len q) - 1) log <> NoFuel /\
      addPathReversed_loop fuel q (Z.of_nat (len q) - 1) log
      = addPathReversed log q).
Proof.
  split.
  - intros p fuel Hf.
    assert (Hq : String_loop fuel p 0 "" <> NoFuel).
    { apply String_loop_quarter.
      pose proof (Nat.div_mod_eq (len p) 4).
      pose proof (Nat.mod_upper_bound (len p) 4). lia. }
    split; [exact Hq|].
    apply String_loop_enough; [exact Hq|apply Path_String_total].
  - intros q log fuel Hpos Hf.
    assert (Hq : addPathReversed_loop fuel q (Z.of_nat (len q) - 1) log
                 <> NoFuel).
    { apply addPathReversed_loop_quarter; [|lia].
      pose proof (Nat.div_mod_eq (len q) 4).
      pose proof (Nat.mod_upper_bound (len q) 4). lia. }
    split; [exact Hq|].
    unfold addPathReversed.
    destruct (Nat.eqb_spec (len q) 0) as [H0|_]; [lia|].
    apply addPathReversed_loop_enough; [exact Hq|].
    apply addPathReversed_loop_total; [exact Recorder_call_returns|lia..].
Qed.

(** ** The demonstration program *)

Section demo_contour.
Context {T : Type} `{Adder T}.

Lemma node_at_bound ns i n :
  main_demo.node_at ns i = Ok n ->
  0 <= i < Z.of_nat (length ns) /\ n ∈ ns.
Proof.
  unfold main_demo.node_at. destruct (Z.ltb_spec i 0); [discriminate|].
  destruct (ns !! Z.to_nat i) as [m|] eqn:Hl; [|discriminate].
  intros [= ->]. split.
  - apply lookup_lt_Some in Hl. lia.
  - eapply list_elem_of_lookup_2. exact Hl.
Qed.

(** An iteration of [contour] that goes on has made one [Add1] or [Add2]
    call and moved one or two nodes forward, to a node of the list; one
    that returns has read a node of degree -1. *)
Lemma contour_body_step ns i (r : T) o :
  main_demo.contour_body ns i r = Ok o ->
  match o with
  | Some (i', r') =>
    i < i' < Z.of_nat (length ns) /\
    exists s, (forall b c d, s <> Cubic b c d) /\ call (seg_call s) r = Ok r'
  | None => exists n, n ∈ ns /\ main_demo.degree n = -1
  end.
Proof.
  unfold main_demo.contour_body. intros Hb.
  apply bind_Ok_inv in Hb as (n & Hn & Hb).
  apply node_at_bound in Hn as [Hi Hin].
  destruct (Z.eqb_spec (main_demo.degree n) (-1)) as [Hd|_].
  { injection Hb as <-. exists n. split; assumption. }
  destruct (main_demo.degree n =? 1).
  { apply bind_Ok_inv in Hb as (b & Hnb & Hb).
    apply bind_Ok_inv in Hb as (r1 & Hr1 & Hb).
    injection Hb as <-. apply node_at_bound in Hnb as [Hib _].
    split; [lia|]. exists (Line (main_demo.p b)).
    split; [discriminate|exact Hr1]. }
  destruct (main_demo.degree n =? 2); [|discriminate].
  apply bind_Ok_inv in Hb as (b & Hnb & Hb).
  apply bind_Ok_inv in Hb as (c & Hnc & Hb).
  apply bind_Ok_inv in Hb as (r1 & Hr1 & Hb).
  injection Hb as <-. apply node_at_bound in Hnc as [Hic _].
  split; [lia|]. exists (Quad (main_demo.p b) (main_demo.p c)).
  split; [discriminate|exact Hr1].
Qed.

Lemma contour_loop_calls fuel : forall ns i (r r' : T),
  main_demo.contour_loop fuel ns i r = Ok r' ->
  exists ss,
    Forall (fun s => forall b c d, s <> Cubic b c d) ss /\
    replay (map seg_call ss) r = Ok r' /\
    Exists (fun n => main_demo.degree n = -1) ns.
Proof.
  induction fuel as [|fuel IH]; intros ns i r r' Hl; [discriminate|].
  cbn [main_demo.contour_loop] in Hl.
  apply bind_Ok_inv in Hl as (o & Hb & Hl).
  apply contour_body_step in Hb.
  destruct o as [[i1 r1]|].
  - destruct Hb as (_ & s & Hs & Hc).
    destruct (IH ns i1 r1 r' Hl) as (ss & Hss & Hr & He).
    exists (s :: ss). split; [constructor; assumption|].
    split; [|exact He]. cbn [map replay]. rewrite Hc. exact Hr.
  - injection Hl as <-. destruct Hb as (n & Hin & Hd).
    exists []. split; [constructor|]. split; [reflexivity|].
    apply Exists_exists. exists n. split; assumption.
Qed.

(** What [contour] has done when it returns. *)
Lemma contour_calls (r r' : T) (n0 : main_demo.node) (rest : list main_demo.node) :
  main_demo.contour r (n0 :: rest) = Ok r' ->
  exists ss,
    Forall (fun s => forall b c d, s <> Cubic b c d) ss /\
    replay (CStart (main_demo.p n0) :: map seg_call ss) r = Ok r' /\
    Exists (fun n => main_demo.degree n = -1) (n0 :: rest).
Proof.
  unfold main_demo.contour. cbn [length Nat.eqb].
  change (main_demo.node_at (n0 :: rest) 0) with (Ok (A:=main_demo.node) n0).
  cbn [mbind Result_bind bind]. intros Hc.
  apply bind_Ok_inv in Hc as (r1 & Hr1 & Hl).
  destruct (contour_loop_calls _ _ _ _ _ Hl) as (ss & Hss & Hr & He).
  exists ss. split; [exact Hss|]. split; [|exact He].
  cbn [replay call]. rewrite Hr1. exact Hr.
Qed.

Lemma contour_body_not_NoFuel ns i (r : T) :
  (forall c p, call c p <> NoFuel) ->
  main_demo.contour_body ns i r <> NoFuel.
Proof.
  intros Hcall. unfold main_demo.contour_body.
  assert (Hnode : forall j, main_demo.node_at ns j <> NoFuel).
  { intros j. unfold main_demo.node_at. destruct (j <? 0); [discriminate|].
    destruct (ns !! Z.to_nat j); discriminate. }
  apply bind_not_NoFuel; [apply Hnode|]. intros n.
  destruct (main_demo.degree n =? -1); [discriminate|].
  destruct (main_demo.degree n =? 1).
  { apply bind_not_NoFuel; [apply Hnode|]. intros b.
    apply bind_not_NoFuel; [apply (Hcall (CAdd1 _))|discriminate]. }
  destruct (main_demo.degree n =? 2); [|discriminate].
  apply bind_not_NoFuel; [apply Hnode|]. intros b.
  apply bind_not_NoFuel; [apply Hnode|]. intros c.
  apply bind_not_NoFuel; [apply (Hcall (CAdd2 _ _))|discriminate].
Qed.

Lemma contour_loop_total fuel : forall ns i (r : T),
  (forall c p, call c p <> NoFuel) ->
  Z.of_nat (length ns) - i <= Z.of_nat fuel -> (0 < fuel)%nat ->
  main_demo.contour_loop fuel ns i r <> NoFuel.
Proof.
  induction fuel as [|fuel IH]; intros ns i r Hcall Hi Hpos; [lia|].
  cbn [main_demo.contour_loop].
  destruct (main_demo.contour_body ns i r) as [[[i1 r1]|]| |] eqn:Hb;
    cbn [mbind Result_bind bind]; try discriminate.
  - apply contour_body_step in Hb as (Hlt & _).
    apply IH; [exact Hcall|lia..].
  - exfalso. exact (contour_body_not_NoFuel ns i r Hcall Hb).
Qed.

Lemma contour_total (r : T) ns :
  (forall c p, call c p <> NoFuel) ->
  main_demo.contour r ns <> NoFuel.
Proof.
  intros Hcall. unfold main_demo.contour.
  destruct (Nat.eqb_spec (length ns) 0); [discriminate|].
  apply bind_not_NoFuel.
  { unfold main_demo.node_at. cbn. destruct ns; discriminate. }
  intros n0. apply bind_not_NoFuel; [apply (Hcall (CStart _))|]. intros r1.
  apply contour_loop_total; [exact Hcall|lia..].
Qed.

End demo_contour.

Lemma Path_call_returns (c : Call) (p : Path) : call c p <> NoFuel.
Proof. rewrite call_Path_appends. discriminate. Qed.

(** X23: when [contour] returns on a list of nodes that is not empty, it
    has made on its target one [Start] call at the point of the first
    node followed by [Add1] and [Add2] calls only, and the list holds a
    node of degree -1; so on a list with no such node it panics. On the
    empty list it returns at once and leaves the target as it is. *)
Theorem contour_emits_one_contour :
  forall (T : Type) (adder : Adder T) (r : T),
    main_demo.contour r [] = Ok r /\
    forall (r' : T) (n0 : main_demo.node) (rest : list main_demo.node),
      main_demo.contour r (n0 :: rest) = Ok r' ->
      exists ss : list Seg,
        Forall (fun s => forall b c d, s <> Cubic b c d) ss /\
        replay (CStart (main_demo.p n0) :: map seg_call ss) r = Ok r' /\
        Exists (fun n => main_demo.degree n = -1) (n0 :: rest).
Proof.
  intros T adder r. split; [reflexivity|].
  intros r' n0 rest. apply contour_calls.
Qed.

(** X25: [contour] ends on every list of nodes, on a Path and on a
    recorder alike: it returns or it panics. It panics with "bad degree"
    when the first node has a degree other than -1, 1 and 2, and with an
    index out of range when a node of degree 1 is the last one. *)
Theorem contour_ends_or_panics :
  (forall (ns : list main_demo.node) (q : Path),
      main_demo.contour q ns <> NoFuel) /\
  (forall (ns : list main_demo.node) (log : list Call),
      main_demo.contour log ns <> NoFuel) /\
  (forall (n : main_demo.node) (rest : list main_demo.node) (log : list Call),
      main_demo.degree n <> -1 -> main_demo.degree n <> 1 ->
      main_demo.degree n <> 2 ->
      main_demo.contour log (n :: rest) = Panic main_demo.bad_degree) /\
  (forall (n : main_demo.node) (log : list Call),
      main_demo.degree n = 1 ->
      main_demo.contour log [n] = Panic index_out_of_range).
Proof.
  split; [|split; [|split]].
  - intros ns q. apply contour_total. exact Path_call_returns.
  - intros ns log. apply contour_total. exact Recorder_call_returns.
  - intros n rest log H1 H2 H3.
    unfold main_demo.contour. cbn [length Nat.eqb].
    change (main_demo.node_at (n :: rest) 0) with (Ok (A:=main_demo.node) n).
    cbn [mbind Result_bind bind Start Recorder main_demo.contour_loop].
    unfold main_demo.contour_body.
    change (main_demo.node_at (n :: rest) 0) with (Ok (A:=main_demo.node) n).
    cbn [mbind Result_bind bind].
    apply Z.eqb_neq in H1, H2, H3. rewrite H1, H2, H3. reflexivity.
  - intros n log Hd.
    unfold main_demo.contour. cbn [length Nat.eqb].
    change (main_demo.node_at [n] 0) with (Ok (A:=main_demo.node) n).
    cbn [mbind Result_bind bind Start Recorder main_demo.contour_loop].
    unfold main_demo.contour_body.
    change (main_demo.node_at [n] 0) with (Ok (A:=main_demo.node) n).
    cbn [mbind Result_bind bind]. rewrite Hd. reflexivity.
Qed.

Lemma contour_ends_or_panics_witness :
  main_demo.contour (@nil Call) [main_demo.mkNode 0 0 0; main_demo.mkNode 4 4 (-1)]
  = Panic main_demo.bad_degree.
Proof.
  destruct contour_ends_or_panics as (_ & _ & Hbad & _).
  apply Hbad; cbn; discriminate.
Defined.

(** The calls of [contour] do not depend on the target: the calls it
    makes on a recorder are the calls it makes on any target, which
    stops at the first call that panics. *)
Lemma contour_loop_replay fuel : forall ns i (log log' : list Call),
  main_demo.contour_loop fuel ns i log = Ok log' ->
  exists cs : list Call,
    log' = log ++ cs /\
    forall (T : Type) (adder : Adder T) (r : T),
      main_demo.contour_loop fuel ns i r = replay cs r.
Proof.
  induction fuel as [|fuel IH]; intros ns i log log' Hl; [discriminate|].
  cbn [main_demo.contour_loop] in Hl. unfold main_demo.contour_body in Hl.
  destruct (main_demo.node_at ns i) as [n| |] eqn:Hn; try discriminate.
  cbn [mbind Result_bind bind] in Hl.
  destruct (main_demo.degree n =? -1) eqn:Hd.
  { injection Hl as <-. exists []. split; [symmetry; apply app_nil_r|].
    intros T adder r. cbn [main_demo.contour_loop replay].
    unfold main_demo.contour_body. rewrite Hn. cbn [mbind Result_bind bind].
    rewrite Hd. reflexivity. }
  destruct (main_demo.degree n =? 1) eqn:Hd1.
  { destruct (main_demo.node_at ns (i + 1)) as [b| |] eqn:Hb; try discriminate.
    cbn [mbind Result_bind bind Add1 Recorder] in Hl.
    destruct (IH _ _ _ _ Hl) as (cs & Hlog & Hall).
    exists (CAdd1 (main_demo.p b) :: cs). split.
    { rewrite Hlog, <- (assoc_L (++)). reflexivity. }
    intros T adder r. cbn [main_demo.contour_loop replay call].
    unfold main_demo.contour_body. rewrite Hn. cbn [mbind Result_bind bind].
    rewrite Hd, Hd1, Hb. cbn [mbind Result_bind bind].
    destruct (Add1 (main_demo.p b) r) as [r1| |]; cbn [mbind Result_bind bind];
      [apply Hall|reflexivity..]. }
  destruct (main_demo.degree n =? 2) eqn:Hd2; [|discriminate].
  destruct (main_demo.node_at ns (i + 2 - 1)) as [b| |] eqn:Hb; try discriminate.
  destruct (main_demo.node_at ns (i + 2)) as [c| |] eqn:Hc; try discriminate.
  cbn [mbind Result_bind bind Add2 Recorder] in Hl.
  destruct (IH _ _ _ _ Hl) as (cs & Hlog & Hall).
  exists (CAdd2 (main_demo.p b) (main_demo.p c) :: cs). split.
  { rewrite Hlog, <- (assoc_L (++)). reflexivity. }
  intros T adder r. cbn [main_demo.contour_loop replay call].
  unfold main_demo.contour_body. rewrite Hn. cbn [mbind Result_bind bind].
  rewrite Hd, Hd1, Hd2, Hb, Hc. cbn [mbind Result_bind bind].
  destruct (Add2 (main_demo.p b) (main_demo.p c) r) as [r1| |];
    cbn [mbind Result_bind bind]; [apply Hall|reflexivity..].
Qed.

Lemma contour_replay (ns : list main_demo.node) (cs : list Call) :
  ns <> [] -> main_demo.contour (@nil Call) ns = Ok cs ->
  forall (T : Type) (adder : Adder T) (r : T),
    main_demo.contour r ns = replay cs r.
Proof.
  intros Hne Hc T adder r. destruct ns as [|n0 rest]; [congruence|].
  unfold main_demo.contour in *. cbn [length Nat.eqb] in *.
  change (main_demo.node_at (n0 :: rest) 0) with (Ok (A:=main_demo.node) n0) in *.
  cbn [mbind Result_bind bind Start Recorder app] in Hc.
  destruct (contour_loop_replay _ _ _ _ _ Hc) as (cs' & -> & Hall).
  cbn [mbind Result_bind bind app replay call].
  destruct (Start (main_demo.p n0) r) as [r1| |]; cbn [mbind Result_bind bind];
    [apply Hall|reflexivity..].
Qed.

(** X26: on the two outlines of the program's glyph, whatever the
    target, [contour] makes a [Start] call followed by 31, respectively
    3, [Add1] and [Add2] calls and nothing else, stopping only if a call
    panics; each of the two curves ends at the point it starts from. *)
Theorem demo_outlines_are_closed_contours :
  exists ss1 ss2 : list Seg,
    length ss1 = 31%nat /\ length ss2 = 3%nat /\
    Forall (fun s => forall b c d, s <> Cubic b c d) (ss1 ++ ss2) /\
    end_point (mkPoint 31488 66048) ss1 = mkPoint 31488 66048 /\
    end_point (mkPoint 48896 15872) ss2 = mkPoint 48896 15872 /\
    forall (T : Type) (adder : Adder T) (r : T),
      main_demo.contour r main_demo.outside
      = replay (CStart (mkPoint 31488 66048) :: map seg_call ss1) r /\
      main_demo.contour r main_demo.inside
      = replay (CStart (mkPoint 48896 15872) :: map seg_call ss2) r.
Proof.
  exists (map (fun c => match c with
                        | CAdd1 b => Line b
                        | CAdd2 b c => Quad b c
                        | CAdd3 b c d => Cubic b c d
                        | CStart a => Line a
                        end)
              (match main_demo.contour (@nil Call) main_demo.outside with
               | Ok (_ :: cs) => cs
               | _ => []
               end)).
  exists (map (fun c => match c with
                        | CAdd1 b => Line b
                        | CAdd2 b c => Quad b c
                        | CAdd3 b c d => Cubic b c d
                        | CStart a => Line a
                        end)
              (match main_demo.contour (@nil Call) main_demo.inside with
               | Ok (_ :: cs) => cs
               | _ => []
               end)).
  split; [vm_compute; reflexivity|]. split; [vm_compute; reflexivity|].
  split.
  { vm_compute. repeat constructor; discriminate. }
  split; [vm_compute; reflexivity|]. split; [vm_compute; reflexivity|].
  intros T adder r. split.
  - apply contour_replay; [discriminate|vm_compute; reflexivity].
  - apply contour_replay; [discriminate|vm_compute; reflexivity].
Qed.
